(** * TimingPredict: message-passing timing models (model.py)

    A shallow embedding of [model.py]: the feed-forward transform [MLP], the
    net convolution [NetConv], the levelised propagation [SignalProp], the
    pipeline [TimingGCN] and the residual baseline [AllConv]/[DeepGCNII].

    The program is written against two libraries.  Their primitives are
    embedded here with the behaviour their documentation gives them:
    - torch tensors are a shape and a row-major list of scalars; an operation
      that raises on a shape mismatch returns [Err RuntimeError];
    - a DGL graph is a node count, typed edge lists and two feature stores
      (node frame, edge frames); graph methods are computations in a state
      and error monad over the graph.

    Scalars are abstract ([Dtype]): the theorems hold for every
    interpretation of the arithmetic, the activation functions included,
    floating point among them.  Where a theorem needs laws of the
    arithmetic it asks for [DtypeLaws], which floating point satisfies. *)

From stdpp Require Import gmap strings list fin_maps.
From Stdlib Require Import ZArith Lia.
From Stdlib Require PrimFloat.

Local Open Scope nat_scope.

(** ** Scalars *)

Class Dtype := {
  elt : Type;
  r0 : elt;
  r1 : elt;
  radd : elt -> elt -> elt;
  rmul : elt -> elt -> elt;
  rmax : elt -> elt -> elt;
  rsigmoid : elt -> elt;          (* torch.sigmoid *)
  rleaky : elt -> elt             (* LeakyReLU(negative_slope=0.2) *)
}.

(** The laws a lookup through a one-hot attention relies on, in a form
    that floating point scalars satisfy.  [finite] singles out the scalars
    that are neither infinite nor not-a-number, [is_zero] the zeros of either
    sign, and [req] is the numeric comparison [==].  The products and sums of
    the constants 0 and 1 are exact; a finite scalar times one is itself and
    times zero is a zero; adding zeros to a finite scalar gives a scalar
    equal to it.  Nothing is asked of an infinite scalar: infinity times
    zero is not a number. *)
Class DtypeLaws (D : Dtype) : Type := {
  finite : elt -> Prop;
  is_zero : elt -> Prop;
  req : elt -> elt -> Prop;
  is_zero_r0 : is_zero r0;
  rmul_r1_r1 : rmul r1 r1 = r1;
  rmul_r1_r0 : rmul r1 r0 = r0;
  rmul_r0_r1 : rmul r0 r1 = r0;
  rmul_r0_r0 : rmul r0 r0 = r0;
  radd_r1_r0 : radd r1 r0 = r1;
  radd_r0_r0 : radd r0 r0 = r0;
  rmul_1_r : forall x : elt, finite x -> rmul x r1 = x;
  rmul_0_r : forall x : elt, finite x -> is_zero (rmul x r0);
  radd_zeros : forall a b : elt, is_zero a -> is_zero b -> is_zero (radd a b);
  radd_0_r : forall x z : elt, finite x -> is_zero z -> req (radd x z) x;
  radd_0_l : forall x y z : elt,
    finite x -> is_zero z -> req y x -> req (radd z y) x
}.

(** ** Errors *)

Inductive error : Type :=
| AssertionError (msg : string)
| RuntimeError
| KeyError (key : string)
| DGLError.

Inductive res (A : Type) : Type :=
| Ok (a : A)
| Err (e : error).
Arguments Ok {A} a.
Arguments Err {A} e.

Definition rbind {A B} (m : res A) (k : A -> res B) : res B :=
  match m with
  | Ok a => k a
  | Err e => Err e
  end.

Declare Scope res_scope.
Delimit Scope res_scope with res.
Notation "'let?' x ':=' m 'in' k" := (rbind m (fun x => k))
  (at level 10, x pattern, m at level 100, k at level 200) : res_scope.

Fixpoint rmapM {A B} (f : A -> res B) (l : list A) : res (list B) :=
  match l with
  | [] => Ok []
  | x :: l' =>
      match f x with
      | Ok y => match rmapM f l' with Ok ys => Ok (y :: ys) | Err e => Err e end
      | Err e => Err e
      end
  end.

(** ** Tensors (torch) *)

Module torch.
Section Torch.
Context {D : Dtype}.

Record tensor : Type := Tensor { shape : list nat; data : list elt }.

Definition numel (sh : list nat) : nat := foldr Nat.mul 1 sh.

Definition get (t : tensor) (i : nat) : elt := nth i (data t) r0.

Definition tabulate (n : nat) (f : nat -> elt) : list elt := map f (seq 0 n).

Definition sum_list (l : list elt) : elt := foldr radd r0 l.

(** [torch.zeros(sh)] *)
Definition zeros (sh : list nat) : tensor := Tensor sh (replicate (numel sh) r0).

(** Row [i] of the data [l] cut in rows of width [w].  A row always has [w]
    entries: past the end of [l] it reads zeros, which does not happen for
    the data of a tensor, as long as [numel] of its shape. *)
Definition row_of (w : nat) (l : list elt) (i : nat) : list elt :=
  take w (drop (i * w) l ++ replicate w r0).

(** A tensor seen as rows along dimension 0. *)
Definition width (t : tensor) : nat := numel (tail (shape t)).

(** A 2-D view: number of rows and row width, when the tensor has rank 2. *)
Definition dim2 (t : tensor) : option (nat * nat) :=
  match shape t with
  | [n; w] => Some (n, w)
  | _ => None
  end.

Definition row (t : tensor) (i : nat) : list elt :=
  row_of (width t) (data t) i.

(** [t.reshape(dims)]: one entry may be [-1] and is inferred. *)
Definition reshape (t : tensor) (dims : list Z) : res tensor :=
  let n := numel (shape t) in
  let known := numel (map Z.to_nat (filter (fun d => (0 <=? d)%Z = true) dims)) in
  match length (filter (fun d => (d <? 0)%Z = true) dims) with
  | 0 => if known =? n then Ok (Tensor (map Z.to_nat dims) (data t))
         else Err RuntimeError
  | 1 =>
      if forallb (fun d => (-1 <=? d)%Z) dims && negb (known =? 0)
         && (n mod known =? 0)
      then Ok (Tensor (map (fun d => if (d <? 0)%Z then n / known
                                     else Z.to_nat d) dims) (data t))
      else Err RuntimeError
  | _ => Err RuntimeError
  end.

(** [torch.cat(ts, dim=1)] on rank-2 tensors, the vectors per node and per
    edge of the data model.  (torch also concatenates tensors of a higher
    rank, which this embedding does not cover: it raises on them.) *)
Definition cat1 (ts : list tensor) : res tensor :=
  match ts with
  | [] => Err RuntimeError
  | t0 :: _ =>
      match dim2 t0 with
      | None => Err RuntimeError
      | Some (n, _) =>
          if forallb (fun t => match dim2 t with
                               | Some (n', _) => n' =? n
                               | None => false
                               end) ts
          then Ok (Tensor [n; sum_list_with (fun t => default 0 (snd <$> dim2 t)) ts]
                     (flat_map (fun i => flat_map (fun t => row t i) ts) (seq 0 n)))
          else Err RuntimeError
      end
  end.

(** [t[:, a:b]] on a rank-2 tensor; Python slices clamp to the width. *)
Definition slice_cols (t : tensor) (a b : nat) : res tensor :=
  match dim2 t with
  | None => Err RuntimeError
  | Some (n, w) =>
      let a' := a `min` w in
      let b' := (b `min` w) `max` a' in
      Ok (Tensor [n; b' - a']
            (flat_map (fun i => take (b' - a') (drop a' (row t i))) (seq 0 n)))
  end.

(** [torch.split(t, sizes, dim=1)] on a tensor of rank at least 2: the
    sizes must add up to dimension 1. *)
Fixpoint split_from (n d inner : nat) (l : list elt) (rest : list nat)
    (off : nat) (sizes : list nat) : list tensor :=
  match sizes with
  | [] => []
  | s :: sizes' =>
      Tensor (n :: s :: rest)
        (flat_map (fun i => take (s * inner)
                              (drop (off * inner) (row_of (d * inner) l i)))
           (seq 0 n))
      :: split_from n d inner l rest (off + s) sizes'
  end.

Definition split1 (t : tensor) (sizes : list nat) : res (list tensor) :=
  match shape t with
  | n :: d :: rest =>
      if sum_list_with id sizes =? d
      then Ok (split_from n d (numel rest) (data t) rest 0 sizes)
      else Err RuntimeError
  | _ => Err RuntimeError
  end.

(** [t.repeat(1, k)] on a rank-2 tensor: every row tiled [k] times. *)
Definition repeat1 (t : tensor) (k : nat) : res tensor :=
  match dim2 t with
  | None => Err RuntimeError
  | Some (n, w) =>
      Ok (Tensor [n; w * k]
            (flat_map (fun i => concat (replicate k (row t i))) (seq 0 n)))
  end.

(** Broadcasting (right-aligned, a dimension of size 1 stretches). *)
Definition bdim (a b : nat) : res nat :=
  if a =? b then Ok a
  else if a =? 1 then Ok b
  else if b =? 1 then Ok a
  else Err RuntimeError.

Fixpoint broadcast_rev (ra rb : list nat) : res (list nat) :=
  match ra, rb with
  | [], r | r, [] => Ok r
  | a :: ra', b :: rb' =>
      match bdim a b, broadcast_rev ra' rb' with
      | Ok d, Ok r => Ok (d :: r)
      | Err e, _ | _, Err e => Err e
      end
  end.

Definition broadcast_shapes (sa sb : list nat) : res (list nat) :=
  match broadcast_rev (rev sa) (rev sb) with
  | Ok r => Ok (rev r)
  | Err e => Err e
  end.

(** Multi-index of flat position [idx] in shape [sh], and back. *)
Fixpoint unravel (sh : list nat) (idx : nat) : list nat :=
  match sh with
  | [] => []
  | d :: sh' => (idx / numel sh') mod d :: unravel sh' idx
  end.

Fixpoint ravel (sh : list nat) (mi : list nat) : nat :=
  match sh, mi with
  | _ :: sh', i :: mi' => i * numel sh' + ravel sh' mi'
  | _, _ => 0
  end.

(** Position in an operand of shape [sop] of the element that lands at
    multi-index [mi] of the broadcast result. *)
Definition bcast_index (sop : list nat) (mi : list nat) : nat :=
  let mi' := drop (length mi - length sop) mi in
  ravel sop (zip_with (fun d i => if d =? 1 then 0 else i) sop mi').

(** Elementwise binary operation with broadcasting ([a * b], [a + b]). *)
Definition binop (f : elt -> elt -> elt) (a b : tensor) : res tensor :=
  match broadcast_shapes (shape a) (shape b) with
  | Err e => Err e
  | Ok sh =>
      Ok (Tensor sh
            (tabulate (numel sh) (fun idx =>
               let mi := unravel sh idx in
               f (get a (bcast_index (shape a) mi))
                 (get b (bcast_index (shape b) mi)))))
  end.

Definition mul := binop rmul.
Definition add := binop radd.

(** [torch.sigmoid] *)
Definition sigmoid (t : tensor) : tensor :=
  Tensor (shape t) (map rsigmoid (data t)).

(** The batch part of a shape and its last two dimensions. *)
Definition split_last2 (sh : list nat) : option (list nat * nat * nat) :=
  match rev sh with
  | c :: r :: b => Some (rev b, r, c)
  | _ => None
  end.

(** [torch.matmul(a, b)] for operands of rank at least 2: a matrix product
    on the last two dimensions, the leading ones broadcast. *)
Definition matmul (a b : tensor) : res tensor :=
  match split_last2 (shape a), split_last2 (shape b) with
  | Some (ba, n, m), Some (bb, m', p) =>
      if m =? m' then
        match broadcast_shapes ba bb with
        | Err e => Err e
        | Ok bs =>
            Ok (Tensor (bs ++ [n; p])
                  (flat_map (fun bi =>
                     let mi := unravel bs bi in
                     let oa := bcast_index ba mi * (n * m) in
                     let ob := bcast_index bb mi * (m * p) in
                     flat_map (fun i =>
                       tabulate p (fun j =>
                         sum_list (tabulate m (fun k =>
                           rmul (get a (oa + i * m + k))
                                (get b (ob + k * p + j))))))
                       (seq 0 n))
                     (seq 0 (numel bs))))
        end
      else Err RuntimeError
  | _, _ => Err RuntimeError
  end.

(** [t[ids]]: the rows [ids], in that order. *)
Definition index_rows (t : tensor) (ids : list nat) : tensor :=
  Tensor (length ids :: tail (shape t)) (flat_map (row t) ids).

(** Position of the last occurrence of [i] in [ids]. *)
Fixpoint last_index (ids : list nat) (i : nat) (pos : nat) : option nat :=
  match ids with
  | [] => None
  | j :: ids' =>
      match last_index ids' i (S pos) with
      | Some p => Some p
      | None => if j =? i then Some pos else None
      end
  end.

(** Out-of-place row update: row [ids[j]] of the result is row [j] of
    [src], the other rows are those of [t]. *)
Definition scatter_rows (t : tensor) (ids : list nat) (src : tensor) : tensor :=
  Tensor (shape t)
    (flat_map (fun i => match last_index ids i 0 with
                        | Some j => row src j
                        | None => row t i
                        end) (seq 0 (hd 0 (shape t)))).

End Torch.
End torch.

Import torch.

(** ** class MLP *)

Module MLP.
Section MLP.
Context {D : Dtype}.

(** The members of [self.layers]: [torch.nn.Linear] with its weight
    ([out_features] rows of [in_features] entries) and bias, and
    [torch.nn.LeakyReLU(negative_slope=0.2)].  Every call site leaves
    [batchnorm] and [dropout] at their default [False]. *)
Inductive layer : Type :=
| Linear (in_features out_features : nat) (weight bias : list elt)
| LeakyReLU.

(** The learned parameters: entry [k] of row [o] of the weight of the
    [i]-th linear layer, and entry [o] of its bias. *)
Record params : Type := Params {
  weight_init : nat -> nat -> nat -> elt;
  bias_init : nat -> nat -> elt
}.

Fixpoint build (p : params) (i prev : nat) (rest : list nat) : list layer :=
  match rest with
  | [] => []
  | s :: rest' =>
      Linear prev s
        (flat_map (fun o => tabulate prev (weight_init p i o)) (seq 0 s))
        (tabulate s (bias_init p i))
      :: (match rest' with [] => [] | _ :: _ => [LeakyReLU] end)
      ++ build p (S i) s rest'
  end.

Definition t : Type := list layer.

(** [__init__(self, *sizes)] *)
Definition init (sizes : list nat) (p : params) : t :=
  match sizes with
  | [] => []
  | s0 :: rest => build p 1 s0 rest
  end.

(** One layer on a batch of feature vectors (a rank-2 input).  (torch's
    linear layer also applies to the last dimension of an input of another
    rank, which this embedding does not cover: it raises on them.) *)
Definition apply_layer (l : layer) (x : tensor) : res tensor :=
  match l with
  | LeakyReLU => Ok (Tensor (shape x) (map rleaky (data x)))
  | Linear i o w b =>
      match dim2 x with
      | Some (n, wx) =>
          if wx =? i then
            Ok (Tensor [n; o]
                  (flat_map (fun r =>
                     tabulate o (fun c =>
                       radd (sum_list (zip_with rmul (row x r) (row_of i w c)))
                            (nth c b r0)))
                     (seq 0 n)))
          else Err RuntimeError
      | None => Err RuntimeError
      end
  end.

(** [forward(self, x)]: [self.layers(x)] *)
Fixpoint forward (self : t) (x : tensor) : res tensor :=
  match self with
  | [] => Ok x
  | l :: self' =>
      match apply_layer l x with
      | Ok y => forward self' y
      | Err e => Err e
      end
  end.

End MLP.
End MLP.

(** ** Graphs (dgl) *)

Module dgl.
Section DGL.
Context {D : Dtype}.

(** A graph with one node type: the node count, the edges of every edge
    type as (source, destination) pairs listed by edge id, the node
    features and, per edge type, the edge features. *)
Record graph : Type := Graph {
  num_nodes : nat;
  edges : gmap string (list (nat * nat));
  ndata : gmap string tensor;
  edata : gmap string (gmap string tensor)
}.

(** Graph methods: they read and update the graph, or raise. *)
Definition M (A : Type) : Type := graph -> res (A * graph).

Definition ret {A} (a : A) : M A := fun g => Ok (a, g).

Definition bind {A B} (m : M A) (k : A -> M B) : M B :=
  fun g => match m g with
           | Ok (a, g') => k a g'
           | Err e => Err e
           end.

Definition raise {A} (e : error) : M A := fun _ => Err e.

Definition lift {A} (r : res A) : M A :=
  fun g => match r with Ok a => Ok (a, g) | Err e => Err e end.

Definition gets {A} (f : graph -> A) : M A := fun g => Ok (f g, g).

(** The value a computation returns, the final graph dropped. *)
Definition value {A} (r : res (A * graph)) : res A :=
  match r with Ok (a, _) => Ok a | Err e => Err e end.

(** [for x in l: body(x)] *)
Fixpoint for_each {A} (l : list A) (body : A -> M unit) : M unit :=
  match l with
  | [] => ret tt
  | x :: l' => bind (body x) (fun _ => for_each l' body)
  end.

(** [with g.local_scope(): body]: the body works on copies of the feature
    frames, and the graph gets its own frames back when the body returns. *)
Definition local_scope {A} (body : M A) : M A :=
  fun g => match body g with
           | Ok (a, _) => Ok (a, g)
           | Err e => Err e
           end.

(** The views a user-defined function receives: [edges.src], [edges.dst],
    [edges.data] and [len(edges)]; [nodes.data]. *)
Record EdgeBatch : Type := {
  src : gmap string tensor;
  dst : gmap string tensor;
  edge_data : gmap string tensor;
  len : nat
}.

Record NodeBatch : Type := { node_data : gmap string tensor }.

(** Reading a feature: a missing key raises [KeyError]. *)
Definition field (fr : gmap string tensor) (k : string) : res tensor :=
  match fr !! k with
  | Some t => Ok t
  | None => Err (KeyError k)
  end.

Definition dict : Type := list (string * tensor).

Definition dict_get (d : dict) (k : string) : res tensor :=
  match list_find (fun kv => fst kv = k) d with
  | Some (_, (_, t)) => Ok t
  | None => Err (KeyError k)
  end.

Inductive message_func : Type :=
| udf (f : EdgeBatch -> res dict)
| copy_e (e out : string).

Inductive reduce_func : Type :=
| fn_sum (msg out : string)
| fn_max (msg out : string).

Definition valid_ids (n : nat) (ids : list nat) : bool :=
  forallb (fun i => i <? n) ids.

Definition eframe (g : graph) (e : string) : gmap string tensor :=
  default ∅ (edata g !! e).

(** The edge type a method works on: the named one, or the only one. *)
Definition get_etype (etype : option string) : M (string * list (nat * nat)) :=
  fun g =>
    match etype with
    | Some e => match edges g !! e with
                | Some el => Ok ((e, el), g)
                | None => Err DGLError
                end
    | None => match map_to_list (edges g) with
              | [p] => Ok (p, g)
              | _ => Err DGLError
              end
    end.

(** Writing features.  [ids = None] replaces whole columns, which must have
    [n] rows.  [ids = Some l] updates the rows [l] of a column, out of
    place; a column that does not exist yet is created filled with zeros. *)
Definition write_field (n : nat) (ids : option (list nat))
    (fr : gmap string tensor) (kv : string * tensor) : res (gmap string tensor) :=
  let '(k, t) := kv in
  match ids with
  | None =>
      match shape t with
      | n' :: _ => if n' =? n then Ok (<[k := t]> fr) else Err DGLError
      | [] => Err DGLError
      end
  | Some l =>
      match shape t with
      | m :: sh =>
          if m =? length l then
            match fr !! k with
            | Some c =>
                if bool_decide (shape c = n :: sh)
                then Ok (<[k := scatter_rows c l t]> fr)
                else Err DGLError
            | None => Ok (<[k := scatter_rows (zeros (n :: sh)) l t]> fr)
            end
          else Err DGLError
      | [] => Err DGLError
      end
  end.

Fixpoint write (n : nat) (ids : option (list nat))
    (fr : gmap string tensor) (d : dict) : res (gmap string tensor) :=
  match d with
  | [] => Ok fr
  | kv :: d' =>
      match write_field n ids fr kv with
      | Ok fr' => write n ids fr' d'
      | Err e => Err e
      end
  end.

Definition set_n_repr (ids : option (list nat)) (d : dict) : M unit :=
  fun g =>
    match write (num_nodes g) ids (ndata g) d with
    | Ok fr => Ok (tt, Graph (num_nodes g) (edges g) fr (edata g))
    | Err e => Err e
    end.

Definition set_e_repr (e : string) (n : nat) (ids : option (list nat)) (d : dict)
  : M unit :=
  fun g =>
    match write n ids (eframe g e) d with
    | Ok fr => Ok (tt, Graph (num_nodes g) (edges g) (ndata g) (<[e := fr]> (edata g)))
    | Err e => Err e
    end.

(** [g.ndata[k] = t] and [g.ndata[k]] *)
Definition set_ndata (k : string) (t : tensor) : M unit := set_n_repr None [(k, t)].

Definition get_ndata (k : string) : M tensor :=
  fun g => match field (ndata g) k with Ok t => Ok (t, g) | Err e => Err e end.

(** [g.edges[etype].data[k]] *)
Definition get_edata (etype : string) (k : string) : M tensor :=
  fun g =>
    match edges g !! etype with
    | Some _ => match field (eframe g etype) k with
                | Ok t => Ok (t, g)
                | Err e => Err e
                end
    | None => Err DGLError
    end.

Definition node_batch (g : graph) (ids : list nat) : NodeBatch :=
  {| node_data := (fun t => index_rows t ids) <$> ndata g |}.

Definition edge_batch (g : graph) (e : string) (el : list (nat * nat))
    (eids : list nat) : EdgeBatch :=
  let ends := map (fun i => nth i el (0, 0)) eids in
  {| src := (fun t => index_rows t (map fst ends)) <$> ndata g;
     dst := (fun t => index_rows t (map snd ends)) <$> ndata g;
     edge_data := (fun t => index_rows t eids) <$> eframe g e;
     len := length eids |}.

(** Edge ids of the edges that enter one of [nodes], node by node. *)
Definition in_edge_ids (el : list (nat * nat)) (nodes : list nat) : list nat :=
  flat_map (fun v => filter (fun i => snd (nth i el (0, 0)) = v)
                       (seq 0 (length el))) nodes.

(** [g.in_edges(nodes, etype=etype)], in its default form: the pair of
    endpoints of every edge that enters one of [nodes]. *)
Definition in_edges (nodes : list nat) (etype : option string)
  : M (list (nat * nat)) :=
  bind (get_etype etype) (fun '(_, el) =>
  fun g =>
    if valid_ids (num_nodes g) nodes
    then Ok (map (fun i => nth i el (0, 0)) (in_edge_ids el nodes), g)
    else Err DGLError).

(** [g.edge_ids(u, v)]: an edge from [u] to [v], the first one here. *)
Definition edge_id (el : list (nat * nat)) (uv : nat * nat) : res nat :=
  match list_find (fun p => p = uv) el with
  | Some (i, _) => Ok i
  | None => Err DGLError
  end.

Definition vadd (a b : list elt) : list elt := zip_with radd a b.
Definition vmax (a b : list elt) : list elt := zip_with rmax a b.

(** The built-in reducers over the messages that reach one node.  A node
    that receives no message gets zeros, for the sum and for the max. *)
Definition reduce_rows (rf : reduce_func) (w : nat) (msgs : list (list elt))
  : list elt :=
  match rf with
  | fn_sum _ _ => foldl vadd (replicate w r0) msgs
  | fn_max _ _ =>
      match msgs with
      | [] => replicate w r0
      | m :: msgs' => foldl vmax m msgs'
      end
  end.

Definition reduce_msg (rf : reduce_func) : string :=
  match rf with fn_sum m _ | fn_max m _ => m end.

Definition reduce_out (rf : reduce_func) : string :=
  match rf with fn_sum _ o | fn_max _ o => o end.

(** The message phase on a batch of edges. *)
Definition invoke_message (mf : message_func) (b : EdgeBatch) : res dict :=
  match mf with
  | udf f => f b
  | copy_e e out =>
      match field (edge_data b) e with
      | Ok t => Ok [(out, t)]
      | Err e => Err e
      end
  end.

(** Message passing on the edges [eids] towards the nodes [vs]: the
    messages are computed on all the edges first, then every node of [vs]
    reduces the messages of the edges that enter it. *)
Definition message_passing (g : graph) (e : string) (el : list (nat * nat))
    (eids : list nat) (vs : list nat) (mf : message_func) (rf : reduce_func)
  : res dict :=
  match invoke_message mf (edge_batch g e el eids) with
  | Err err => Err err
  | Ok msgs =>
      match dict_get msgs (reduce_msg rf) with
      | Err err => Err err
      | Ok t =>
          match shape t with
          | m :: sh =>
              if m =? length eids then
                Ok [(reduce_out rf,
                     Tensor (length vs :: sh)
                       (flat_map (fun v =>
                          reduce_rows rf (numel sh)
                            (map (row t)
                               (filter (fun j => snd (nth (nth j eids 0) el (0, 0)) = v)
                                  (seq 0 (length eids)))))
                          vs))]
              else Err DGLError
          | [] => Err DGLError
          end
      end
  end.

(** [g.update_all(mf, rf, etype=etype)]: every edge of the type sends,
    every node reduces. *)
Definition update_all (mf : message_func) (rf : reduce_func)
    (etype : option string) : M unit :=
  bind (get_etype etype) (fun '(e, el) =>
  fun g =>
    match message_passing g e el (seq 0 (length el)) (seq 0 (num_nodes g)) mf rf with
    | Ok d => set_n_repr None d g
    | Err err => Err err
    end).

(** [g.pull(nodes, mf, rf, etype=etype)]: the nodes [nodes] pull the
    messages of their incoming edges; nothing happens for no node. *)
Definition pull (nodes : list nat) (mf : message_func) (rf : reduce_func)
    (etype : option string) : M unit :=
  match nodes with
  | [] => ret tt
  | _ :: _ =>
      bind (get_etype etype) (fun '(e, el) =>
      fun g =>
        if valid_ids (num_nodes g) nodes then
          match message_passing g e el (in_edge_ids el nodes) nodes mf rf with
          | Ok d => set_n_repr (Some nodes) d g
          | Err err => Err err
          end
        else Err DGLError)
  end.

(** [g.apply_edges(f, es, etype=etype)]: the features [f] returns are
    stored on the edges [es] (all the edges for [None]). *)
Definition apply_edges (f : EdgeBatch -> res dict) (es : option (list (nat * nat)))
    (etype : option string) : M unit :=
  bind (get_etype etype) (fun '(e, el) =>
  fun g =>
    match es with
    | None =>
        match f (edge_batch g e el (seq 0 (length el))) with
        | Ok d => set_e_repr e (length el) None d g
        | Err err => Err err
        end
    | Some uvs =>
        match rmapM (edge_id el) uvs with
        | Ok eids =>
            match f (edge_batch g e el eids) with
            | Ok d => set_e_repr e (length el) (Some eids) d g
            | Err err => Err err
            end
        | Err err => Err err
        end
    end).

(** [g.send_and_recv(es, mf, rf, etype=etype)]: the edges [es] send, their
    destination nodes reduce; nothing happens for no edge. *)
Definition send_and_recv (es : list (nat * nat)) (mf : message_func)
    (rf : reduce_func) (etype : option string) : M unit :=
  bind (get_etype etype) (fun '(e, el) =>
  fun g =>
    match rmapM (edge_id el) es with
    | Ok [] => Ok (tt, g)
    | Ok eids =>
        let vs := remove_dups (map (fun i => snd (nth i el (0, 0))) eids) in
        match message_passing g e el eids vs mf rf with
        | Ok d => set_n_repr (Some vs) d g
        | Err err => Err err
        end
    | Err err => Err err
    end).

(** [g.apply_nodes(f, nodes)] *)
Definition apply_nodes (f : NodeBatch -> res dict) (nodes : list nat) : M unit :=
  fun g =>
    if valid_ids (num_nodes g) nodes then
      match f (node_batch g nodes) with
      | Ok d => set_n_repr (Some nodes) d g
      | Err err => Err err
      end
    else Err DGLError.

End DGL.
End dgl.

Import dgl.

Declare Scope dgl_scope.
Delimit Scope dgl_scope with dgl.
Notation "'do' x <- m ; k" := (bind m (fun x => k))
  (at level 10, x pattern, m at level 100, k at level 200,
   format "'[v' 'do'  x  <-  m ; '/' k ']'") : dgl_scope.
Notation "'run' m ; k" := (bind m (fun _ => k))
  (at level 10, m at level 100, k at level 200,
   format "'[v' 'run'  m ; '/' k ']'") : dgl_scope.

Local Open Scope string_scope.
Local Open Scope list_scope.
Local Open Scope nat_scope.
Local Open Scope dgl_scope.
Local Open Scope res_scope.

(** The schedule [ts]: the levels [ts['topo']] and the named node sets. *)
Record schedule : Type := Schedule {
  topo : list (list nat);
  pi_nodes : list nat;
  input_nodes : list nat;
  output_nodes : list nat;
  output_nodes_nonpi : list nat
}.

(** ** class NetConv *)

Module NetConv.
Section NetConv.
Context {D : Dtype}.

Record t : Type := Build {
  in_nf : nat;
  in_ef : nat;
  out_nf : nat;
  h1 : nat;
  h2 : nat;
  MLP_msg_i2o : MLP.t;
  MLP_reduce_o : MLP.t;
  MLP_msg_o2i : MLP.t
}.

(** [__init__(self, in_nf, in_ef, out_nf, h1=32, h2=32)] *)
Definition init (in_nf in_ef out_nf h1 h2 : nat) (p1 p2 p3 : MLP.params) : t :=
  {| in_nf := in_nf; in_ef := in_ef; out_nf := out_nf; h1 := h1; h2 := h2;
     MLP_msg_i2o := MLP.init [in_nf * 2 + in_ef; 64; 64; 64; 1 + h1 + h2] p1;
     MLP_reduce_o := MLP.init [in_nf + h1 + h2; 64; 64; 64; out_nf] p2;
     MLP_msg_o2i := MLP.init [in_nf * 2 + in_ef; 64; 64; 64; 64; out_nf] p3 |}.

Definition edge_msg_i (self : t) (edges : EdgeBatch) : res dict :=
  let? a := field (src edges) "nf" in
  let? b := field (dst edges) "nf" in
  let? c := field (edge_data edges) "ef" in
  let? x := cat1 [a; b; c] in
  let? x := MLP.forward (MLP_msg_o2i self) x in
  Ok [("efi", x)].

Definition edge_msg_o (self : t) (edges : EdgeBatch) : res dict :=
  let? a := field (src edges) "nf" in
  let? b := field (dst edges) "nf" in
  let? c := field (edge_data edges) "ef" in
  let? x := cat1 [a; b; c] in
  let? x := MLP.forward (MLP_msg_i2o self) x in
  let? ks := split1 x [1; h1 self; h2 self] in
  match ks with
  | [k; f1; f2] =>
      let k := sigmoid k in
      let? e1 := mul f1 k in
      let? e2 := mul f2 k in
      Ok [("efo1", e1); ("efo2", e2)]
  | _ => Err RuntimeError
  end.

Definition node_reduce_o (self : t) (nodes : NodeBatch) : res dict :=
  let? a := field (node_data nodes) "nf" in
  let? b := field (node_data nodes) "nfo1" in
  let? c := field (node_data nodes) "nfo2" in
  let? x := cat1 [a; b; c] in
  let? x := MLP.forward (MLP_reduce_o self) x in
  Ok [("new_nf", x)].

(** Lines 68-78: the sink features, then the messages towards the drive
    pins and their two aggregates. *)
Definition aggregate (self : t) (nf : tensor) : M unit :=
  run set_ndata "nf" nf;
  run update_all (udf (edge_msg_i self)) (fn_sum "efi" "new_nf") (Some "net_out");
  run apply_edges (edge_msg_o self) None (Some "net_in");
  run update_all (copy_e "efo1" "efo1") (fn_sum "efo1" "nfo1") (Some "net_in");
  update_all (copy_e "efo2" "efo2") (fn_max "efo2" "nfo2") (Some "net_in").

Definition forward_body (self : t) (ts : schedule) (nf : tensor) : M tensor :=
  run aggregate self nf;
  run apply_nodes (node_reduce_o self) (output_nodes ts);
  get_ndata "new_nf".

Definition forward (self : t) (ts : schedule) (nf : tensor) : M tensor :=
  local_scope (forward_body self ts nf).

End NetConv.
End NetConv.

(** ** class SignalProp *)

Module SignalProp.
Section SignalProp.
Context {D : Dtype}.

Record t : Type := Build {
  in_nf : nat;
  in_cell_num_luts : nat;
  in_cell_lut_sz : nat;
  out_nf : nat;
  out_cef : nat;
  h1 : nat;
  h2 : nat;
  lut_dup : nat;
  MLP_netprop : MLP.t;
  MLP_lut_query : MLP.t;
  MLP_lut_attention : MLP.t;
  MLP_cellarc_msg : MLP.t;
  MLP_cellreduce : MLP.t
}.

(** [__init__(self, in_nf, in_cell_num_luts, in_cell_lut_sz, out_nf,
    out_cef, h1=32, h2=32, lut_dup=4)] *)
Definition init (in_nf in_cell_num_luts in_cell_lut_sz out_nf out_cef h1 h2
    lut_dup : nat) (p1 p2 p3 p4 p5 : MLP.params) : t :=
  {| in_nf := in_nf; in_cell_num_luts := in_cell_num_luts;
     in_cell_lut_sz := in_cell_lut_sz; out_nf := out_nf; out_cef := out_cef;
     h1 := h1; h2 := h2; lut_dup := lut_dup;
     MLP_netprop := MLP.init [out_nf + 2 * in_nf; 64; 64; 64; 64; out_nf] p1;
     MLP_lut_query :=
       MLP.init [out_nf + 2 * in_nf; 64; 64; 64; in_cell_num_luts * lut_dup * 2] p2;
     MLP_lut_attention :=
       MLP.init [1 + 2 + in_cell_lut_sz * 2; 64; 64; 64; in_cell_lut_sz * 2] p3;
     MLP_cellarc_msg :=
       MLP.init [out_nf + 2 * in_nf + in_cell_num_luts * lut_dup; 64; 64; 64;
                 1 + h1 + h2 + out_cef] p4;
     MLP_cellreduce := MLP.init [in_nf + h1 + h2; 64; 64; 64; out_nf] p5 |}.

(** The prediction a message reads at the source pin. *)
Definition last_nf_key (groundtruth : bool) : string :=
  if groundtruth then "n_atslew" else "new_nf".

Definition edge_msg_net (self : t) (edges : EdgeBatch) (groundtruth : bool)
  : res dict :=
  let? last_nf := field (src edges) (last_nf_key groundtruth) in
  let? a := field (src edges) "nf" in
  let? b := field (dst edges) "nf" in
  let? x := cat1 [last_nf; a; b] in
  let? x := MLP.forward (MLP_netprop self) x in
  Ok [("efn", x)].

(** Lines 133-138 of [edge_msg_cell]: the attention the LUT mask MLP
    answers to the queries [q] on the axis block of the edge features. *)
Definition lut_attention (self : t) (ef q : tensor) : res tensor :=
  let sz := Z.of_nat (in_cell_lut_sz self) in
  let axis_len := in_cell_num_luts self * (1 + 2 * in_cell_lut_sz self) in
  let? axis := slice_cols ef 0 axis_len in
  let? axis := reshape axis [-1; 1 + 2 * sz]%Z in
  let? axis := repeat1 axis (lut_dup self) in
  let? axis := reshape axis [-1; 1 + 2 * sz]%Z in
  let? x := cat1 [q; axis] in
  MLP.forward (MLP_lut_attention self) x.

(** Lines 141-151 of [edge_msg_cell]: the attention [a] turned into one
    mask matrix per query and looked up in the tables of the edge
    features. *)
Definition lut_lookup (self : t) (n_edges : nat) (ef a : tensor) : res tensor :=
  let sz := Z.of_nat (in_cell_lut_sz self) in
  let? a := reshape a [-1; 2; sz]%Z in
  let? axy := split1 a [1; 1] in
  match axy with
  | [ax; ay] =>
      let? ax := reshape ax [-1; sz; 1]%Z in
      let? ay := reshape ay [-1; 1; sz]%Z in
      let? a := matmul ax ay in
      let axis_len := in_cell_num_luts self * (1 + 2 * in_cell_lut_sz self) in
      let tables_len := in_cell_num_luts self * in_cell_lut_sz self ^ 2 in
      let? tables := slice_cols ef axis_len (axis_len + tables_len) in
      let? tables := reshape tables [-1; 1; 1; sz ^ 2]%Z in
      let? a := reshape a [-1; 4; sz ^ 2; 1]%Z in
      let? r := matmul tables a in
      reshape r [Z.of_nat n_edges;
                 Z.of_nat (in_cell_num_luts self * lut_dup self)]
  | _ => Err RuntimeError
  end.

Definition edge_msg_cell (self : t) (edges : EdgeBatch) (groundtruth : bool)
  : res dict :=
  let? last_nf := field (src edges) (last_nf_key groundtruth) in
  let? sf := field (src edges) "nf" in
  let? df := field (dst edges) "nf" in
  let? q := cat1 [last_nf; sf; df] in
  let? q := MLP.forward (MLP_lut_query self) q in
  let? q := reshape q [-1; 2]%Z in
  let? ef := field (edge_data edges) "ef" in
  let? a := lut_attention self ef q in
  let? r := lut_lookup self (len edges) ef a in
  let? sf := field (src edges) "nf" in
  let? df := field (dst edges) "nf" in
  let? x := cat1 [last_nf; sf; df; r] in
  let? x := MLP.forward (MLP_cellarc_msg self) x in
  let? ks := split1 x [1; h1 self; h2 self; out_cef self] in
  match ks with
  | [k; f1; f2; cef] =>
      let k := sigmoid k in
      let? e1 := mul f1 k in
      let? e2 := mul f2 k in
      Ok [("efc1", e1); ("efc2", e2); ("efce", cef)]
  | _ => Err RuntimeError
  end.

Definition node_reduce_o (self : t) (nodes : NodeBatch) : res dict :=
  let? a := field (node_data nodes) "nf" in
  let? b := field (node_data nodes) "nfc1" in
  let? c := field (node_data nodes) "nfc2" in
  let? x := cat1 [a; b; c] in
  let? x := MLP.forward (MLP_cellreduce self) x in
  Ok [("new_nf", x)].

Definition node_skip_level_o (self : t) (nodes : NodeBatch) : res dict :=
  let? x := field (node_data nodes) "n_atslew" in
  Ok [("new_nf", x)].

(** The closures of [forward]. *)
Definition prop_net (self : t) (nodes : list nat) (groundtruth : bool) : M unit :=
  pull nodes (udf (fun edges => edge_msg_net self edges groundtruth))
    (fn_sum "efn" "new_nf") (Some "net_out").

Definition prop_cell (self : t) (nodes : list nat) (groundtruth : bool) : M unit :=
  do es <- in_edges nodes (Some "cell_out");
  run apply_edges (fun edges => edge_msg_cell self edges groundtruth)
        (Some es) (Some "cell_out");
  run send_and_recv es (copy_e "efc1" "efc1") (fn_sum "efc1" "nfc1") (Some "cell_out");
  run send_and_recv es (copy_e "efc2" "efc2") (fn_max "efc2" "nfc2") (Some "cell_out");
  apply_nodes (node_reduce_o self) nodes.

(** Lines 179-183: the node features and the initial predictions. *)
Definition init_level0 (self : t) (ts : schedule) (nf : tensor) : M unit :=
  run set_ndata "nf" nf;
  do n <- gets num_nodes;
  run set_ndata "new_nf" (zeros [n; out_nf self]);
  apply_nodes (node_skip_level_o self) (pi_nodes ts).

(** One iteration of the loop of line 206. *)
Definition level (self : t) (ts : schedule) (groundtruth : bool) (i : nat)
  : M unit :=
  if i mod 2 =? 1
  then prop_net self (default [] (topo ts !! i)) groundtruth
  else prop_cell self (default [] (topo ts !! i)) groundtruth.

(** Lines 199-212. *)
Definition propagate (self : t) (ts : schedule) (groundtruth : bool) : M unit :=
  if groundtruth then
    run prop_net self (input_nodes ts) groundtruth;
    prop_cell self (output_nodes_nonpi ts) groundtruth
  else
    for_each (seq 1 (length (topo ts) - 1)) (level self ts groundtruth).

(** Line 215: the two results. *)
Definition outputs : M (tensor * tensor) :=
  do new_nf <- get_ndata "new_nf";
  do efce <- get_edata "cell_out" "efce";
  ret (new_nf, efce).

Definition forward_body (self : t) (ts : schedule) (nf : tensor)
    (groundtruth : bool) : M (tensor * tensor) :=
  run init_level0 self ts nf;
  run propagate self ts groundtruth;
  outputs.

Definition forward (self : t) (ts : schedule) (nf : tensor) (groundtruth : bool)
  : M (tensor * tensor) :=
  if length (topo ts) mod 2 =? 0
  then local_scope (forward_body self ts nf groundtruth)
  else raise (AssertionError
                "The number of logic levels must be even (net, cell, net)").

(** *** The schedule as the specification words it

    A stage kind per level, net for the odd indices and cell for the even
    ones, and the levels run one after the other from a given index. *)
Inductive stage : Type := Net | Cell.

Definition stage_of (i : nat) : stage := if Nat.odd i then Net else Cell.

Definition run_stage (self : t) (groundtruth : bool) (k : stage)
    (nodes : list nat) : M unit :=
  match k with
  | Net => prop_net self nodes groundtruth
  | Cell => prop_cell self nodes groundtruth
  end.

Fixpoint levels_in_order (self : t) (groundtruth : bool) (i : nat)
    (lvls : list (list nat)) : M unit :=
  match lvls with
  | [] => ret tt
  | l :: lvls' =>
      run run_stage self groundtruth (stage_of i) l;
      levels_in_order self groundtruth (S i) lvls'
  end.

(** The nodes a stage of [propagate] is run on. *)
Definition frontier (ts : schedule) (groundtruth : bool) : list nat :=
  if groundtruth then input_nodes ts ++ output_nodes_nonpi ts
  else concat (tail (topo ts)).

End SignalProp.
End SignalProp.

(** ** class TimingGCN *)

Module TimingGCN.
Section TimingGCN.
Context {D : Dtype}.

Record t : Type := Build {
  nc1 : NetConv.t;
  nc2 : NetConv.t;
  nc3 : NetConv.t;
  prop : SignalProp.t
}.

(** [__init__(self)]; [p] gives the parameters of the eleven MLPs. *)
Definition init (p : nat -> MLP.params) : t :=
  {| nc1 := NetConv.init 10 2 32 32 32 (p 0) (p 1) (p 2);
     nc2 := NetConv.init 32 2 32 32 32 (p 3) (p 4) (p 5);
     nc3 := NetConv.init 32 2 16 32 32 (p 6) (p 7) (p 8);
     prop := SignalProp.init (10 + 16) 8 7 8 4 32 32 4
               (p 9) (p 10) (p 11) (p 12) (p 13) |}.

Definition forward (self : t) (ts : schedule) (groundtruth : bool)
  : M (tensor * tensor * tensor) :=
  do nf0 <- get_ndata "nf";
  do x <- NetConv.forward (nc1 self) ts nf0;
  do x <- NetConv.forward (nc2 self) ts x;
  do x <- NetConv.forward (nc3 self) ts x;
  do net_delays <- lift (slice_cols x 0 4);
  do nf1 <- lift (cat1 [nf0; x]);
  do out <- SignalProp.forward (prop self) ts nf1 groundtruth;
  ret (net_delays, snd out, fst out).

End TimingGCN.
End TimingGCN.

(** ** class AllConv *)

Module AllConv.
Section AllConv.
Context {D : Dtype}.

Record t : Type := Build {
  h1 : nat;
  h2 : nat;
  MLP_msg : MLP.t;
  MLP_reduce : MLP.t
}.

(** [__init__(self, in_nf, out_nf, in_ef=12, h1=10, h2=10)] *)
Definition init (in_nf out_nf in_ef h1 h2 : nat) (p : MLP.params * MLP.params) : t :=
  {| h1 := h1; h2 := h2;
     MLP_msg := MLP.init [in_nf * 2 + in_ef; 32; 32; 32; 1 + h1 + h2] (fst p);
     MLP_reduce := MLP.init [in_nf + h1 + h2; 32; 32; 32; out_nf] (snd p) |}.

Definition edge_udf (self : t) (edges : EdgeBatch) : res dict :=
  let? a := field (src edges) "nf" in
  let? b := field (dst edges) "nf" in
  let? c := field (edge_data edges) "ef" in
  let? x := cat1 [a; b; c] in
  let? x := MLP.forward (MLP_msg self) x in
  let? ks := split1 x [1; h1 self; h2 self] in
  match ks with
  | [k; f1; f2] =>
      let k := sigmoid k in
      let? e1 := mul f1 k in
      let? e2 := mul f2 k in
      Ok [("ef1", e1); ("ef2", e2)]
  | _ => Err RuntimeError
  end.

Definition forward (self : t) (nf : tensor) : M tensor :=
  local_scope (
    run set_ndata "nf" nf;
    run apply_edges (edge_udf self) None None;
    run update_all (copy_e "ef1" "ef1") (fn_sum "ef1" "nf1") None;
    run update_all (copy_e "ef2" "ef2") (fn_max "ef2" "nf2") None;
    do a <- get_ndata "nf";
    do b <- get_ndata "nf1";
    do c <- get_ndata "nf2";
    do x <- lift (cat1 [a; b; c]);
    lift (MLP.forward (MLP_reduce self) x)).

End AllConv.
End AllConv.

(** ** class DeepGCNII *)

Module DeepGCNII.
Section DeepGCNII.
Context {D : Dtype}.

Record t : Type := Build {
  n_layers : Z;
  out_nf : nat;
  layer0 : AllConv.t;
  layers : list AllConv.t;
  layern : AllConv.t
}.

(** [range(n)]: empty for a non-positive [n]. *)
Definition range (n : Z) : list nat := seq 0 (Z.to_nat n).

(** [__init__(self, n_layers=60, out_nf=8)]; [p0], [p i] and [pn] give the
    parameters of [layer0], of the [i]-th member of [layers] and of
    [layern]. *)
Definition init (n_layers : Z) (out_nf : nat) (p0 : MLP.params * MLP.params)
    (p : nat -> MLP.params * MLP.params) (pn : MLP.params * MLP.params) : t :=
  {| n_layers := n_layers; out_nf := out_nf;
     layer0 := AllConv.init 10 16 12 10 10 p0;
     layers := map (fun i => AllConv.init 26 16 12 10 10 (p i))
                 (range (n_layers - 2));
     layern := AllConv.init 16 out_nf 12 10 10 pn |}.

(** The body of the loop of line 281, on the running feature [x]. *)
Definition residual (layer : AllConv.t) (x : tensor) : M tensor :=
  do nf <- get_ndata "nf";
  do c <- lift (cat1 [x; nf]);
  do y <- AllConv.forward layer c;
  lift (add y x).

Fixpoint loop (ls : list AllConv.t) (x : tensor) : M tensor :=
  match ls with
  | [] => ret x
  | layer :: ls' => do x' <- residual layer x; loop ls' x'
  end.

Definition forward (self : t) : M tensor :=
  do nf <- get_ndata "nf";
  do x <- AllConv.forward (layer0 self) nf;
  do x <- loop (layers self) x;
  AllConv.forward (layern self) x.

End DeepGCNII.
End DeepGCNII.

(** ** An exact instance of the scalars

    Integers, to run the model on concrete graphs.  The arithmetic is
    exact; the two activation functions are integer stand-ins (a step for
    the sigmoid, a slope of one fifth rounded down for the leaky unit). *)

Definition Zdtype : Dtype := {|
  elt := Z;
  r0 := 0%Z;
  r1 := 1%Z;
  radd := Z.add;
  rmul := Z.mul;
  rmax := Z.max;
  rsigmoid := fun x => if (0 <=? x)%Z then 1%Z else 0%Z;
  rleaky := fun x => if (0 <=? x)%Z then x else (x / 5)%Z
|}.

(** ** Floating point scalars

    IEEE 754 binary64, as the kernel computes it.  (torch computes in
    binary32 by default; nothing below depends on the precision.)  The
    sigmoid is the step stand-in of the integers; the lookup in the tables
    uses the sum and the product only. *)

Fixpoint fnat (n : nat) : PrimFloat.float :=
  match n with
  | 0 => PrimFloat.zero
  | S n' => PrimFloat.add (fnat n') PrimFloat.one
  end.

Definition Fdtype : Dtype := {|
  elt := PrimFloat.float;
  r0 := PrimFloat.zero;
  r1 := PrimFloat.one;
  radd := PrimFloat.add;
  rmul := PrimFloat.mul;
  rmax := fun x y => if PrimFloat.ltb x y then y else x;
  rsigmoid := fun x => if PrimFloat.leb PrimFloat.zero x
                       then PrimFloat.one else PrimFloat.zero;
  rleaky := fun x => if PrimFloat.leb PrimFloat.zero x then x
                     else PrimFloat.mul (PrimFloat.div (fnat 1) (fnat 5)) x
|}.

(** The laws hold of the floats.  Here they are for the scalars a table
    with the entries 5, 6, 7 and 8 brings in, where they are checked by
    computing: the four entries are the finite scalars, the zero is the
    positive one (the entries are positive, so that their products with
    zero are), and the comparison is the equality. *)
Definition Fdtype_laws : DtypeLaws Fdtype.
Proof.
  refine (@Build_DtypeLaws Fdtype
            (fun x : PrimFloat.float =>
               x = fnat 5 \/ x = fnat 6 \/ x = fnat 7 \/ x = fnat 8)
            (fun z : PrimFloat.float => z = PrimFloat.zero)
            (@eq PrimFloat.float)
            _ _ _ _ _ _ _ _ _ _ _ _);
    simpl; intros;
    repeat match goal with
           | H : _ \/ _ |- _ => destruct H
           end;
    subst; vm_compute; reflexivity.
Defined.

(** ** A small circuit

    Five pins: [0] is a primary input driving the cell input [1]; the cell
    arc [1 -> 2] drives the primary output [3]; [4] is a drive pin with no
    sink.  The cell arc carries one 2x2 lookup table. *)

Module Example.

Definition T (sh : list nat) (l : list Z) : @tensor Zdtype := @Tensor Zdtype sh l.

Definition nf0 : @tensor Zdtype := T [5; 1] [1; 2; 3; 4; 5]%Z.

Definition g0 : @graph Zdtype :=
  @Graph Zdtype 5
    (<["net_out" := [(0, 1); (2, 3)]]>
       (<["net_in" := [(1, 0); (3, 2)]]> (<["cell_out" := [(1, 2)]]> ∅)))
    (<["nf" := nf0]> (<["n_atslew" := T [5; 1] [10; 20; 30; 40; 50]%Z]> ∅))
    (<["net_out" := <["ef" := T [2; 1] [1; 1]%Z]> ∅]>
       (<["net_in" := <["ef" := T [2; 1] [1; 1]%Z]> ∅]>
          (<["cell_out" := <["ef" := T [1; 9] [2; 0; 1; 0; 1; 5; 6; 7; 8]%Z]> ∅]> ∅))).

Definition ts0 : schedule :=
  Schedule [[0]; [1]; [2]; [3]] [0] [1; 3] [0; 2; 4] [2].

(** A schedule that lists the primary input [0] again in level 1. *)
Definition ts_pi_again : schedule :=
  Schedule [[0]; [0; 1]; [2]; [3]] [0] [1; 3] [0; 2; 4] [2].

(** A schedule with three levels. *)
Definition ts_odd : schedule :=
  Schedule [[0]; [1]; [2]] [0] [1; 3] [0; 2; 4] [2].

(** Parameters: identity-like weights, and the bias [b] on the last linear
    layer, the [last]-th. *)
Definition pconst (last : nat) (b : nat -> Z) : @MLP.params Zdtype :=
  @MLP.Params Zdtype
    (fun _ o k => if o =? k then 1%Z else 0%Z)
    (fun i o => if i =? last then b o else 0%Z).

Definition sp (lut_dup : nat) : @SignalProp.t Zdtype :=
  @SignalProp.init Zdtype 1 1 2 1 1 1 1 lut_dup
    (pconst 5 (fun _ => 1%Z))
    (pconst 4 (fun o => Z.of_nat o))
    (pconst 4 (fun o => if (o =? 0) || (o =? 3) then 1%Z else 0%Z))
    (pconst 4 (fun o => Z.of_nat o))
    (pconst 4 (fun _ => 2%Z)).

Definition nc0 : @NetConv.t Zdtype :=
  @NetConv.init Zdtype 1 1 1 1 1
    (pconst 4 (fun o => Z.of_nat o)) (pconst 4 (fun _ => 3%Z))
    (pconst 5 (fun _ => 1%Z)).

(** The attention of four queries on the table of the cell arc, each
    one-hot on both axes. *)
Definition att0 : @tensor Zdtype :=
  T [4; 4] [1; 0; 0; 1;  0; 1; 1; 0;  1; 0; 1; 0;  0; 1; 0; 1]%Z.

Definition ef0 : @tensor Zdtype := T [1; 9] [2; 0; 1; 0; 1; 5; 6; 7; 8]%Z.

(** The attention of the two queries a model with [lut_dup = 2] makes. *)
Definition att2 : @tensor Zdtype := T [2; 4] [1; 0; 0; 1;  0; 1; 1; 0]%Z.

(** The circuit with a stale [new_nf] left on its nodes. *)
Definition g0_stale : @graph Zdtype :=
  @Graph Zdtype (num_nodes g0) (edges g0)
    (<["new_nf" := T [5; 1] [9; 9; 9; 9; 9]%Z]> (ndata g0)) (edata g0).

(** Parameters for the two MLPs of an [AllConv]. *)
Definition pconv : @MLP.params Zdtype * @MLP.params Zdtype :=
  (pconst 4 (fun o => Z.of_nat o), pconst 4 (fun _ => 1%Z)).

(** The circuit without ground truth on its pins. *)
Definition g0_bare : @graph Zdtype :=
  @Graph Zdtype (num_nodes g0) (edges g0) (<["nf" := nf0]> ∅) (edata g0).

(** A schedule with two levels, and one whose output nodes leave out the
    primary input [0]. *)
Definition ts_two : schedule :=
  Schedule [[0]; [1]] [0] [1; 3] [0; 2; 4] [2].

Definition ts_cells : schedule :=
  Schedule [[0]; [1]; [2]; [3]] [0] [1; 3] [2; 4] [2].

(** Two cell arcs with a 2x2 table each, and the attention of their eight
    queries. *)
Definition ef2 : @tensor Zdtype :=
  T [2; 9] [2; 0; 1; 0; 1; 5; 6; 7; 8;  2; 0; 1; 0; 1; 1; 2; 3; 4]%Z.

Definition att8 : @tensor Zdtype :=
  T [8; 4] [1; 0; 0; 1;  0; 1; 1; 0;  1; 0; 1; 0;  0; 1; 0; 1;
            1; 0; 0; 1;  0; 1; 1; 0;  1; 0; 1; 0;  0; 1; 0; 1]%Z.

(** A tensor of the given shape filled with 0, 1, 2, 0, 1, 2, ... *)
Definition ramp (sh : list nat) : @tensor Zdtype :=
  T sh (map (fun i => Z.of_nat (i mod 3)) (seq 0 (numel sh))).

(** The circuit with the features [TimingGCN] is built for: 10 node
    features, 2 net edge features, 8 tables of 7x7 entries with their axes
    per cell arc, and a ground truth of width 8. *)
Definition g_timing : @graph Zdtype :=
  @Graph Zdtype 5 (edges g0)
    (<["nf" := ramp [5; 10]]> (<["n_atslew" := ramp [5; 8]]> ∅))
    (<["net_out" := <["ef" := ramp [2; 2]]> ∅]>
       (<["net_in" := <["ef" := ramp [2; 2]]> ∅]>
          (<["cell_out" := <["ef" := ramp [1; 512]]> ∅]> ∅))).

Definition tg : @TimingGCN.t Zdtype :=
  @TimingGCN.init Zdtype (fun _ => pconst 4 (fun o => Z.of_nat (o mod 2))).

(** Three pins in a chain, with one edge type: the graph [DeepGCNII] and
    [AllConv] work on. *)
Definition g_chain : @graph Zdtype :=
  @Graph Zdtype 3 (<["e" := [(0, 1); (1, 2)]]> ∅)
    (<["nf" := ramp [3; 10]]> ∅)
    (<["e" := <["ef" := ramp [2; 12]]> ∅]> ∅).

Definition deep (n_layers : Z) : @DeepGCNII.t Zdtype :=
  @DeepGCNII.init Zdtype n_layers 8 pconv (fun _ => pconv) pconv.

(** A small MLP and a batch of three rows. *)
Definition mlp0 : @MLP.t Zdtype :=
  @MLP.init Zdtype [2; 3; 1] (pconst 2 (fun _ => 1%Z)).

Definition x0 : @tensor Zdtype := T [3; 2] [1; -2; 3; 4; -5; 6]%Z.

(** The cell arc of the circuit in floating point, with an infinite entry
    in its table, [[5, inf; 7, 8]], and the one-hot attention [att0]. *)
Definition ef_inf : @tensor Fdtype :=
  @Tensor Fdtype [1; 9]
    [fnat 2; fnat 0; fnat 1; fnat 0; fnat 1;
     fnat 5; PrimFloat.infinity; fnat 7; fnat 8].

(** The same cell arc with the finite table [[5, 6; 7, 8]]. *)
Definition ef_fin : @tensor Fdtype :=
  @Tensor Fdtype [1; 9]
    [fnat 2; fnat 0; fnat 1; fnat 0; fnat 1;
     fnat 5; fnat 6; fnat 7; fnat 8].

Definition attF : @tensor Fdtype :=
  @Tensor Fdtype [4; 4]
    (map fnat [1; 0; 0; 1;  0; 1; 1; 0;  1; 0; 1; 0;  0; 1; 0; 1]).

Definition spF : @SignalProp.t Fdtype :=
  let p := @MLP.Params Fdtype (fun _ _ _ => PrimFloat.zero)
             (fun _ _ => PrimFloat.zero) in
  @SignalProp.init Fdtype 1 1 2 1 1 1 1 4 p p p p p.

(** The circuit after level 1, and the same with other predictions for the
    pins of the later levels. *)
Definition g0_level1 : @graph Zdtype :=
  @Graph Zdtype (num_nodes g0) (edges g0)
    (<["new_nf" := T [5; 1] [10; 11; 0; 0; 0]%Z]> (ndata g0)) (edata g0).

Definition g0_level1' : @graph Zdtype :=
  @Graph Zdtype (num_nodes g0) (edges g0)
    (<["new_nf" := T [5; 1] [10; 11; 7; 8; 9]%Z]> (ndata g0)) (edata g0).

End Example.

(** ** Vocabulary of the properties *)

Section Vocabulary.
Context {D : Dtype}.

(** Row [v] of every feature of the frame [fr] is the same in [fr']. *)
Definition keeps_row (v : nat) (fr fr' : gmap string tensor) : Prop :=
  forall k c, fr !! k = Some c ->
    exists c', fr' !! k = Some c' /\ shape c' = shape c /\ row c' v = row c v.

(** The node [v] has the same features in [g'] as in [g]. *)
Definition keeps_node (v : nat) (g g' : graph) : Prop :=
  num_nodes g' = num_nodes g /\ edges g' = edges g
  /\ keeps_row v (ndata g) (ndata g').

(** A computation returned, and a frame has the feature [k]. *)
Definition is_ok {A} (r : res A) : bool :=
  match r with Ok _ => true | Err _ => false end.

Definition has_field (fr : gmap string tensor) (k : string) : bool :=
  match fr !! k with Some _ => true | None => false end.

(** The vector of length [n] that is one at [i] and zero elsewhere. *)
Definition onehot (n i : nat) : list elt :=
  tabulate n (fun k => if k =? i then r1 else r0).

(** The schedule of the data model, as far as the primary inputs go: the
    levels are a partition of the pins (no pin is in two levels, or twice
    in one), level 0 holds the primary inputs, and a primary input is
    neither an input pin nor one of the output pins that leave the primary
    inputs out. *)
Definition pi_scheduled (ts : schedule) : Prop :=
  NoDup (concat (topo ts))
  /\ (forall v, v ∈ pi_nodes ts -> v ∈ default [] (head (topo ts)))
  /\ (forall v, v ∈ pi_nodes ts ->
        (v ∉ input_nodes ts) /\ (v ∉ output_nodes_nonpi ts)).

(** A computation that, when it returns, leaves the graph as it found it. *)
Definition restores {A} (m : M A) : Prop :=
  forall g a g', m g = Ok (a, g') -> g' = g.

(** Every feature of the frame [fr] is in [fr'] with the same shape. *)
Definition keeps_shapes (fr fr' : gmap string tensor) : Prop :=
  forall k c, fr !! k = Some c ->
    exists c', fr' !! k = Some c' /\ shape c' = shape c.

(** The graph [g'] has the nodes and edges of [g], and every node feature
    of [g] with its shape. *)
Definition keeps_layout (g g' : graph) : Prop :=
  num_nodes g' = num_nodes g /\ edges g' = edges g
  /\ keeps_shapes (ndata g) (ndata g').

(** The cell arcs carry [efce] with one row per arc and [w] columns. *)
Definition has_efce (w : nat) (g : graph) : Prop :=
  exists el c, edges g !! "cell_out" = Some el
    /\ eframe g "cell_out" !! "efce" = Some c
    /\ shape c = [length el; w].

(** Whether a layer of an MLP is a linear one. *)
Definition is_linear (l : MLP.layer) : bool :=
  match l with MLP.Linear _ _ _ _ => true | MLP.LeakyReLU => false end.

(** The data of a tensor has as many entries as its shape says. *)
Definition well_formed (t : tensor) : Prop :=
  length (data t) = numel (shape t).

(** Two tensors of the same shape that have the same rows [S]. *)
Definition same_rows (S : nat -> Prop) (c1 c2 : tensor) : Prop :=
  shape c1 = shape c2 /\ forall v, S v -> row c1 v = row c2 v.

(** Two node frames that differ at most in the predictions [new_nf], which
    both have, with the same rows [S]. *)
Definition same_but_new_nf (S : nat -> Prop) (fr1 fr2 : gmap string tensor)
  : Prop :=
  delete "new_nf" fr1 = delete "new_nf" fr2
  /\ exists c1 c2,
       fr1 !! "new_nf" = Some c1 /\ fr2 !! "new_nf" = Some c2
       /\ same_rows S c1 c2.

(** Two graphs that differ at most in the predictions of the nodes outside
    [S]. *)
Definition same_but_predictions (S : nat -> Prop) (g1 g2 : graph) : Prop :=
  num_nodes g1 = num_nodes g2 /\ edges g1 = edges g2 /\ edata g1 = edata g2
  /\ same_but_new_nf S (ndata g1) (ndata g2).

(** Two runs with the same outcome: the same error, or the same value and
    graphs related by [R]. *)
Definition same_outcome {A} (R : graph -> graph -> Prop)
    (r1 r2 : res (A * graph)) : Prop :=
  match r1, r2 with
  | Ok (a1, g1), Ok (a2, g2) => a1 = a2 /\ R g1 g2
  | Err e1, Err e2 => e1 = e2
  | _, _ => False
  end.

(** The edge type a stage sends its messages along. *)
Definition stage_etype (k : SignalProp.stage) : string :=
  match k with SignalProp.Net => "net_out" | SignalProp.Cell => "cell_out" end.

(** Every edge of type [etype] that enters a node of [l] leaves a node of
    [S]. *)
Definition fed_by (S : nat -> Prop) (g : graph) (etype : string)
    (l : list nat) : Prop :=
  forall el u v, edges g !! etype = Some el -> (u, v) ∈ el -> v ∈ l -> S u.

(** The message function of a stage in the autoregressive mode. *)
Definition stage_message (self : SignalProp.t) (k : SignalProp.stage)
    (b : EdgeBatch) : res dict :=
  match k with
  | SignalProp.Net => SignalProp.edge_msg_net self b false
  | SignalProp.Cell => SignalProp.edge_msg_cell self b false
  end.

End Vocabulary.

(** * Properties *)

(** ** The state and error monad *)

Section Monad.
Context {D : Dtype}.

Lemma bind_assoc {A B C} (m : M A) (k : A -> M B) (h : B -> M C) g :
  bind (bind m k) h g = bind m (fun a => bind (k a) h) g.
Proof. unfold bind. destruct (m g) as [[a g']|e]; reflexivity. Qed.

Lemma bind_ext {A B} (m : M A) (k k' : A -> M B) g :
  (forall a g', k a g' = k' a g') -> bind m k g = bind m k' g.
Proof. intros H. unfold bind. destruct (m g) as [[a g']|e]; auto. Qed.

Lemma bind_ext_l {A B} (m m' : M A) (k : A -> M B) g :
  m g = m' g -> bind m k g = bind m' k g.
Proof. unfold bind. intros ->. reflexivity. Qed.

Lemma bind_ret_l {A B} (a : A) (k : A -> M B) g : bind (ret a) k g = k a g.
Proof. reflexivity. Qed.

Lemma local_scope_ext {A} (m m' : M A) g :
  m g = m' g -> local_scope m g = local_scope m' g.
Proof. unfold local_scope. intros ->. reflexivity. Qed.

Lemma local_scope_restores {A} (m : M A) g a g' :
  local_scope m g = Ok (a, g') -> g' = g.
Proof.
  unfold local_scope. destruct (m g) as [[a0 g0]|e]; [|discriminate].
  intros [= _ <-]. reflexivity.
Qed.

Lemma for_each_app {A} (l1 l2 : list A) (body : A -> M unit) g :
  for_each (l1 ++ l2) body g
  = bind (for_each l1 body) (fun _ => for_each l2 body) g.
Proof.
  revert g. induction l1 as [|x l1 IH]; intros g; simpl.
  - reflexivity.
  - rewrite bind_assoc. apply bind_ext. intros _ g'. apply IH.
Qed.

End Monad.

(** ** SignalProp: the order of the levels *)

Section Levels.
Context {D : Dtype}.
Import SignalProp.

Lemma odd_mod2 i : (i mod 2 =? 1) = Nat.odd i.
Proof.
  rewrite <- Nat.bit0_mod, Nat.bit0_odd.
  destruct (Nat.odd i); reflexivity.
Qed.

Lemma level_stage self ts gt i l :
  topo ts !! i = Some l ->
  level self ts gt i = run_stage self gt (stage_of i) l.
Proof.
  intros H. unfold level, stage_of. rewrite H, odd_mod2. simpl.
  destruct (Nat.odd i); reflexivity.
Qed.

(** The loop over the indices runs the levels themselves, in order. *)
Lemma loop_levels self ts gt lvls : forall pre g,
  topo ts = pre ++ lvls ->
  for_each (seq (length pre) (length lvls)) (level self ts gt) g
  = levels_in_order self gt (length pre) lvls g.
Proof.
  induction lvls as [|l lvls IH]; intros pre g Hts; simpl.
  - reflexivity.
  - rewrite (level_stage self ts gt (length pre) l).
    + apply bind_ext. intros _ g'.
      specialize (IH (pre ++ [l]) g'). rewrite length_app in IH. simpl in IH.
      rewrite Nat.add_1_r in IH. apply IH. rewrite <- app_assoc. exact Hts.
    + rewrite Hts. rewrite lookup_app_r by lia.
      rewrite Nat.sub_diag. reflexivity.
Qed.

Lemma levels_in_order_app self gt pre : forall i post g,
  levels_in_order self gt i (pre ++ post) g
  = bind (levels_in_order self gt i pre)
      (fun _ => levels_in_order self gt (i + length pre) post) g.
Proof.
  induction pre as [|l pre IH]; intros i post g; simpl.
  - rewrite Nat.add_0_r. reflexivity.
  - rewrite bind_assoc. apply bind_ext. intros _ g'.
    rewrite IH. replace (S i + length pre) with (i + S (length pre)) by lia.
    reflexivity.
Qed.

Lemma propagate_levels self ts l0 lvls g :
  topo ts = l0 :: lvls ->
  propagate self ts false g = levels_in_order self false 1 lvls g.
Proof.
  intros H. unfold propagate. rewrite H. simpl. rewrite Nat.sub_0_r.
  apply (loop_levels self ts false lvls [l0] g). exact H.
Qed.

End Levels.

Section ForwardOrder.
Context {D : Dtype}.
Import SignalProp.

(** C5.  A schedule whose [topo] has an odd number of levels makes
    [forward] raise the assertion error of its first line, whatever the
    graph, the features and the mode: no result is produced and no stage
    is run. *)
Theorem forward_odd_topo_fails (self : t) (ts : schedule) (nf : tensor)
    (groundtruth : bool) (g : graph) :
  length (topo ts) mod 2 = 1 ->
  forward self ts nf groundtruth g
  = Err (AssertionError
           "The number of logic levels must be even (net, cell, net)").
Proof. intros H. unfold forward. rewrite H. reflexivity. Qed.

End ForwardOrder.

(** ** Feature stores *)

Section Stores.
Context {D : Dtype}.

Lemma set_ndata_unfold k (t : tensor) g :
  set_ndata k t g
  = match shape t with
    | n :: _ =>
        if n =? num_nodes g
        then Ok (tt, Graph (num_nodes g) (edges g) (<[k := t]> (ndata g)) (edata g))
        else Err DGLError
    | [] => Err DGLError
    end.
Proof.
  unfold set_ndata, set_n_repr. simpl.
  destruct (shape t) as [|n sh]; [reflexivity|].
  destruct (n =? num_nodes g); reflexivity.
Qed.

Lemma value_local_scope {A} (m : M A) g : value (local_scope m g) = value (m g).
Proof. unfold local_scope, value. destruct (m g) as [[a g']|e]; reflexivity. Qed.

(** Two node frames that differ at most on [k] are equal once [k] is set. *)
Lemma insert_same_except (k : string) (z : tensor) (m1 m2 : gmap string tensor) :
  delete k m1 = delete k m2 -> <[k := z]> m1 = <[k := z]> m2.
Proof.
  intros H. apply map_eq. intros j.
  destruct (decide (j = k)) as [->|Hj].
  - rewrite !lookup_insert_eq. reflexivity.
  - rewrite !lookup_insert_ne by congruence.
    apply (f_equal (fun m => m !! j)) in H.
    rewrite !lookup_delete_ne in H by congruence. exact H.
Qed.

Lemma delete_insert_other (k j : string) (z : tensor) (m1 m2 : gmap string tensor) :
  delete k m1 = delete k m2 -> delete k (<[j := z]> m1) = delete k (<[j := z]> m2).
Proof.
  intros H. apply map_eq. intros i.
  apply (f_equal (fun m => m !! i)) in H.
  destruct (decide (i = k)) as [->|Hi].
  - rewrite !lookup_delete_eq. reflexivity.
  - rewrite !lookup_delete_ne in * by congruence.
    destruct (decide (i = j)) as [->|Hij].
    + rewrite !lookup_insert_eq. reflexivity.
    + rewrite !lookup_insert_ne by congruence. exact H.
Qed.

End Stores.

Section Scopes.
Context {D : Dtype}.

(** C8.  When [NetConv.forward] or [SignalProp.forward] returns, the graph
    is the graph of before the call: node count, edges, node features and
    edge features.  Every feature the pass has written lived in the local
    scope only. *)
Theorem forward_restores_graph (nc : NetConv.t) (sp : SignalProp.t)
    (ts : schedule) (nf nf' : tensor) (groundtruth : bool) (g : graph)
    (out1 : tensor) (out2 : tensor * tensor) (g1 g2 : graph) :
  (NetConv.forward nc ts nf g = Ok (out1, g1) -> g1 = g) /\
  (SignalProp.forward sp ts nf' groundtruth g = Ok (out2, g2) -> g2 = g).
Proof.
  split.
  - unfold NetConv.forward. apply local_scope_restores.
  - unfold SignalProp.forward.
    destruct (length (topo ts) mod 2 =? 0); [|discriminate].
    apply local_scope_restores.
Qed.

End Scopes.

Section TeacherForcing.
Context {D : Dtype}.
Import SignalProp.

Lemma edge_msg_net_groundtruth self (edges : EdgeBatch) (x : tensor) :
  edge_msg_net self
    {| src := <["new_nf" := x]> (src edges); dst := dst edges;
       edge_data := edge_data edges; len := len edges |} true
  = edge_msg_net self edges true.
Proof.
  unfold edge_msg_net, field. simpl.
  rewrite !lookup_insert_ne by discriminate. reflexivity.
Qed.

Lemma edge_msg_cell_groundtruth self (edges : EdgeBatch) (x : tensor) :
  edge_msg_cell self
    {| src := <["new_nf" := x]> (src edges); dst := dst edges;
       edge_data := edge_data edges; len := len edges |} true
  = edge_msg_cell self edges true.
Proof.
  unfold edge_msg_cell, field. simpl.
  rewrite !lookup_insert_ne by discriminate. reflexivity.
Qed.

Lemma init_level0_same self ts nf (g1 g2 : graph) :
  num_nodes g1 = num_nodes g2 ->
  edges g1 = edges g2 ->
  edata g1 = edata g2 ->
  delete "new_nf" (ndata g1) = delete "new_nf" (ndata g2) ->
  init_level0 self ts nf g1 = init_level0 self ts nf g2.
Proof.
  intros Hn He Hd Hnd. unfold init_level0, bind, gets.
  rewrite !set_ndata_unfold. rewrite Hn.
  destruct (shape nf) as [|n sh]; [reflexivity|].
  destruct (n =? num_nodes g2); [|reflexivity].
  rewrite !set_ndata_unfold. cbn [zeros shape num_nodes ndata edges edata].
  rewrite He, Hd.
  rewrite (insert_same_except "new_nf" _ _ (<["nf" := nf]> (ndata g2))
             (delete_insert_other _ _ _ _ _ Hnd)).
  reflexivity.
Qed.

(** C2.  With [groundtruth=True], two calls on graphs that differ at most
    in the node feature [new_nf] return the same predictions and the same
    cell delays (or raise the same error).  In this mode [forward] runs
    two stages, the net stage on [input_nodes] and then the cell stage on
    [output_nodes_nonpi], and the messages of both stages are the same
    whatever [new_nf] holds at the source pins: they read [n_atslew]. *)
Theorem forward_groundtruth_ignores_new_nf (self : t) (ts : schedule)
    (nf : tensor) (g1 g2 : graph) :
  num_nodes g1 = num_nodes g2 ->
  edges g1 = edges g2 ->
  edata g1 = edata g2 ->
  delete "new_nf" (ndata g1) = delete "new_nf" (ndata g2) ->
  value (forward self ts nf true g1) = value (forward self ts nf true g2)
  /\ (forall g, forward_body self ts nf true g
                = (run init_level0 self ts nf;
                   run prop_net self (input_nodes ts) true;
                   run prop_cell self (output_nodes_nonpi ts) true;
                   outputs) g)
  /\ (forall edges x,
        edge_msg_net self
          {| src := <["new_nf" := x]> (src edges); dst := dst edges;
             edge_data := edge_data edges; len := len edges |} true
        = edge_msg_net self edges true)
  /\ (forall edges x,
        edge_msg_cell self
          {| src := <["new_nf" := x]> (src edges); dst := dst edges;
             edge_data := edge_data edges; len := len edges |} true
        = edge_msg_cell self edges true).
Proof.
  intros Hn He Hd Hnd. split; [|split; [|split]].
  - unfold forward. destruct (length (topo ts) mod 2 =? 0); [|reflexivity].
    rewrite !value_local_scope.
    unfold forward_body, bind.
    rewrite (init_level0_same self ts nf g1 g2 Hn He Hd Hnd). reflexivity.
  - intros g. unfold forward_body, propagate.
    apply bind_ext. intros _ g'. rewrite bind_assoc. reflexivity.
  - apply edge_msg_net_groundtruth.
  - apply edge_msg_cell_groundtruth.
Qed.

End TeacherForcing.

(** ** DeepGCNII *)

Section Deep.
Context {D : Dtype}.
Import DeepGCNII.

Lemma range_length n : Z.of_nat (length (range n)) = Z.max 0 n.
Proof. unfold range. rewrite length_seq. lia. Qed.

(** C9.  A [DeepGCNII] built with [n_layers = N], [N >= 2], has [N - 2]
    intermediate layers, each an [AllConv] from 26 to 16 features.
    [forward] applies [layer0], then the intermediate layers in order, then
    [layern]; an intermediate layer takes the running feature concatenated
    with the node feature [nf] and its result is added to the running
    feature.  For [N = 2] the result of [layer0] goes to [layern]
    directly. *)
Theorem deep_gcnii_layers (N : Z) (out_nf : nat) (p0 pn : MLP.params * MLP.params)
    (p : nat -> MLP.params * MLP.params) (g : graph) :
  (2 <= N)%Z ->
  let self := init N out_nf p0 p pn in
  Z.of_nat (length (layers self)) = (N - 2)%Z
  /\ (forall i, (Z.of_nat i < N - 2)%Z ->
        layers self !! i = Some (AllConv.init 26 16 12 10 10 (p i)))
  /\ forward self g
     = (do nf <- get_ndata "nf";
        do x <- AllConv.forward (layer0 self) nf;
        do x <- loop (layers self) x;
        AllConv.forward (layern self) x) g
  /\ (forall layer ls x g',
        loop (layer :: ls) x g'
        = (do nf <- get_ndata "nf";
           do c <- lift (cat1 [x; nf]);
           do y <- AllConv.forward layer c;
           do x' <- lift (add y x);
           loop ls x') g')
  /\ (N = 2%Z ->
        forward self g
        = (do nf <- get_ndata "nf";
           do x <- AllConv.forward (layer0 self) nf;
           AllConv.forward (layern self) x) g).
Proof.
  intros HN self. split; [|split; [|split; [|split]]].
  - unfold self, init. cbn [layers]. rewrite length_map, range_length. lia.
  - intros i Hi. unfold self, init. cbn [layers].
    rewrite list_lookup_fmap. unfold range.
    rewrite lookup_seq_lt by lia. reflexivity.
  - reflexivity.
  - intros layer ls x g'. cbn [loop]. unfold residual.
    rewrite !bind_assoc. apply bind_ext. intros nf g1.
    rewrite !bind_assoc. apply bind_ext. intros c g2.
    rewrite !bind_assoc. apply bind_ext. intros y g3.
    reflexivity.
  - intros ->. reflexivity.
Qed.

End Deep.

(** ** Rows of tensors *)

Section Rows.
Context {D : Dtype}.

Lemma length_row_of w (l : list elt) i : length (row_of w l i) = w.
Proof.
  unfold row_of. rewrite length_take, length_app, length_replicate. lia.
Qed.

Lemma length_row (t : tensor) i : length (row t i) = width t.
Proof. apply length_row_of. Qed.

Lemma row_of_flat_map {A} (f : A -> list elt) w (xs : list A) : forall i x,
  (forall y, length (f y) = w) ->
  xs !! i = Some x ->
  row_of w (flat_map f xs) i = f x.
Proof.
  induction xs as [|a xs IH]; intros i x Hlen Hi; [discriminate|].
  unfold row_of in *. simpl. destruct i as [|i]; simpl in *.
  - injection Hi as ->. rewrite drop_0, <- app_assoc.
    apply take_app_length'. symmetry. apply Hlen.
  - rewrite drop_app_add' by (symmetry; apply Hlen).
    apply IH; assumption.
Qed.

Lemma row_of_replicate w n i :
  row_of w (replicate n r0) i = replicate w r0.
Proof.
  unfold row_of. rewrite drop_replicate, <- replicate_add.
  rewrite take_replicate. f_equal. lia.
Qed.

Lemma row_zeros sh i : row (zeros sh) i = replicate (width (zeros sh)) r0.
Proof. unfold row. simpl. apply row_of_replicate. Qed.

Lemma last_index_None ids v : forall p,
  v ∉ ids -> last_index ids v p = None.
Proof.
  induction ids as [|j ids IH]; intros p Hv; simpl; [reflexivity|].
  apply not_elem_of_cons in Hv as [Hne Hv]. rewrite IH by assumption.
  destruct (Nat.eqb_spec j v); congruence.
Qed.

Lemma last_index_Some ids v : forall p q,
  last_index ids v p = Some q -> exists j, q = p + j /\ ids !! j = Some v.
Proof.
  induction ids as [|i ids IH]; intros p q H; simpl in H; [discriminate|].
  destruct (last_index ids v (S p)) as [q'|] eqn:E.
  - injection H as <-. destruct (IH _ _ E) as (j & -> & Hj).
    exists (S j). split; [lia|exact Hj].
  - destruct (Nat.eqb_spec i v) as [->|]; [|discriminate].
    injection H as <-. exists 0. split; [lia|reflexivity].
Qed.

Lemma last_index_elem ids v :
  v ∈ ids -> exists j, last_index ids v 0 = Some j /\ ids !! j = Some v.
Proof.
  intros Hv. destruct (last_index ids v 0) as [q|] eqn:E.
  - destruct (last_index_Some _ _ _ _ E) as (j & -> & Hj). eauto.
  - exfalso. revert E. generalize 0. induction ids as [|i ids IH]; intros p E.
    + inversion Hv.
    + simpl in E. destruct (last_index ids v (S p)) eqn:E'; [discriminate|].
      apply elem_of_cons in Hv as [->|Hv].
      * rewrite Nat.eqb_refl in E. discriminate.
      * eapply IH; eassumption.
Qed.

Lemma width_scatter (c : tensor) ids (src : tensor) :
  width (scatter_rows c ids src) = width c.
Proof. reflexivity. Qed.

(** A row that is not written keeps its content. *)
Lemma row_scatter_other (c : tensor) ids (src : tensor) n sh v :
  shape c = n :: sh -> width src = numel sh ->
  v < n -> v ∉ ids ->
  row (scatter_rows c ids src) v = row c v.
Proof.
  intros Hc Hsrc Hv Hids. unfold row at 1. rewrite width_scatter.
  unfold scatter_rows. simpl. rewrite Hc. simpl.
  assert (Hw : width c = numel sh) by (unfold width; rewrite Hc; reflexivity).
  rewrite (row_of_flat_map _ (width c) _ v v).
  - rewrite last_index_None by assumption. reflexivity.
  - intros y. destruct (last_index ids y 0); rewrite length_row; congruence.
  - apply lookup_seq_lt. exact Hv.
Qed.

(** A row that is written holds the row written last. *)
Lemma row_scatter_in (c : tensor) ids (src : tensor) n sh v :
  shape c = n :: sh -> width src = numel sh ->
  v < n -> v ∈ ids ->
  exists j, ids !! j = Some v /\ row (scatter_rows c ids src) v = row src j.
Proof.
  intros Hc Hsrc Hv Hids. destruct (last_index_elem ids v Hids) as (j & Hl & Hj).
  exists j. split; [exact Hj|].
  unfold row at 1. rewrite width_scatter.
  unfold scatter_rows. simpl. rewrite Hc. simpl.
  assert (Hw : width c = numel sh) by (unfold width; rewrite Hc; reflexivity).
  rewrite (row_of_flat_map _ (width c) _ v v).
  - rewrite Hl. reflexivity.
  - intros y. destruct (last_index ids y 0); rewrite length_row; congruence.
  - apply lookup_seq_lt. exact Hv.
Qed.

Lemma row_index_rows (t : tensor) ids j v :
  ids !! j = Some v -> row (index_rows t ids) j = row t v.
Proof.
  intros Hj. unfold row at 1. unfold index_rows, width. simpl.
  apply (row_of_flat_map (row t) _ ids j v); [|exact Hj].
  intros y. apply length_row.
Qed.

End Rows.

(** ** Writes to rows leave the other rows alone *)

Section Frames.
Context {D : Dtype}.

Lemma keeps_row_refl v (fr : gmap string tensor) : keeps_row v fr fr.
Proof. intros k c H. eauto. Qed.

Lemma keeps_row_trans v (fr1 fr2 fr3 : gmap string tensor) :
  keeps_row v fr1 fr2 -> keeps_row v fr2 fr3 -> keeps_row v fr1 fr3.
Proof.
  intros H12 H23 k c Hk.
  destruct (H12 k c Hk) as (c2 & Hk2 & Hs2 & Hr2).
  destruct (H23 k c2 Hk2) as (c3 & Hk3 & Hs3 & Hr3).
  exists c3. repeat split; congruence.
Qed.

Lemma keeps_node_refl v (g : graph) : keeps_node v g g.
Proof. repeat split. apply keeps_row_refl. Qed.

Lemma keeps_node_trans v (g1 g2 g3 : graph) :
  keeps_node v g1 g2 -> keeps_node v g2 g3 -> keeps_node v g1 g3.
Proof.
  intros (Hn & He & Hr) (Hn' & He' & Hr'). repeat split; try congruence.
  eapply keeps_row_trans; eassumption.
Qed.

Lemma write_field_keeps n ids (fr fr' : gmap string tensor) kv v :
  write_field n (Some ids) fr kv = Ok fr' ->
  v < n -> v ∉ ids -> keeps_row v fr fr'.
Proof.
  destruct kv as [k t]. unfold write_field.
  destruct (shape t) as [|m sh] eqn:Ht; [discriminate|].
  destruct (m =? length ids); [|discriminate].
  intros H Hv Hids j c Hj.
  destruct (fr !! k) as [c0|] eqn:Hk.
  - destruct (bool_decide (shape c0 = n :: sh)) eqn:Hb; [|discriminate].
    apply bool_decide_eq_true in Hb. injection H as <-.
    destruct (decide (j = k)) as [->|Hne].
    + rewrite lookup_insert_eq. replace c with c0 by congruence.
      eexists. split; [reflexivity|]. split; [reflexivity|].
      eapply row_scatter_other; try eassumption.
      unfold width. rewrite Ht. reflexivity.
    + rewrite lookup_insert_ne by congruence. eauto.
  - injection H as <-.
    destruct (decide (j = k)) as [->|Hne]; [congruence|].
    rewrite lookup_insert_ne by congruence. eauto.
Qed.

Lemma write_keeps n ids d v : forall (fr fr' : gmap string tensor),
  write n (Some ids) fr d = Ok fr' ->
  v < n -> v ∉ ids -> keeps_row v fr fr'.
Proof.
  induction d as [|kv d IH]; intros fr fr' H Hv Hids; simpl in H.
  - injection H as <-. apply keeps_row_refl.
  - destruct (write_field n (Some ids) fr kv) as [fr1|] eqn:E; [|discriminate].
    eapply keeps_row_trans.
    + eapply write_field_keeps; eassumption.
    + eapply IH; eassumption.
Qed.

Lemma set_n_repr_keeps ids d (g g' : graph) v :
  set_n_repr (Some ids) d g = Ok (tt, g') ->
  v < num_nodes g -> v ∉ ids -> keeps_node v g g'.
Proof.
  unfold set_n_repr. intros H Hv Hids.
  destruct (write (num_nodes g) (Some ids) (ndata g) d) as [fr|] eqn:E;
    [|discriminate].
  injection H as <-. repeat split. simpl.
  eapply write_keeps; eassumption.
Qed.

Lemma set_e_repr_keeps e n ids d (g g' : graph) v :
  set_e_repr e n ids d g = Ok (tt, g') -> keeps_node v g g'.
Proof.
  unfold set_e_repr. intros H.
  destruct (write n ids (eframe g e) d) as [fr|]; [|discriminate].
  injection H as <-. repeat split. apply keeps_row_refl.
Qed.

Lemma get_etype_graph etype (g g' : graph) p :
  get_etype etype g = Ok (p, g') -> g' = g.
Proof.
  unfold get_etype. destruct etype as [e|].
  - destruct (edges g !! e); [|discriminate]. congruence.
  - destruct (map_to_list (edges g)) as [|q [|]]; try discriminate. congruence.
Qed.

Lemma apply_nodes_keeps f nodes (g g' : graph) v :
  apply_nodes f nodes g = Ok (tt, g') ->
  v < num_nodes g -> v ∉ nodes -> keeps_node v g g'.
Proof.
  unfold apply_nodes. intros H Hv Hn.
  destruct (valid_ids (num_nodes g) nodes); [|discriminate].
  destruct (f (node_batch g nodes)) as [d|]; [|discriminate].
  eapply set_n_repr_keeps; eassumption.
Qed.

Lemma apply_nodes_valid f nodes (g : graph) r v :
  apply_nodes f nodes g = Ok r -> v ∈ nodes -> v < num_nodes g.
Proof.
  unfold apply_nodes. intros H Hv.
  destruct (valid_ids (num_nodes g) nodes) eqn:E; [|discriminate].
  unfold valid_ids in E. rewrite forallb_forall in E.
  apply Nat.ltb_lt, E, list_elem_of_In, Hv.
Qed.

Lemma pull_keeps nodes mf rf etype (g g' : graph) v :
  pull nodes mf rf etype g = Ok (tt, g') ->
  v < num_nodes g -> v ∉ nodes -> keeps_node v g g'.
Proof.
  unfold pull. intros H Hv Hn. destruct nodes as [|x nodes].
  - injection H as <-. apply keeps_node_refl.
  - unfold bind in H.
    destruct (get_etype etype g) as [[[e el] g1]|] eqn:E; [|discriminate].
    apply get_etype_graph in E as ->.
    destruct (valid_ids (num_nodes g) (x :: nodes)); [|discriminate].
    destruct (message_passing g e el _ _ mf rf) as [d|]; [|discriminate].
    eapply set_n_repr_keeps; eassumption.
Qed.

Lemma apply_edges_keeps f es etype (g g' : graph) v :
  apply_edges f es etype g = Ok (tt, g') -> keeps_node v g g'.
Proof.
  unfold apply_edges, bind. intros H.
  destruct (get_etype etype g) as [[[e el] g1]|] eqn:E; [|discriminate].
  apply get_etype_graph in E as ->.
  destruct es as [uvs|].
  - destruct (rmapM (edge_id el) uvs) as [eids|]; [|discriminate].
    destruct (f _) as [d|]; [|discriminate].
    eapply set_e_repr_keeps; eassumption.
  - destruct (f _) as [d|]; [|discriminate].
    eapply set_e_repr_keeps; eassumption.
Qed.

Lemma rmapM_Ok {A B} (f : A -> res B) (l : list A) : forall l',
  rmapM f l = Ok l' ->
  forall y, y ∈ l' -> exists x, x ∈ l /\ f x = Ok y.
Proof.
  induction l as [|x l IH]; intros l' H y Hy; simpl in H.
  - injection H as <-. inversion Hy.
  - destruct (f x) as [y0|] eqn:E; [|discriminate].
    destruct (rmapM f l) as [ys|] eqn:E'; [|discriminate].
    injection H as <-. apply elem_of_cons in Hy as [->|Hy].
    + exists x. split; [left|exact E].
    + destruct (IH _ eq_refl y Hy) as (x' & Hx' & Hf).
      exists x'. split; [right; exact Hx'|exact Hf].
Qed.

Lemma edge_id_Ok (el : list (nat * nat)) uv i :
  edge_id el uv = Ok i -> nth i el (0, 0) = uv.
Proof.
  unfold edge_id. intros H.
  destruct (list_find (fun p => p = uv) el) as [[j p]|] eqn:E; [|discriminate].
  injection H as <-. apply list_find_Some in E as (Hj & -> & _).
  apply nth_lookup_Some. exact Hj.
Qed.

Lemma send_and_recv_keeps es mf rf etype (g g' : graph) v :
  send_and_recv es mf rf etype g = Ok (tt, g') ->
  v < num_nodes g -> (forall uv, uv ∈ es -> snd uv <> v) -> keeps_node v g g'.
Proof.
  unfold send_and_recv, bind. intros H Hv Hes.
  destruct (get_etype etype g) as [[[e el] g1]|] eqn:E; [|discriminate].
  apply get_etype_graph in E as ->.
  destruct (rmapM (edge_id el) es) as [eids|] eqn:Hids; [|discriminate].
  destruct eids as [|i eids].
  - injection H as <-. apply keeps_node_refl.
  - destruct (message_passing g e el _ _ mf rf) as [d|]; [|discriminate].
    eapply set_n_repr_keeps; try eassumption.
    rewrite elem_of_remove_dups. intros Hin.
    apply list_elem_of_In, in_map_iff in Hin as (j & Hj & Hin).
    apply list_elem_of_In in Hin.
    destruct (rmapM_Ok _ _ _ Hids j Hin) as (uv & Huv & Hf).
    apply edge_id_Ok in Hf. apply (Hes uv Huv). congruence.
Qed.

Lemma in_edges_spec nodes etype (g g' : graph) es :
  in_edges nodes etype g = Ok (es, g') ->
  g' = g /\ forall uv, uv ∈ es -> snd uv ∈ nodes.
Proof.
  unfold in_edges, bind. intros H.
  destruct (get_etype etype g) as [[[e el] g1]|] eqn:E; [|discriminate].
  apply get_etype_graph in E as ->.
  destruct (valid_ids (num_nodes g) nodes); [|discriminate].
  injection H as <- <-. split; [reflexivity|].
  intros uv Huv. apply list_elem_of_In, in_map_iff in Huv as (i & <- & Hi).
  unfold in_edge_ids in Hi. apply in_flat_map in Hi as (x & Hx & Hi).
  apply list_elem_of_In, list_elem_of_filter in Hi as [-> _].
  apply list_elem_of_In, Hx.
Qed.

End Frames.

(** ** SignalProp: which rows a pass writes *)

Section Frontier.
Context {D : Dtype}.
Import SignalProp.

Lemma prop_net_keeps self nodes gt (g g' : graph) v :
  prop_net self nodes gt g = Ok (tt, g') ->
  v < num_nodes g -> v ∉ nodes -> keeps_node v g g'.
Proof. apply pull_keeps. Qed.

Lemma prop_cell_keeps self nodes gt (g g' : graph) v :
  prop_cell self nodes gt g = Ok (tt, g') ->
  v < num_nodes g -> v ∉ nodes -> keeps_node v g g'.
Proof.
  unfold prop_cell, bind. intros H Hv Hn.
  destruct (in_edges nodes (Some "cell_out") g) as [[es g0]|] eqn:E0;
    [|discriminate].
  apply in_edges_spec in E0 as [-> Hes].
  destruct (apply_edges _ (Some es) (Some "cell_out") g) as [[[] g1]|] eqn:E1;
    [|discriminate].
  apply (apply_edges_keeps _ _ _ _ _ v) in E1.
  destruct (send_and_recv es (copy_e "efc1" "efc1") _ _ g1) as [[[] g2]|] eqn:E2;
    [|discriminate].
  assert (Hes' : forall uv, uv ∈ es -> snd uv <> v).
  { intros uv Huv Heq. apply Hn. rewrite <- Heq. apply Hes, Huv. }
  assert (Hv1 : v < num_nodes g1) by (destruct E1 as (-> & _); exact Hv).
  apply (send_and_recv_keeps _ _ _ _ _ _ v) in E2; [|assumption..].
  destruct (send_and_recv es (copy_e "efc2" "efc2") _ _ g2) as [[[] g3]|] eqn:E3;
    [|discriminate].
  assert (Hv2 : v < num_nodes g2) by (destruct E2 as (-> & _); exact Hv1).
  apply (send_and_recv_keeps _ _ _ _ _ _ v) in E3; [|assumption..].
  assert (Hv3 : v < num_nodes g3) by (destruct E3 as (-> & _); exact Hv2).
  apply (apply_nodes_keeps _ _ _ _ v) in H; [|assumption..].
  eauto using keeps_node_trans.
Qed.

Lemma run_stage_keeps self gt k nodes (g g' : graph) v :
  run_stage self gt k nodes g = Ok (tt, g') ->
  v < num_nodes g -> v ∉ nodes -> keeps_node v g g'.
Proof.
  destruct k; [apply prop_net_keeps|apply prop_cell_keeps].
Qed.

Lemma levels_in_order_keeps self gt lvls v : forall i (g g' : graph),
  levels_in_order self gt i lvls g = Ok (tt, g') ->
  v < num_nodes g -> v ∉ concat lvls -> keeps_node v g g'.
Proof.
  induction lvls as [|l lvls IH]; intros i g g' H Hv Hn; simpl in H.
  - injection H as <-. apply keeps_node_refl.
  - unfold bind in H.
    destruct (run_stage self gt (stage_of i) l g) as [[[] g1]|] eqn:E;
      [|discriminate].
    simpl in Hn. rewrite elem_of_app in Hn.
    apply (run_stage_keeps _ _ _ _ _ _ v) in E; [|tauto..].
    eapply keeps_node_trans; [exact E|].
    eapply IH; [exact H| |tauto].
    destruct E as (-> & _). exact Hv.
Qed.

Lemma propagate_keeps self ts gt (g g' : graph) v :
  propagate self ts gt g = Ok (tt, g') ->
  v < num_nodes g -> v ∉ frontier ts gt -> keeps_node v g g'.
Proof.
  unfold frontier. destruct gt.
  - unfold propagate, bind. intros H Hv Hn. rewrite elem_of_app in Hn.
    destruct (prop_net self (input_nodes ts) true g) as [[[] g1]|] eqn:E;
      [|discriminate].
    apply (prop_net_keeps _ _ _ _ _ v) in E; [|tauto..].
    eapply keeps_node_trans; [exact E|].
    eapply prop_cell_keeps; [exact H| |tauto].
    destruct E as (-> & _). exact Hv.
  - destruct (topo ts) as [|l0 lvls] eqn:Hts.
    + unfold propagate. rewrite Hts. simpl.
      intros [= <-] _ _. apply keeps_node_refl.
    + rewrite (propagate_levels self ts l0 lvls g Hts). simpl.
      apply levels_in_order_keeps.
Qed.

End Frontier.

Section Level0.
Context {D : Dtype}.
Import SignalProp.

(** After lines 179-183 the prediction of a primary input is its ground
    truth and the prediction of every other node is zero. *)
Lemma init_level0_spec self ts nf (g g1 : graph) :
  init_level0 self ts nf g = Ok (tt, g1) ->
  num_nodes g1 = num_nodes g
  /\ exists c t,
       ndata g1 !! "new_nf" = Some c
       /\ ndata g !! "n_atslew" = Some t
       /\ shape c = [num_nodes g; out_nf self]
       /\ (forall v, v < num_nodes g -> v ∉ pi_nodes ts ->
             row c v = replicate (out_nf self) r0)
       /\ (forall v, v ∈ pi_nodes ts ->
             v < num_nodes g /\ row c v = row t v).
Proof.
  unfold init_level0, bind, gets. rewrite set_ndata_unfold.
  destruct (shape nf) as [|n0 sh0]; [discriminate|].
  destruct (n0 =? num_nodes g); [|discriminate].
  rewrite set_ndata_unfold. simpl (shape (zeros _)).
  cbn [num_nodes ndata edges edata]. rewrite Nat.eqb_refl.
  set (z := zeros [num_nodes g; out_nf self]).
  set (g2 := Graph _ _ _ _).
  intros H.
  assert (Hvalid : forall v, v ∈ pi_nodes ts -> v < num_nodes g).
  { intros v Hv. apply (apply_nodes_valid _ _ _ _ v H Hv). }
  unfold apply_nodes in H.
  destruct (valid_ids (num_nodes g2) (pi_nodes ts)); [|discriminate].
  unfold node_skip_level_o, node_batch, field in H. cbn [node_data] in H.
  rewrite lookup_fmap in H. unfold g2 in H at 1. cbn [ndata] in H.
  rewrite !lookup_insert_ne in H by discriminate.
  destruct (ndata g !! "n_atslew") as [t|] eqn:Ht; [|discriminate].
  cbn [fmap option_fmap option_map rbind] in H.
  unfold set_n_repr in H. cbn [write write_field] in H.
  cbn [index_rows shape] in H. rewrite Nat.eqb_refl in H.
  unfold g2 in H. cbn [ndata num_nodes edges edata] in H.
  rewrite lookup_insert_eq in H.
  destruct (bool_decide (shape z = num_nodes g :: tail (shape t))) eqn:Hb;
    [|discriminate].
  apply bool_decide_eq_true in Hb.
  injection H as <-. cbn [num_nodes ndata]. split; [reflexivity|].
  eexists _, t. split; [apply lookup_insert_eq|]. split; [reflexivity|].
  split; [reflexivity|].
  assert (Hw : width (index_rows t (pi_nodes ts)) = numel (tail (shape t)))
    by reflexivity.
  split.
  - intros v Hv Hpi.
    rewrite (row_scatter_other z _ _ _ _ v Hb Hw Hv Hpi).
    unfold z. rewrite row_zeros. unfold width. simpl. rewrite Nat.mul_1_r. reflexivity.
  - intros v Hpi. split; [auto|].
    destruct (row_scatter_in z _ _ _ _ v Hb Hw (Hvalid v Hpi) Hpi)
      as (j & Hj & ->).
    apply (row_index_rows t _ j v Hj).
Qed.

Lemma outputs_spec (g g' : graph) new_nf efce :
  outputs g = Ok ((new_nf, efce), g') ->
  ndata g !! "new_nf" = Some new_nf.
Proof.
  unfold outputs, bind, get_ndata, get_edata, field, ret.
  destruct (ndata g !! "new_nf") as [c|]; [|discriminate].
  destruct (edges g !! "cell_out"); [|discriminate].
  destruct (eframe g "cell_out" !! "efce"); [|discriminate].
  congruence.
Qed.

(** What [forward] returns for a node no stage is run on. *)
Lemma forward_row_outside self ts nf gt (g g' : graph) new_nf efce :
  forward self ts nf gt g = Ok ((new_nf, efce), g') ->
  exists c t,
    ndata g !! "n_atslew" = Some t
    /\ (forall v, v ∈ pi_nodes ts -> v < num_nodes g /\ row c v = row t v)
    /\ (forall v, v < num_nodes g -> v ∉ pi_nodes ts ->
          row c v = replicate (out_nf self) r0)
    /\ (forall v, v < num_nodes g -> v ∉ frontier ts gt ->
          row new_nf v = row c v).
Proof.
  unfold forward. destruct (length (topo ts) mod 2 =? 0); [|discriminate].
  unfold local_scope, forward_body, bind.
  destruct (init_level0 self ts nf g) as [[[] g1]|] eqn:E1; [|discriminate].
  destruct (propagate self ts gt g1) as [[[] g2]|] eqn:E2; [|discriminate].
  destruct (outputs g2) as [[[c2 e2] g3]|] eqn:E3; [|discriminate].
  intros [= <- <- <-].
  apply init_level0_spec in E1 as (Hn & c & t & Hc & Ht & Hs & Hz & Hpi).
  apply outputs_spec in E3.
  exists c, t. split; [exact Ht|].
  assert (Hk : forall v, v < num_nodes g -> v ∉ frontier ts gt ->
                 shape c2 = shape c /\ row c2 v = row c v).
  { intros v Hv Hf. rewrite <- Hn in Hv.
    destruct (propagate_keeps _ _ _ _ _ v E2 Hv Hf) as (_ & _ & Hr).
    destruct (Hr _ _ Hc) as (c' & Hc' & Hs' & Hr').
    replace c2 with c' by congruence. auto. }
  split; [exact Hpi|split; [exact Hz|intros; apply Hk; assumption]].
Qed.

End Level0.

Section Predictions.
Context {D : Dtype}.
Import SignalProp.

(** In either mode, the prediction [forward] returns for a primary input
    that is in none of the node sets the stages are run on is the row of
    that node in the ground truth [n_atslew]: the copy made by
    [node_skip_level_o] is what the caller gets. *)
Lemma pi_prediction_is_ground_truth (self : t) (ts : schedule) (nf : tensor)
    (groundtruth : bool) (g g' : graph) (new_nf efce t : tensor) (v : nat) :
  forward self ts nf groundtruth g = Ok ((new_nf, efce), g') ->
  ndata g !! "n_atslew" = Some t ->
  v ∈ pi_nodes ts ->
  v ∉ frontier ts groundtruth ->
  row new_nf v = row t v.
Proof.
  intros H Ht Hpi Hf.
  destruct (forward_row_outside _ _ _ _ _ _ _ _ H)
    as (c & t' & Ht' & Hpi' & _ & Hk).
  replace t' with t in * by congruence.
  destruct (Hpi' v Hpi) as [Hv <-]. apply Hk; assumption.
Qed.

(** C6.  On a schedule of the data model (the levels partition the pins,
    level 0 holds the primary inputs, which are neither input pins nor
    among [output_nodes_nonpi]), in either mode: a primary input is in none
    of the node sets a net or cell stage is run on, and the prediction
    [forward] returns for it is the row of that node in the ground truth
    [n_atslew], the copy made by [node_skip_level_o]. *)
Theorem pi_prediction_on_schedule (self : t) (ts : schedule) (nf : tensor)
    (groundtruth : bool) (g g' : graph) (new_nf efce t : tensor) (v : nat) :
  forward self ts nf groundtruth g = Ok ((new_nf, efce), g') ->
  ndata g !! "n_atslew" = Some t ->
  pi_scheduled ts ->
  v ∈ pi_nodes ts ->
  (v ∉ frontier ts groundtruth) /\ row new_nf v = row t v.
Proof.
  intros H Ht (Hnd & H0 & Hio) Hpi.
  assert (Hf : v ∉ frontier ts groundtruth).
  { unfold frontier. destruct groundtruth.
    - destruct (Hio v Hpi) as [Hi Ho]. apply not_elem_of_app. auto.
    - specialize (H0 v Hpi). destruct (topo ts) as [|l0 lvls].
      + simpl in H0. apply elem_of_nil in H0. destruct H0.
      + simpl in *. apply NoDup_app in Hnd as (_ & Hd & _). auto. }
  split; [exact Hf|].
  exact (pi_prediction_is_ground_truth self ts nf groundtruth g g' new_nf efce
           t v H Ht Hpi Hf).
Qed.

(** C10.  A node that is neither a primary input nor in a node set a stage
    is run on gets the zero vector of width [out_nf] as its prediction. *)
Theorem unreached_prediction_is_zero (self : t) (ts : schedule) (nf : tensor)
    (groundtruth : bool) (g g' : graph) (new_nf efce : tensor) (v : nat) :
  forward self ts nf groundtruth g = Ok ((new_nf, efce), g') ->
  v < num_nodes g ->
  v ∉ pi_nodes ts ->
  v ∉ frontier ts groundtruth ->
  row new_nf v = replicate (out_nf self) r0.
Proof.
  intros H Hv Hpi Hf.
  destruct (forward_row_outside _ _ _ _ _ _ _ _ H)
    as (c & t' & _ & _ & Hz & Hk).
  rewrite Hk by assumption. apply Hz; assumption.
Qed.

End Predictions.

(** ** Aggregation at a node without incoming edge *)

Section Isolated.
Context {D : Dtype}.

Lemma length_vadd_fold w (msgs : list (list elt)) : forall acc,
  length acc = w -> Forall (fun m => length m = w) msgs ->
  length (foldl vadd acc msgs) = w.
Proof.
  induction msgs as [|m msgs IH]; intros acc Ha Hm; simpl; [exact Ha|].
  inversion Hm; subst. apply IH; [|assumption].
  unfold vadd. rewrite length_zip_with. lia.
Qed.

Lemma length_vmax_fold w (msgs : list (list elt)) : forall acc,
  length acc = w -> Forall (fun m => length m = w) msgs ->
  length (foldl vmax acc msgs) = w.
Proof.
  induction msgs as [|m msgs IH]; intros acc Ha Hm; simpl; [exact Ha|].
  inversion Hm; subst. apply IH; [|assumption].
  unfold vmax. rewrite length_zip_with. lia.
Qed.

Lemma length_reduce_rows rf w (msgs : list (list elt)) :
  Forall (fun m => length m = w) msgs -> length (reduce_rows rf w msgs) = w.
Proof.
  intros H. destruct rf; simpl.
  - apply length_vadd_fold; [apply length_replicate|exact H].
  - destruct msgs as [|m msgs]; [apply length_replicate|].
    inversion H; subst. apply length_vmax_fold; [reflexivity|assumption].
Qed.

Lemma filter_none {A} (P : A -> Prop) `{forall x, Decision (P x)} (l : list A) :
  (forall x, x ∈ l -> ~ P x) -> filter P l = [].
Proof.
  intros H0. destruct (filter P l) as [|x l'] eqn:E; [reflexivity|].
  assert (Hx : x ∈ filter P l) by (rewrite E; left).
  apply list_elem_of_filter in Hx as [HP Hx]. destruct (H0 x Hx HP).
Qed.

Lemma dict_get_head k (t : tensor) (d : dict) : dict_get ((k, t) :: d) k = Ok t.
Proof. unfold dict_get. simpl. rewrite decide_True by reflexivity. reflexivity. Qed.

Lemma set_n_repr_inv ids d (g g' : graph) :
  set_n_repr ids d g = Ok (tt, g') ->
  num_nodes g' = num_nodes g /\ edges g' = edges g /\ edata g' = edata g
  /\ write (num_nodes g) ids (ndata g) d = Ok (ndata g').
Proof.
  unfold set_n_repr. destruct (write _ ids _ d) as [fr|]; [|discriminate].
  intros [= <-]. auto.
Qed.

(** Built-in reduction of a stored edge feature: a node that no edge
    enters gets the zero row. *)
Lemma message_passing_isolated (g : graph) e el eids vs m rf d i v :
  message_passing g e el eids vs (copy_e m (reduce_msg rf)) rf = Ok d ->
  (forall j, j ∈ eids -> snd (nth j el (0, 0)) <> v) ->
  vs !! i = Some v ->
  exists t c,
    eframe g e !! m = Some t /\ d = [(reduce_out rf, c)]
    /\ shape c = length vs :: tail (shape t)
    /\ row c i = replicate (width t) r0.
Proof.
  unfold message_passing, invoke_message, field. cbn [edge_batch edge_data].
  rewrite lookup_fmap. intros H Hiso Hi.
  destruct (eframe g e !! m) as [t|]; [|discriminate].
  cbn [fmap option_fmap option_map] in H. rewrite dict_get_head in H.
  cbn [index_rows shape] in H. rewrite Nat.eqb_refl in H.
  injection H as <-. exists t. eexists. split; [reflexivity|].
  split; [reflexivity|]. split; [reflexivity|].
  unfold row at 1. unfold width at 1. cbn [shape data tail].
  rewrite (row_of_flat_map _ (numel (tail (shape t))) vs i v); [| |exact Hi].
  - rewrite filter_none; [destruct rf; reflexivity|]. intros j Hj Hv.
    apply elem_of_seq in Hj as [_ Hj]. simpl in Hj.
    apply (Hiso (nth j eids 0)); [|exact Hv].
    apply list_elem_of_In, nth_In. exact Hj.
  - intros y. apply length_reduce_rows, Forall_forall.
    intros r Hr. apply list_elem_of_In, in_map_iff in Hr as (j & <- & _).
    apply length_row.
Qed.

Lemma update_all_isolated (g g' : graph) e el m rf v :
  update_all (copy_e m (reduce_msg rf)) rf (Some e) g = Ok (tt, g') ->
  edges g !! e = Some el ->
  (forall uv, uv ∈ el -> snd uv <> v) ->
  v < num_nodes g ->
  exists t c,
    eframe g e !! m = Some t
    /\ ndata g' = <[reduce_out rf := c]> (ndata g)
    /\ row c v = replicate (width t) r0
    /\ num_nodes g' = num_nodes g /\ edges g' = edges g /\ edata g' = edata g.
Proof.
  unfold update_all, bind, get_etype. intros H He Hiso Hv. rewrite He in H.
  destruct (message_passing g e el _ _ _ rf) as [d|] eqn:E; [|discriminate].
  apply (message_passing_isolated g e el _ _ m rf d v v) in E.
  - destruct E as (t & c & Ht & -> & Hs & Hr).
    apply set_n_repr_inv in H as (Hn & He' & Hd & Hw).
    exists t, c. split; [exact Ht|].
    cbn [write write_field] in Hw. rewrite Hs, length_seq, Nat.eqb_refl in Hw.
    injection Hw as <-. auto.
  - intros j Hj. apply elem_of_seq in Hj as [_ Hj]. simpl in Hj.
    apply Hiso, list_elem_of_In, nth_In. exact Hj.
  - apply lookup_seq_lt. exact Hv.
Qed.

End Isolated.

(** ** Shapes of the messages *)

Section Shapes.
Context {D : Dtype}.

Lemma apply_layer_rank2 l (x y : tensor) :
  MLP.apply_layer l x = Ok y ->
  (exists n w, shape x = [n; w]) -> exists n w, shape y = [n; w].
Proof.
  destruct l as [i o w b|]; simpl.
  - destruct (dim2 x) as [[n wx]|]; [|discriminate].
    destruct (wx =? i); [|discriminate]. intros [= <-] _. simpl. eauto.
  - intros [= <-] H. exact H.
Qed.

Lemma MLP_forward_rank2 (self : MLP.t) : forall (x y : tensor),
  MLP.forward self x = Ok y ->
  (exists n w, shape x = [n; w]) -> exists n w, shape y = [n; w].
Proof.
  induction self as [|l self IH]; intros x y H Hx; simpl in H.
  - injection H as <-. exact Hx.
  - destruct (MLP.apply_layer l x) as [x'|] eqn:E; [|discriminate].
    eapply IH; [exact H|]. eapply apply_layer_rank2; eassumption.
Qed.

Lemma cat1_rank2 (ts : list tensor) (x : tensor) :
  cat1 ts = Ok x -> exists n w, shape x = [n; w].
Proof.
  unfold cat1. destruct ts as [|t0 ts]; [discriminate|].
  destruct (dim2 t0) as [[n w0]|]; [|discriminate].
  destruct (forallb _ _); [|discriminate].
  intros [= <-]. simpl. eauto.
Qed.

Lemma bdim_refl a : bdim a a = Ok a.
Proof. unfold bdim. rewrite Nat.eqb_refl. reflexivity. Qed.

Lemma bdim_1_r a : bdim a 1 = Ok a.
Proof.
  unfold bdim. destruct (Nat.eqb_spec a 1) as [->|]; reflexivity.
Qed.

(** A payload [n; h] gated by a column [n; 1] keeps its shape. *)
Lemma mul_gate_shape (f k e : tensor) n h :
  shape f = [n; h] -> shape k = [n; 1] -> mul f k = Ok e -> shape e = [n; h].
Proof.
  unfold mul, binop, broadcast_shapes. intros -> ->. simpl.
  rewrite bdim_1_r, bdim_refl. simpl. intros [= <-]. reflexivity.
Qed.

Lemma edge_msg_o_shapes (self : NetConv.t) (b : EdgeBatch) d :
  NetConv.edge_msg_o self b = Ok d ->
  exists e1 e2 n,
    d = [("efo1", e1); ("efo2", e2)]
    /\ shape e1 = [n; NetConv.h1 self] /\ shape e2 = [n; NetConv.h2 self].
Proof.
  unfold NetConv.edge_msg_o, rbind.
  destruct (field (src b) "nf") as [a|]; [|discriminate].
  destruct (field (dst b) "nf") as [a'|]; [|discriminate].
  destruct (field (edge_data b) "ef") as [c|]; [|discriminate].
  destruct (cat1 [a; a'; c]) as [x|] eqn:Ex; [|discriminate].
  destruct (MLP.forward _ x) as [y|] eqn:Ey; [|discriminate].
  apply cat1_rank2 in Ex. apply (MLP_forward_rank2 _ _ _ Ey) in Ex.
  destruct Ex as (n & w & Hy). unfold split1. rewrite Hy.
  destruct (_ =? w); [|discriminate]. cbn [split_from].
  set (k := sigmoid _).
  destruct (mul _ k) as [e1|] eqn:E1; [|discriminate].
  destruct (mul _ k) as [e2|] eqn:E2 in |- *; [|discriminate].
  intros [= <-]. exists e1, e2, n. split; [reflexivity|].
  split; eapply mul_gate_shape; try eassumption; reflexivity.
Qed.

End Shapes.

Section IsolatedDrive.
Context {D : Dtype}.
Import NetConv.

Lemma update_all_graph mf rf etype (g g' : graph) :
  update_all mf rf etype g = Ok (tt, g') ->
  num_nodes g' = num_nodes g /\ edges g' = edges g /\ edata g' = edata g.
Proof.
  unfold update_all, bind. intros H.
  destruct (get_etype etype g) as [[[e el] g0]|] eqn:E; [|discriminate].
  apply get_etype_graph in E as ->.
  destruct (message_passing g e el _ _ mf rf) as [d|]; [|discriminate].
  apply set_n_repr_inv in H. tauto.
Qed.

Lemma apply_edges_all_inv f e (g g' : graph) :
  apply_edges f None (Some e) g = Ok (tt, g') ->
  exists el d,
    edges g !! e = Some el
    /\ f (edge_batch g e el (seq 0 (length el))) = Ok d
    /\ write (length el) None (eframe g e) d = Ok (eframe g' e)
    /\ num_nodes g' = num_nodes g /\ edges g' = edges g /\ ndata g' = ndata g.
Proof.
  unfold apply_edges, bind, get_etype. intros H.
  destruct (edges g !! e) as [el|]; [|discriminate].
  destruct (f _) as [d|] eqn:Ef; [|discriminate].
  unfold set_e_repr in H.
  destruct (write (length el) None (eframe g e) d) as [fr|] eqn:Ew;
    [|discriminate].
  injection H as <-. exists el, d. unfold eframe at 2. cbn [edata].
  rewrite lookup_insert_eq. repeat split; assumption.
Qed.

(** C7.  After the aggregation steps of [NetConv.forward], a node that no
    [net_in] edge enters holds the zero vector of width [h1] in [nfo1], the
    sum of no message, and the zero vector of width [h2] in [nfo2], the
    value the max of no message is given.  These are the rows
    [node_reduce_o] reads for the node when it is one of the nodes it is
    applied to. *)
Theorem isolated_drive_aggregates (self : t) (nf : tensor) (g g1 : graph)
    (el : list (nat * nat)) (v : nat) :
  aggregate self nf g = Ok (tt, g1) ->
  edges g !! "net_in" = Some el ->
  (forall uv, uv ∈ el -> snd uv <> v) ->
  v < num_nodes g ->
  exists c1 c2,
    ndata g1 !! "nfo1" = Some c1 /\ ndata g1 !! "nfo2" = Some c2
    /\ row c1 v = replicate (h1 self) r0
    /\ row c2 v = replicate (h2 self) r0
    /\ forall nodes j, nodes !! j = Some v ->
         exists b1 b2,
           field (node_data (node_batch g1 nodes)) "nfo1" = Ok b1
           /\ field (node_data (node_batch g1 nodes)) "nfo2" = Ok b2
           /\ row b1 j = replicate (h1 self) r0
           /\ row b2 j = replicate (h2 self) r0.
Proof.
  unfold aggregate, bind. intros H Hel Hiso Hv.
  destruct (set_ndata "nf" nf g) as [[[] ga]|] eqn:Ea; [|discriminate].
  rewrite set_ndata_unfold in Ea.
  destruct (shape nf) as [|n0 sh0]; [discriminate|].
  destruct (n0 =? num_nodes g); [|discriminate]. injection Ea as <-.
  destruct (update_all (udf _) _ _ _) as [[[] gb]|] eqn:Eb; [|discriminate].
  apply update_all_graph in Eb as (Hnb & Heb & _). cbn in Hnb, Heb.
  destruct (apply_edges _ None _ gb) as [[[] gc]|] eqn:Ec; [|discriminate].
  apply apply_edges_all_inv in Ec
    as (el' & d & Hel' & Hd & Hw & Hnc & Hec & _).
  apply edge_msg_o_shapes in Hd as (e1 & e2 & n & -> & Hs1 & Hs2).
  cbn [write write_field] in Hw. rewrite Hs1, Hs2 in Hw.
  destruct (n =? length el'); [|discriminate]. injection Hw as Hw.
  destruct (update_all (copy_e "efo1" "efo1") _ _ gc) as [[[] gd]|] eqn:Ed;
    [|discriminate].
  assert (Helc : edges gc !! "net_in" = Some el) by congruence.
  assert (Hvc : v < num_nodes gc) by congruence.
  apply (update_all_isolated gc gd "net_in" el "efo1" (fn_sum "efo1" "nfo1") v)
    in Ed as (t1 & c1 & Ht1 & Hnd1 & Hr1 & Hnd & Hed & Hdd); try assumption.
  apply (update_all_isolated gd g1 "net_in" el "efo2" (fn_max "efo2" "nfo2") v)
    in H as (t2 & c2 & Ht2 & Hnd2 & Hr2 & _); try assumption; try congruence.
  assert (Hfd : eframe gd "net_in" = eframe gc "net_in")
    by (unfold eframe; rewrite Hdd; reflexivity).
  rewrite Hfd in Ht2. rewrite <- Hw in Ht1, Ht2.
  rewrite lookup_insert_ne, lookup_insert_eq in Ht1 by discriminate.
  rewrite lookup_insert_eq in Ht2.
  injection Ht1 as <-. injection Ht2 as <-.
  assert (Hw1 : width e1 = h1 self)
    by (unfold width; rewrite Hs1; simpl; lia).
  assert (Hw2 : width e2 = h2 self)
    by (unfold width; rewrite Hs2; simpl; lia).
  rewrite Hw1 in Hr1. rewrite Hw2 in Hr2. cbn [reduce_out] in Hnd1, Hnd2.
  assert (H1 : ndata g1 !! "nfo1" = Some c1).
  { rewrite Hnd2, lookup_insert_ne, Hnd1 by discriminate.
    apply lookup_insert_eq. }
  assert (H2 : ndata g1 !! "nfo2" = Some c2).
  { rewrite Hnd2. apply lookup_insert_eq. }
  exists c1, c2. repeat split; try assumption.
  intros nodes j Hj.
  exists (index_rows c1 nodes), (index_rows c2 nodes).
  unfold field, node_batch. cbn [node_data]. rewrite !lookup_fmap, H1, H2.
  repeat split.
  - rewrite (row_index_rows c1 nodes j v Hj). exact Hr1.
  - rewrite (row_index_rows c2 nodes j v Hj). exact Hr2.
Qed.

End IsolatedDrive.

(** ** Reading tensors by position *)

Section Positions.
Context {D : Dtype}.

Lemma length_tabulate n (f : nat -> elt) : length (tabulate n f) = n.
Proof. unfold tabulate. rewrite length_map, length_seq. reflexivity. Qed.

Lemma nth_tabulate n (f : nat -> elt) k :
  k < n -> nth k (tabulate n f) r0 = f k.
Proof.
  intros H. unfold tabulate. apply nth_lookup_Some.
  rewrite list_lookup_fmap, lookup_seq_lt by exact H. reflexivity.
Qed.

Lemma nth_row_of w (l : list elt) i k :
  k < w -> nth k (row_of w l i) r0 = nth (i * w + k) l r0.
Proof.
  intros Hk. unfold row_of. rewrite !nth_lookup.
  rewrite lookup_take_lt by exact Hk.
  destruct (decide (i * w + k < length l)) as [Hlt|Hge].
  - rewrite lookup_app_l by (rewrite length_drop; lia).
    rewrite lookup_drop. reflexivity.
  - rewrite lookup_app_r by (rewrite length_drop; lia).
    rewrite (lookup_ge_None_2 l) by lia.
    rewrite length_drop.
    destruct (replicate w r0 !! _) as [x|] eqn:E; [|reflexivity].
    apply lookup_replicate in E as [-> _]. reflexivity.
Qed.

Lemma nth_flat_map_seq (f : nat -> list elt) w n i k :
  (forall y, length (f y) = w) -> i < n -> k < w ->
  nth (i * w + k) (flat_map f (seq 0 n)) r0 = nth k (f i) r0.
Proof.
  intros Hlen Hi Hk. rewrite <- nth_row_of by exact Hk.
  rewrite (row_of_flat_map f w (seq 0 n) i i Hlen); [reflexivity|].
  apply lookup_seq_lt. exact Hi.
Qed.

Lemma length_flat_map_seq (f : nat -> list elt) w n :
  (forall y, length (f y) = w) -> length (flat_map f (seq 0 n)) = n * w.
Proof.
  intros Hlen. generalize 0. induction n as [|n IH]; intros s; simpl.
  - reflexivity.
  - rewrite length_app, Hlen, IH. reflexivity.
Qed.

End Positions.

(** ** Reshapes *)

Section Reshape.
Context {D : Dtype}.

Lemma filter_neg_of_nat ds :
  filter (fun d => (d <? 0)%Z = true) (map Z.of_nat ds) = [].
Proof.
  apply filter_none. intros x Hx.
  apply list_elem_of_In, in_map_iff in Hx as (n & <- & _).
  rewrite Z.ltb_lt. lia.
Qed.

Lemma filter_nonneg_of_nat ds :
  filter (fun d => (0 <=? d)%Z = true) (map Z.of_nat ds) = map Z.of_nat ds.
Proof.
  induction ds as [|d ds IH]; [reflexivity|]. cbn [map].
  rewrite filter_cons_True by (apply Z.leb_le; lia). rewrite IH. reflexivity.
Qed.

Lemma to_nat_of_nat ds : map Z.to_nat (map Z.of_nat ds) = ds.
Proof.
  induction ds as [|d ds IH]; [reflexivity|]. cbn [map].
  rewrite Nat2Z.id, IH. reflexivity.
Qed.

(** A reshape to dimensions without [-1]. *)
Lemma reshape_exact (t t' : tensor) ds :
  reshape t (map Z.of_nat ds) = Ok t' ->
  numel ds = numel (shape t) /\ t' = Tensor ds (data t).
Proof.
  unfold reshape. rewrite filter_neg_of_nat, filter_nonneg_of_nat, to_nat_of_nat.
  cbn [length]. destruct (Nat.eqb_spec (numel ds) (numel (shape t))); [|discriminate].
  intros [= <-]. auto.
Qed.

(** A reshape whose first dimension is [-1]. *)
Lemma reshape_infer (t t' : tensor) ds :
  reshape t ((-1)%Z :: map Z.of_nat ds) = Ok t' ->
  numel ds <> 0 /\ numel (shape t) mod numel ds = 0
  /\ t' = Tensor (numel (shape t) / numel ds :: ds) (data t).
Proof.
  unfold reshape.
  rewrite filter_cons_True by reflexivity.
  rewrite filter_cons_False by discriminate.
  rewrite filter_neg_of_nat, filter_nonneg_of_nat, to_nat_of_nat.
  cbn [length].
  destruct (forallb _ _); [|discriminate].
  destruct (Nat.eqb_spec (numel ds) 0); [discriminate|].
  destruct (Nat.eqb_spec (numel (shape t) mod numel ds) 0); [|discriminate].
  cbn [andb negb map]. intros [= <-]. split; [assumption|]. split; [assumption|].
  f_equal. f_equal. generalize (numel (shape t) / numel ds). intros q.
  clear. induction ds as [|d ds IH]; [reflexivity|].
  cbn [map]. rewrite IH. destruct (Z.ltb_spec (Z.of_nat d) 0); [lia|].
  rewrite Nat2Z.id. reflexivity.
Qed.

End Reshape.

(** ** Matrix products by position *)

Section Matmul.
Context {D : Dtype}.

Lemma split_last2_app ba n m : split_last2 (ba ++ [n; m]) = Some (ba, n, m).
Proof.
  unfold split_last2. rewrite rev_app_distr. simpl.
  rewrite rev_involutive. reflexivity.
Qed.

(** Entry [(i, j)] of the matrix of batch [bi] of a product. *)
Lemma matmul_spec (a b c : tensor) ba bb n m p :
  shape a = ba ++ [n; m] -> shape b = bb ++ [m; p] ->
  matmul a b = Ok c ->
  exists bs,
    broadcast_shapes ba bb = Ok bs /\ shape c = bs ++ [n; p]
    /\ forall bi i j, bi < numel bs -> i < n -> j < p ->
         get c (bi * (n * p) + (i * p + j))
         = sum_list (tabulate m (fun k =>
             rmul (get a (bcast_index ba (unravel bs bi) * (n * m) + i * m + k))
                  (get b (bcast_index bb (unravel bs bi) * (m * p) + k * p + j)))).
Proof.
  intros Ha Hb. unfold matmul. rewrite Ha, Hb, !split_last2_app.
  rewrite Nat.eqb_refl.
  destruct (broadcast_shapes ba bb) as [bs|]; [|discriminate].
  intros [= <-]. exists bs. split; [reflexivity|]. split; [reflexivity|].
  intros bi i j Hbi Hi Hj. unfold get at 1. cbn [data].
  rewrite (nth_flat_map_seq _ (n * p)); [| |exact Hbi|nia].
  - rewrite (nth_flat_map_seq _ p); [| |exact Hi|exact Hj].
    + rewrite nth_tabulate by exact Hj. reflexivity.
    + intros y. apply length_tabulate.
  - intros y. apply length_flat_map_seq. intros y'. apply length_tabulate.
Qed.

(** A sum of products in which every factor on the right is zero, but the
    one at [k0], which is one: the finite factor on the left at [k0]. *)
Lemma sum_list_select `{!DtypeLaws D} n (f : nat -> elt) k0 :
  k0 < n ->
  (forall k, k < n -> finite (f k)) ->
  req (sum_list (tabulate n (fun k => rmul (f k) (if k =? k0 then r1 else r0))))
      (f k0).
Proof.
  unfold tabulate, sum_list. intros H Hfin.
  set (t := fun k => rmul (f k) (if k =? k0 then r1 else r0)).
  assert (Hz : forall s m, s + m <= n -> (forall k, s <= k < s + m -> k <> k0) ->
            is_zero (foldr radd r0 (map t (seq s m)))).
  { intros s m. revert s. induction m as [|m IH]; intros s Hn Hs;
      [apply is_zero_r0|].
    simpl. apply radd_zeros.
    - unfold t. destruct (Nat.eqb_spec s k0) as [Heq|_].
      + exfalso. apply (Hs s); [lia|exact Heq].
      + apply rmul_0_r, Hfin. lia.
    - apply IH; [lia|]. intros k Hk. apply Hs. lia. }
  assert (Hl : forall s m y, s + m <= n ->
            (forall k, s <= k < s + m -> k <> k0) ->
            req y (f k0) -> req (foldr radd y (map t (seq s m))) (f k0)).
  { intros s m y. revert s. induction m as [|m IH]; intros s Hn Hs Hy;
      [exact Hy|].
    simpl. apply radd_0_l.
    - apply Hfin. exact H.
    - unfold t. destruct (Nat.eqb_spec s k0) as [Heq|_].
      + exfalso. apply (Hs s); [lia|exact Heq].
      + apply rmul_0_r, Hfin. lia.
    - apply IH; [lia| |exact Hy]. intros k Hk. apply Hs. lia. }
  replace n with (k0 + S (n - S k0)) at 1 by lia.
  rewrite seq_app, map_app, foldr_app. simpl.
  apply Hl; [lia|intros; lia|].
  unfold t at 1. rewrite Nat.eqb_refl, rmul_1_r by (apply Hfin; exact H).
  apply radd_0_r; [apply Hfin; exact H|].
  apply Hz; [lia|intros; lia].
Qed.

End Matmul.

(** ** The lookup in the tables *)

Section Lookup.
Context {D : Dtype} `{!DtypeLaws D}.
Import SignalProp.

Lemma numel1 s : numel [s] = s.
Proof. simpl. lia. Qed.

(** The two halves of the rows of the attention, as [torch.split] cuts
    them. *)
Lemma split_xy (l : list elt) Q s :
  split1 (Tensor [Q; 2; s] l) [1; 1]
  = Ok [Tensor [Q; 1; s]
          (flat_map (fun q => take s (row_of (2 * s) l q)) (seq 0 Q));
        Tensor [Q; 1; s]
          (flat_map (fun q => take s (drop s (row_of (2 * s) l q))) (seq 0 Q))].
Proof.
  unfold split1. cbn [shape data sum_list_with id Nat.add Nat.eqb split_from].
  replace (numel [s]) with s by (simpl; lia).
  replace (1 * s) with s by lia. replace (0 * s) with 0 by lia.
  reflexivity.
Qed.

Lemma unravel1 b q : unravel [b] q = [q mod b].
Proof. cbn [unravel numel foldr]. rewrite Nat.div_1_r. reflexivity. Qed.

Lemma unravel2 b1 b2 q : unravel [b1; b2] q = [(q / b2) mod b1; q mod b2].
Proof.
  cbn [unravel numel foldr]. rewrite Nat.mul_1_r, Nat.div_1_r. reflexivity.
Qed.

Lemma bcast_index1 a x : bcast_index [a] [x] = if a =? 1 then 0 else x.
Proof.
  unfold bcast_index. cbn [length Nat.sub drop zip_with ravel numel foldr].
  lia.
Qed.

Lemma bcast_index2 a1 a2 x y :
  bcast_index [a1; a2] [x; y]
  = (if a1 =? 1 then 0 else x) * a2 + (if a2 =? 1 then 0 else y).
Proof.
  unfold bcast_index. cbn [length Nat.sub drop zip_with ravel numel foldr].
  lia.
Qed.

Lemma nth_onehot n i k : k < n -> nth k (onehot n i) r0 = if k =? i then r1 else r0.
Proof. intros H. unfold onehot. apply nth_tabulate. exact H. Qed.

Lemma tabulate_ext n (f g : nat -> elt) :
  (forall k, k < n -> f k = g k) -> tabulate n f = tabulate n g.
Proof.
  intros H. unfold tabulate. apply map_ext_in. intros k Hk.
  apply in_seq in Hk. apply H. lia.
Qed.

(** C3.  In [edge_msg_cell], take the query of duplicate [d] of table [tb]
    on edge [e], that is, row [(e * num_luts + tb) * lut_dup + d] of the
    attention the mask MLP returns.  When its x half is one-hot at [i], its
    y half is one-hot at [j], and the entries of the value grid of table
    [tb] are finite, the result of the lookup for that table and duplicate,
    entry [tb * lut_dup + d] of row [e] of [r], is numerically equal to
    entry [i * lut_sz + j] of that grid, which starts [tb * lut_sz ^ 2]
    entries after the axis block of the edge features.  The entries have to
    be finite: the lookup multiplies every entry of the grid by its mask,
    and an infinite entry times a zero of the mask is not a number. *)
Theorem lut_lookup_one_hot (self : t) (E W : nat) (ef a r : tensor)
    (e tb d i j : nat) :
  lut_lookup self E ef a = Ok r ->
  shape ef = [E; W] ->
  in_cell_num_luts self * (1 + 2 * in_cell_lut_sz self)
    + in_cell_num_luts self * in_cell_lut_sz self ^ 2 <= W ->
  shape a = [E * in_cell_num_luts self * lut_dup self; in_cell_lut_sz self * 2] ->
  e < E -> tb < in_cell_num_luts self -> d < lut_dup self ->
  i < in_cell_lut_sz self -> j < in_cell_lut_sz self ->
  row a ((e * in_cell_num_luts self + tb) * lut_dup self + d)
    = onehot (in_cell_lut_sz self) i ++ onehot (in_cell_lut_sz self) j ->
  (forall k, k < in_cell_lut_sz self ^ 2 ->
     finite (nth (in_cell_num_luts self * (1 + 2 * in_cell_lut_sz self)
                  + tb * in_cell_lut_sz self ^ 2 + k) (row ef e) r0)) ->
  req (nth (tb * lut_dup self + d) (row r e) r0)
      (nth (in_cell_num_luts self * (1 + 2 * in_cell_lut_sz self)
            + tb * in_cell_lut_sz self ^ 2 + i * in_cell_lut_sz self + j)
         (row ef e) r0).
Proof.
  set (s := in_cell_lut_sz self). set (L := in_cell_num_luts self).
  set (dup := lut_dup self). set (axis_len := L * (1 + 2 * s)).
  intros H Hef HW Ha He Ht Hd Hi Hj Hrow Hfin.
  unfold lut_lookup in H. fold s L dup axis_len in H.
  change [-1; 2; Z.of_nat s]%Z with ((-1)%Z :: map Z.of_nat [2; s]) in H.
  destruct (reshape a _) as [a1|] eqn:E1; [|discriminate].
  apply reshape_infer in E1 as (Hs0 & _ & ->).
  set (Q := E * L * dup) in *.
  assert (Hs : s <> 0) by lia.
  assert (HQ : numel (shape a) / numel [2; s] = Q).
  { rewrite Ha. cbn [numel foldr]. rewrite !Nat.mul_1_r.
    replace (Q * (s * 2)) with (Q * (2 * s)) by lia.
    apply Nat.div_mul. lia. }
  cbn [rbind] in H. rewrite HQ, split_xy in H. cbn [rbind] in H.
  change [-1; Z.of_nat s; 1]%Z with ((-1)%Z :: map Z.of_nat [s; 1]) in H.
  change [-1; 1; Z.of_nat s]%Z with ((-1)%Z :: map Z.of_nat [1; s]) in H.
  destruct (reshape _ (_ :: map Z.of_nat [s; 1])) as [ax|] eqn:Ex; [|discriminate].
  apply reshape_infer in Ex as (_ & _ & ->).
  destruct (reshape _ (_ :: map Z.of_nat [1; s])) as [ay|] eqn:Ey; [|discriminate].
  apply reshape_infer in Ey as (_ & _ & ->).
  cbn [rbind shape data] in H.
  assert (HQx : numel [Q; 1; s] / numel [s; 1] = Q).
  { cbn [numel foldr]. rewrite !Nat.mul_1_r, Nat.mul_1_l.
    apply Nat.div_mul. exact Hs. }
  assert (HQy : numel [Q; 1; s] / numel [1; s] = Q).
  { cbn [numel foldr]. rewrite !Nat.mul_1_r, !Nat.mul_1_l.
    apply Nat.div_mul. exact Hs. }
  rewrite HQx, HQy in H.
  set (dx := flat_map (fun q => take s (row_of (2 * s) (data a) q)) (seq 0 Q)) in H.
  set (dy := flat_map (fun q => take s (drop s (row_of (2 * s) (data a) q)))
               (seq 0 Q)) in H.
  destruct (matmul _ _) as [A|] eqn:EA; [|discriminate].
  apply (matmul_spec (Tensor [Q; s; 1] dx) (Tensor [Q; 1; s] dy) A
           [Q] [Q] s 1 s eq_refl eq_refl) in EA as (bs & Hbs & HsA & HA).
  unfold broadcast_shapes in Hbs. cbn [rev app broadcast_rev] in Hbs.
  rewrite bdim_refl in Hbs. cbn [rev app] in Hbs. injection Hbs as <-.
  cbn [rbind] in H.
  unfold slice_cols, dim2 in H. rewrite Hef in H.
  replace (axis_len `min` W) with axis_len in H by lia.
  replace (((axis_len + L * s ^ 2) `min` W) `max` axis_len)
    with (axis_len + L * s ^ 2) in H by lia.
  replace (axis_len + L * s ^ 2 - axis_len) with (L * s ^ 2) in H by lia.
  cbn [rbind] in H.
  set (dt := flat_map (fun i => take (L * s ^ 2) (drop axis_len (row ef i)))
               (seq 0 E)) in H.
  replace (Z.of_nat s ^ 2)%Z with (Z.of_nat (s ^ 2)) in H
    by (rewrite Nat2Z.inj_pow; reflexivity).
  change [-1; 1; 1; Z.of_nat (s ^ 2)]%Z
    with ((-1)%Z :: map Z.of_nat [1; 1; s ^ 2]) in H.
  change [-1; 4; Z.of_nat (s ^ 2); 1]%Z
    with ((-1)%Z :: map Z.of_nat [4; s ^ 2; 1]) in H.
  change [Z.of_nat E; Z.of_nat (L * dup)]
    with (map Z.of_nat [E; L * dup]) in H.
  destruct (reshape _ (_ :: map Z.of_nat [1; 1; s ^ 2])) as [T|] eqn:ET;
    [|discriminate].
  apply reshape_infer in ET as (_ & _ & ->).
  destruct (reshape A _) as [A4|] eqn:EA4; [|discriminate].
  apply reshape_infer in EA4 as (_ & Hmod & ->).
  cbn [rbind shape data] in H. rewrite HsA in H, Hmod.
  destruct (matmul _ _) as [R|] eqn:ER; [|discriminate].
  cbn [rbind] in H. apply reshape_exact in H as (Hnum & ->).
  assert (HB1 : numel [E; L * s ^ 2] / numel [1; 1; s ^ 2] = E * L).
  { cbn [numel foldr]. rewrite !Nat.mul_1_r, !Nat.mul_1_l.
    rewrite Nat.mul_assoc. apply Nat.div_mul. apply Nat.pow_nonzero. exact Hs. }
  rewrite HB1 in ER.
  assert (Hs2 : s ^ 2 = s * s) by (simpl; lia).
  assert (Hs2' : s * s <> 0) by nia.
  assert (HQ4 : Q mod 4 = 0).
  { cbn [app numel foldr] in Hmod. rewrite !Nat.mul_1_r, Hs2 in Hmod.
    rewrite Nat.Div0.mul_mod_distr_r in Hmod. nia. }
  assert (HB2 : numel ([Q] ++ [s; s]) / numel [4; s ^ 2; 1] = Q / 4).
  { cbn [app numel foldr]. rewrite !Nat.mul_1_r, Hs2.
    apply Nat.Div0.div_mul_cancel_r. exact Hs2'. }
  rewrite HB2 in ER.
  assert (HQ4' : Q = 4 * (Q / 4)).
  { pose proof (Nat.div_mod_eq Q 4). lia. }
  apply (matmul_spec (Tensor [E * L; 1; 1; s ^ 2] dt)
           (Tensor [Q / 4; 4; s ^ 2; 1] (data A)) R
           [E * L; 1] [Q / 4; 4] 1 (s ^ 2) 1 eq_refl eq_refl) in ER
    as (bs & Hbs & HsR & HR).
  unfold broadcast_shapes in Hbs. cbn [rev app broadcast_rev] in Hbs.
  change (bdim 1 4) with (@Ok nat 4) in Hbs.
  destruct (bdim (E * L) (Q / 4)) as [B|] eqn:EB; [|discriminate].
  cbn [rev app] in Hbs. injection Hbs as <-.
  rewrite HsR in Hnum. cbn [app numel foldr] in Hnum.
  assert (HB : B = Q / 4) by (unfold Q in *; lia).
  set (q := (e * L + tb) * dup + d) in *.
  assert (Het : e * L + tb < E * L) by nia.
  assert (Hq : q < Q).
  { unfold q, Q. apply Nat.lt_le_trans with ((e * L + tb) * dup + dup); [lia|].
    replace ((e * L + tb) * dup + dup) with (S (e * L + tb) * dup) by lia.
    apply Nat.mul_le_mono_r. lia. }
  (* the mask matrix of query [q] is one at [(i, j)] and zero elsewhere *)
  assert (Hwa : width a = 2 * s) by (unfold width; rewrite Ha; simpl; lia).
  assert (Hatt : forall k, k < s * s ->
            get A (q * (s * s) + k) = if k =? i * s + j then r1 else r0).
  { intros k Hk.
    assert (Hi' : k / s < s) by (apply Nat.Div0.div_lt_upper_bound; lia).
    assert (Hj' : k mod s < s) by (apply Nat.mod_upper_bound; exact Hs).
    pose proof (Nat.div_mod_eq k s) as Hkdm.
    replace k with (k / s * s + k mod s) at 1 by lia.
    rewrite HA by (cbn [numel foldr]; lia).
    cbn [tabulate seq map sum_list foldr].
    rewrite unravel1, bcast_index1.
    replace (if Q =? 1 then 0 else q mod Q) with q
      by (destruct (Nat.eqb_spec Q 1); [lia|rewrite Nat.mod_small; lia]).
    unfold get. cbn [data].
    replace (q * (s * 1) + k / s * 1 + 0) with (q * s + k / s) by lia.
    replace (q * (1 * s) + 0 * s + k mod s) with (q * s + k mod s) by lia.
    unfold dx, dy.
    rewrite (nth_flat_map_seq _ s) by
      (try (intros y; rewrite length_take, length_row_of); lia).
    rewrite (nth_flat_map_seq _ s) by
      (try (intros y; rewrite length_take, length_drop, length_row_of); lia).
    rewrite <- Hwa. fold (row a q). rewrite Hrow.
    rewrite !nth_lookup, !lookup_take_lt, lookup_drop by lia.
    rewrite lookup_app_l by (unfold onehot; rewrite length_tabulate; lia).
    rewrite lookup_app_r by (unfold onehot; rewrite length_tabulate; lia).
    replace (s + k mod s - length (onehot s i)) with (k mod s)
      by (unfold onehot; rewrite length_tabulate; lia).
    rewrite <- !nth_lookup, !nth_onehot by lia.
    assert (Hdiv : k = i * s + j -> k / s = i /\ k mod s = j).
    { intros ->. split.
      - rewrite Nat.div_add_l, Nat.div_small by lia. lia.
      - rewrite Nat.add_comm, Nat.Div0.mod_add, Nat.mod_small by lia. lia. }
    destruct (Nat.eqb_spec (k / s) i) as [Hei|Hei];
      destruct (Nat.eqb_spec (k mod s) j) as [Hej|Hej];
      destruct (Nat.eqb_spec k (i * s + j)) as [Hek|Hek];
      rewrite ?rmul_r1_r1, ?rmul_r1_r0, ?rmul_r0_r1, ?rmul_r0_r0,
        ?radd_r1_r0, ?radd_r0_r0; try reflexivity; exfalso.
    all: try (destruct (Hdiv Hek); congruence).
    subst i j. lia. }
  (* the table the query is looked up in *)
  assert (Hoa : (if E * L =? 1 then 0 else (q / 4) mod B) = e * L + tb).
  { unfold bdim in EB.
    destruct (Nat.eqb_spec (E * L) 1) as [H1|H1]; [lia|].
    destruct (Nat.eqb_spec (E * L) (Q / 4)) as [H2|H2].
    - assert (Hdup : dup = 4) by (unfold Q in HQ4'; nia).
      unfold q. rewrite Hdup, Nat.div_add_l, (Nat.div_small d) by lia.
      rewrite Nat.add_0_r. apply Nat.mod_small. lia.
    - destruct (Nat.eqb_spec (Q / 4) 1) as [H3|H3]; [|discriminate].
      injection EB as EB. lia. }
  assert (Hob : (if Q / 4 =? 1 then 0 else (q / 4) mod B) * 4
                + (if 4 =? 1 then 0 else q mod 4) = q).
  { change (4 =? 1) with false. cbv iota.
    pose proof (Nat.div_mod_eq q 4) as Hq4.
    destruct (Nat.eqb_spec (Q / 4) 1) as [H1|H1].
    - assert (q / 4 = 0) by (apply Nat.div_small; lia). lia.
    - rewrite Nat.mod_small; [lia|].
      rewrite HB. apply Nat.Div0.div_lt_upper_bound. lia. }
  assert (Htab : forall k, k < s * s ->
            nth ((e * L + tb) * (s * s) + k) dt r0
            = nth (axis_len + tb * s ^ 2 + k) (row ef e) r0).
  { intros k Hk. unfold dt.
    replace ((e * L + tb) * (s * s) + k)
      with (e * (L * s ^ 2) + (tb * s ^ 2 + k)) by (rewrite Hs2; lia).
    assert (Hlen : forall y, length (take (L * s ^ 2) (drop axis_len (row ef y)))
                             = L * s ^ 2).
    { intros y. rewrite length_take, length_drop, length_row.
      unfold width. rewrite Hef. cbn [tail numel foldr]. lia. }
    rewrite (nth_flat_map_seq _ (L * s ^ 2)); [|exact Hlen|exact He|].
    - rewrite !nth_lookup, lookup_take_lt, lookup_drop.
      + f_equal. f_equal. lia.
      + rewrite Hs2. nia.
    - rewrite Hs2. nia. }
  unfold row at 1. unfold width. cbn [shape tail data numel foldr].
  rewrite nth_row_of by nia.
  replace (e * (L * dup * 1) + (tb * dup + d)) with (q * (1 * 1) + (0 * 1 + 0))
    by (unfold q; lia).
  fold (get R (q * (1 * 1) + (0 * 1 + 0))).
  rewrite HR by (cbn [numel foldr]; lia).
  rewrite unravel2, !bcast_index2. rewrite Hob.
  change (1 =? 1) with true. cbv iota. rewrite Hoa.
  rewrite (tabulate_ext _ _
             (fun k => rmul (nth (axis_len + tb * s ^ 2 + k) (row ef e) r0)
                         (if k =? i * s + j then r1 else r0))).
  - replace (axis_len + tb * s ^ 2 + i * s + j)
      with (axis_len + tb * s ^ 2 + (i * s + j)) by lia.
    apply (sum_list_select (s ^ 2)
             (fun k => nth (axis_len + tb * s ^ 2 + k) (row ef e) r0));
      [rewrite Hs2; nia|exact Hfin].
  - intros k Hk. rewrite Hs2 in Hk. unfold get. cbn [data].
    replace (((e * L + tb) * 1 + 0) * (1 * s ^ 2) + 0 * s ^ 2 + k)
      with ((e * L + tb) * (s * s) + k) by (rewrite Hs2; lia).
    replace (q * (s ^ 2 * 1) + k * 1 + 0) with (q * (s * s) + k)
      by (rewrite Hs2; lia).
    rewrite Htab by exact Hk. fold (get A (q * (s * s) + k)).
    rewrite Hatt by exact Hk. reflexivity.
Qed.
End Lookup.

(** ** The shape of the attention *)

Section Attention.
Context {D : Dtype}.

Lemma apply_linear_shape i o w b (x y : tensor) :
  MLP.apply_layer (MLP.Linear i o w b) x = Ok y ->
  exists n, shape x = [n; i] /\ shape y = [n; o].
Proof.
  simpl. unfold dim2. destruct (shape x) as [|n [|wx [|]]]; try discriminate.
  destruct (Nat.eqb_spec wx i) as [->|]; [|discriminate].
  intros [= <-]. exists n. auto.
Qed.

Lemma last_default (l : list nat) d d' : l <> [] -> List.last l d = List.last l d'.
Proof.
  induction l as [|a [|b l] IH]; intros H; [congruence|reflexivity|].
  apply IH. discriminate.
Qed.

(** An MLP built for the widths [prev :: rest] maps [n] rows of width
    [prev] to [n] rows of the last width. *)
Lemma build_forward_shape p rest : forall i prev (x y : tensor),
  rest <> [] ->
  MLP.forward (MLP.build p i prev rest) x = Ok y ->
  exists n, shape x = [n; prev] /\ shape y = [n; List.last rest prev].
Proof.
  induction rest as [|s rest IH]; intros i prev x y Hne H; [congruence|].
  cbn [MLP.build] in H.
  change (MLP.forward (?l :: ?ls) x)
    with (match MLP.apply_layer l x with
          | Ok y => MLP.forward ls y
          | Err e => Err e
          end) in H.
  destruct (MLP.apply_layer _ x) as [x1|] eqn:E1; [|discriminate].
  apply apply_linear_shape in E1 as (n & Hx & Hx1).
  exists n. split; [exact Hx|].
  destruct rest as [|s' rest].
  - simpl in H. injection H as <-. exact Hx1.
  - cbn [app] in H. simpl in H.
    apply IH in H as (n' & Hx1' & Hy); [|discriminate].
    simpl in Hx1'. rewrite Hx1 in Hx1'. injection Hx1' as <-.
    rewrite Hy. f_equal. f_equal.
    change (List.last (s :: s' :: rest) prev) with (List.last (s' :: rest) prev).
    apply last_default. discriminate.
Qed.

Lemma cat1_rows (t0 : tensor) ts (x : tensor) n w0 :
  cat1 (t0 :: ts) = Ok x -> shape t0 = [n; w0] -> exists w, shape x = [n; w].
Proof.
  unfold cat1, dim2 at 1. intros H Ht. rewrite Ht in H.
  destruct (forallb _ _); [|discriminate].
  injection H as <-. simpl. eauto.
Qed.

(** In a model built by [SignalProp.init], the attention has one row per
    query and [2 * in_cell_lut_sz] columns. *)
Lemma lut_attention_shape in_nf num_luts lut_sz out_nf out_cef h1 h2 lut_dup
    p1 p2 p3 p4 p5 (ef q a : tensor) n :
  SignalProp.lut_attention
    (SignalProp.init in_nf num_luts lut_sz out_nf out_cef h1 h2 lut_dup
       p1 p2 p3 p4 p5) ef q = Ok a ->
  shape q = [n; 2] ->
  shape a = [n; lut_sz * 2].
Proof.
  unfold SignalProp.lut_attention, rbind. intros H Hq.
  destruct (slice_cols ef 0 _) as [x1|]; [|discriminate].
  destruct (reshape x1 _) as [x2|]; [|discriminate].
  destruct (repeat1 x2 _) as [x3|]; [|discriminate].
  destruct (reshape x3 _) as [x4|]; [|discriminate].
  destruct (cat1 [q; x4]) as [x|] eqn:Ex; [|discriminate].
  apply (cat1_rows q [x4] x n 2) in Ex as (w & Hx); [|exact Hq].
  cbn [SignalProp.MLP_lut_attention SignalProp.init MLP.init] in H.
  apply build_forward_shape in H as (n' & Hx' & Ha); [|discriminate].
  rewrite Hx in Hx'. injection Hx' as <- _. exact Ha.
Qed.

End Attention.

(** ** Runs that return *)

Section Returns.
Context {D : Dtype}.

Lemma is_ok_inv {A} (r : res (A * graph)) :
  is_ok r = true -> exists a g', r = Ok (a, g').
Proof. destruct r as [[a g']|e]; [eauto|discriminate]. Qed.

Lemma local_scope_value {A} (m : M A) g a :
  value (local_scope m g) = Ok a -> local_scope m g = Ok (a, g).
Proof.
  unfold local_scope, value. destruct (m g) as [[a0 g0]|e]; [|discriminate].
  intros [= <-]. reflexivity.
Qed.

Lemma NetConv_forward_value (self : NetConv.t) ts nf g out :
  value (NetConv.forward self ts nf g) = Ok out ->
  NetConv.forward self ts nf g = Ok (out, g).
Proof. apply local_scope_value. Qed.

Lemma SignalProp_forward_value (self : SignalProp.t) ts nf gt g out :
  value (SignalProp.forward self ts nf gt g) = Ok out ->
  SignalProp.forward self ts nf gt g = Ok (out, g).
Proof.
  unfold SignalProp.forward.
  destruct (length (topo ts) mod 2 =? 0); [|discriminate].
  apply local_scope_value.
Qed.

End Returns.

(** ** Whole models leave the graph alone *)

Section Restores.
Context {D : Dtype}.

Lemma restores_ret {A} (a : A) : restores (ret a).
Proof. intros g a' g' [= _ <-]. reflexivity. Qed.

Lemma restores_lift {A} (r : res A) : restores (lift r).
Proof. intros g a g'. unfold lift. destruct r; [|discriminate]. congruence. Qed.

Lemma restores_bind {A B} (m : M A) (k : A -> M B) :
  restores m -> (forall a, restores (k a)) -> restores (bind m k).
Proof.
  intros Hm Hk g b g'. unfold bind.
  destruct (m g) as [[a g1]|e] eqn:E; [|discriminate].
  intros H. apply Hm in E as ->. eapply Hk. exact H.
Qed.

Lemma restores_local_scope {A} (m : M A) : restores (local_scope m).
Proof. intros g a g'. apply local_scope_restores. Qed.

Lemma restores_get_ndata k : restores (get_ndata k).
Proof.
  intros g a g'. unfold get_ndata. destruct (field (ndata g) k); [|discriminate].
  congruence.
Qed.

Lemma restores_NetConv self ts nf : restores (NetConv.forward self ts nf).
Proof. apply restores_local_scope. Qed.

Lemma restores_SignalProp self ts nf gt :
  restores (SignalProp.forward self ts nf gt).
Proof.
  unfold SignalProp.forward.
  destruct (length (topo ts) mod 2 =? 0); [apply restores_local_scope|].
  intros g a g'. discriminate.
Qed.

Lemma restores_AllConv self nf : restores (AllConv.forward self nf).
Proof. apply restores_local_scope. Qed.

Lemma restores_loop ls : forall x, restores (DeepGCNII.loop ls x).
Proof.
  induction ls as [|l ls IH]; intros x; cbn [DeepGCNII.loop].
  - apply restores_ret.
  - apply restores_bind; [|exact IH]. unfold DeepGCNII.residual.
    apply restores_bind; [apply restores_get_ndata|]. intros nf.
    apply restores_bind; [apply restores_lift|]. intros c.
    apply restores_bind; [apply restores_AllConv|]. intros y.
    apply restores_lift.
Qed.

(** X1.  [TimingGCN.forward] opens no local scope of its own, and still
    the graph it returns with is the graph it was called on: it reads [nf]
    and every write is made inside the scope of a component. *)
Theorem TimingGCN_restores_graph (self : TimingGCN.t) (ts : schedule)
    (groundtruth : bool) (g g' : graph) (out : tensor * tensor * tensor) :
  TimingGCN.forward self ts groundtruth g = Ok (out, g') -> g' = g.
Proof.
  revert g out g'. change (restores (TimingGCN.forward self ts groundtruth)).
  unfold TimingGCN.forward.
  apply restores_bind; [apply restores_get_ndata|]. intros nf0.
  apply restores_bind; [apply restores_NetConv|]. intros x1.
  apply restores_bind; [apply restores_NetConv|]. intros x2.
  apply restores_bind; [apply restores_NetConv|]. intros x3.
  apply restores_bind; [apply restores_lift|]. intros nd.
  apply restores_bind; [apply restores_lift|]. intros nf1.
  apply restores_bind; [apply restores_SignalProp|]. intros o.
  apply restores_ret.
Qed.

(** X2.  [DeepGCNII.forward], whatever its number of layers, returns with
    the graph it was called on: every layer is an [AllConv.forward], which
    works in a local scope, and the loop itself only reads [nf]. *)
Theorem DeepGCNII_restores_graph (self : DeepGCNII.t) (g g' : graph)
    (out : tensor) :
  DeepGCNII.forward self g = Ok (out, g') -> g' = g.
Proof.
  revert g out g'. change (restores (DeepGCNII.forward self)).
  unfold DeepGCNII.forward.
  apply restores_bind; [apply restores_get_ndata|]. intros nf.
  apply restores_bind; [apply restores_AllConv|]. intros x.
  apply restores_bind; [apply restores_loop|]. intros x'.
  apply restores_AllConv.
Qed.

End Restores.

(** ** What SignalProp.forward needs from the graph *)

Section Needs.
Context {D : Dtype}.
Import SignalProp.

Lemma apply_nodes_graph f nodes (g g' : graph) :
  apply_nodes f nodes g = Ok (tt, g') ->
  num_nodes g' = num_nodes g /\ edges g' = edges g /\ edata g' = edata g.
Proof.
  unfold apply_nodes. destruct (valid_ids _ _); [|discriminate].
  destruct (f _) as [d|]; [|discriminate].
  intros H. apply set_n_repr_inv in H. tauto.
Qed.

Lemma pull_graph nodes mf rf etype (g g' : graph) :
  pull nodes mf rf etype g = Ok (tt, g') ->
  num_nodes g' = num_nodes g /\ edges g' = edges g /\ edata g' = edata g.
Proof.
  unfold pull. destruct nodes as [|x nodes].
  - intros [= <-]. auto.
  - unfold bind.
    destruct (get_etype etype g) as [[[e el] g1]|] eqn:E; [|discriminate].
    apply get_etype_graph in E as ->.
    destruct (valid_ids _ _); [|discriminate].
    destruct (message_passing _ _ _ _ _ _ _) as [d|]; [|discriminate].
    intros H. apply set_n_repr_inv in H. tauto.
Qed.

Lemma init_level0_graph self ts nf (g g' : graph) :
  init_level0 self ts nf g = Ok (tt, g') ->
  num_nodes g' = num_nodes g /\ edges g' = edges g /\ edata g' = edata g.
Proof.
  unfold init_level0, bind, gets. rewrite set_ndata_unfold.
  destruct (shape nf) as [|n0 sh0]; [discriminate|].
  destruct (n0 =? num_nodes g); [|discriminate].
  rewrite set_ndata_unfold. simpl (shape (zeros _)).
  cbn [num_nodes]. rewrite Nat.eqb_refl.
  intros H. apply apply_nodes_graph in H. exact H.
Qed.

(** X3.  [forward] copies the ground truth of the primary inputs in both
    modes, so a graph without the node feature [n_atslew] makes it raise:
    it never returns, and when [nf] has a row per node and the primary
    inputs are nodes of the graph the error is the [KeyError] of
    [node_skip_level_o], before any stage is run, even for an empty
    [pi_nodes]. *)
Theorem forward_needs_n_atslew (self : t) (ts : schedule) (nf : tensor)
    (groundtruth : bool) (g : graph) :
  ndata g !! "n_atslew" = None ->
  is_ok (forward self ts nf groundtruth g) = false
  /\ (length (topo ts) mod 2 = 0 ->
      hd_error (shape nf) = Some (num_nodes g) ->
      valid_ids (num_nodes g) (pi_nodes ts) = true ->
      forward self ts nf groundtruth g = Err (KeyError "n_atslew")).
Proof.
  intros Hn.
  assert (Hinit : forall r, init_level0 self ts nf g = r ->
            is_ok r = false
            /\ (hd_error (shape nf) = Some (num_nodes g) ->
                valid_ids (num_nodes g) (pi_nodes ts) = true ->
                r = Err (KeyError "n_atslew"))).
  { intros r <-. unfold init_level0, bind, gets. rewrite set_ndata_unfold.
    destruct (shape nf) as [|n0 sh0]; [split; [reflexivity|discriminate]|].
    destruct (Nat.eqb_spec n0 (num_nodes g)) as [->|Hne];
      [|split; [reflexivity|intros [= ?]; congruence]].
    rewrite set_ndata_unfold. simpl (shape (zeros _)).
    cbn [num_nodes]. rewrite Nat.eqb_refl.
    unfold apply_nodes. cbn [num_nodes].
    destruct (valid_ids _ _); [|split; [reflexivity|discriminate]].
    unfold node_skip_level_o, node_batch, field. cbn [node_data ndata].
    rewrite lookup_fmap, !lookup_insert_ne, Hn by discriminate.
    split; reflexivity. }
  destruct (Hinit _ eq_refl) as [H1 H2].
  unfold forward. destruct (length (topo ts) mod 2 =? 0) eqn:Ev.
  - unfold local_scope, forward_body, bind.
    destruct (init_level0 self ts nf g) as [[[] g1]|e]; [discriminate|].
    split; [reflexivity|]. intros _ Hs Hv.
    injection (H2 Hs Hv) as ->. reflexivity.
  - split; [reflexivity|]. intros Hev. apply Nat.eqb_neq in Ev. congruence.
Qed.

(** X4.  The cell delays [forward] returns are the edge feature [efce],
    which only the cell stage writes.  With [groundtruth=False] and at most
    two levels the loop runs no cell stage, so on a graph whose [cell_out]
    edges carry no [efce] of their own the call raises instead of
    returning predictions. *)
Theorem forward_without_cell_stage_raises (self : t) (ts : schedule)
    (nf : tensor) (g : graph) :
  length (topo ts) <= 2 ->
  eframe g "cell_out" !! "efce" = None ->
  is_ok (forward self ts nf false g) = false.
Proof.
  intros Hlen Hef. unfold forward.
  destruct (length (topo ts) mod 2 =? 0); [|reflexivity].
  unfold local_scope, forward_body, bind.
  destruct (init_level0 self ts nf g) as [[[] g1]|e] eqn:E1; [|reflexivity].
  apply init_level0_graph in E1 as (_ & _ & Hd1).
  destruct (propagate self ts false g1) as [[[] g2]|e] eqn:E2; [|reflexivity].
  assert (Hd2 : edata g2 = edata g1).
  { destruct (topo ts) as [|l0 lvls] eqn:Hts.
    - unfold propagate in E2. rewrite Hts in E2. simpl in E2.
      injection E2 as <-. reflexivity.
    - rewrite (propagate_levels self ts l0 lvls g1 Hts) in E2.
      destruct lvls as [|l1 [|l2 lvls]]; simpl in Hlen; try lia.
      + injection E2 as <-. reflexivity.
      + cbn [levels_in_order] in E2. unfold bind in E2.
        change (stage_of 1) with Net in E2. cbn [run_stage] in E2.
        destruct (prop_net self l1 false g1) as [[[] g3]|] eqn:E3;
          [|discriminate].
        injection E2 as <-. apply pull_graph in E3. tauto. }
  unfold outputs, bind, get_ndata, get_edata.
  destruct (field (ndata g2) "new_nf"); [|reflexivity].
  destruct (edges g2 !! "cell_out"); [|reflexivity].
  unfold eframe in *. rewrite Hd2, Hd1. unfold field. rewrite Hef. reflexivity.
Qed.

End Needs.

Section DeepEdge.
Context {D : Dtype}.
Import DeepGCNII.

(** X5.  For [n_layers] of 2 or less, zero and negative values included,
    [range(n_layers - 2)] is empty: the model has no intermediate layer and
    [forward] is [layern] applied to the result of [layer0]. *)
Theorem deep_gcnii_no_intermediate (N : Z) (out_nf : nat)
    (p0 pn : MLP.params * MLP.params) (p : nat -> MLP.params * MLP.params)
    (g : graph) :
  (N <= 2)%Z ->
  layers (init N out_nf p0 p pn) = []
  /\ forward (init N out_nf p0 p pn) g
     = (do nf <- get_ndata "nf";
        do x <- AllConv.forward (AllConv.init 10 16 12 10 10 p0) nf;
        AllConv.forward (AllConv.init 16 out_nf 12 10 10 pn) x) g.
Proof.
  intros HN.
  assert (H : layers (init N out_nf p0 p pn) = []).
  { unfold init, range. cbn [layers].
    replace (Z.to_nat (N - 2)) with 0 by lia. reflexivity. }
  split; [exact H|]. unfold forward. rewrite H. reflexivity.
Qed.

End DeepEdge.

(** ** class MLP: shapes and layers *)

Section MLPShape.
Context {D : Dtype}.

Lemma apply_linear_ok i o w b (x : tensor) n :
  shape x = [n; i] ->
  exists y, MLP.apply_layer (MLP.Linear i o w b) x = Ok y
            /\ shape y = [n; o] /\ length (data y) = n * o.
Proof.
  intros Hx. simpl. unfold dim2. rewrite Hx, Nat.eqb_refl.
  eexists. split; [reflexivity|]. split; [reflexivity|]. simpl.
  apply length_flat_map_seq. intros r. apply length_tabulate.
Qed.

Lemma build_forward_ok p rest : forall i prev (x : tensor) n,
  rest <> [] -> shape x = [n; prev] ->
  exists y, MLP.forward (MLP.build p i prev rest) x = Ok y
            /\ shape y = [n; List.last rest prev]
            /\ length (data y) = n * List.last rest prev.
Proof.
  induction rest as [|s rest IH]; intros i prev x n Hne Hx; [congruence|].
  cbn [MLP.build].
  change (MLP.forward (?l :: ?ls) x)
    with (match MLP.apply_layer l x with
          | Ok y => MLP.forward ls y
          | Err e => Err e
          end).
  destruct (apply_linear_ok prev s
              (flat_map (fun o => tabulate prev (MLP.weight_init p i o)) (seq 0 s))
              (tabulate s (MLP.bias_init p i)) x n Hx) as (x1 & -> & Hx1 & Hl1).
  destruct rest as [|s' rest].
  - simpl. exists x1. auto.
  - cbn [app]. simpl (MLP.forward (MLP.LeakyReLU :: _) _).
    destruct (IH (S i) s (Tensor (shape x1) (map rleaky (data x1))) n)
      as (y & Hy & Hsy & Hly); [discriminate|exact Hx1|].
    exists y. split; [exact Hy|].
    change (List.last (s :: s' :: rest) prev) with (List.last (s' :: rest) prev).
    rewrite (last_default (s' :: rest) prev s) by discriminate. auto.
Qed.

(** X6.  On a batch of feature vectors (a rank-2 input), an MLP built for
    the widths [s0, ..., sk], [k >= 1], returns exactly when the vectors
    have [s0] entries, and then maps the [n] rows to [n] rows of [sk]
    entries; on any other width it raises the shape error of its first
    linear layer.  The batch size is free, the feature width is not. *)
Theorem MLP_forward_shape (s0 : nat) (rest : list nat) (p : MLP.params)
    (x : tensor) (n w : nat) :
  rest <> [] ->
  shape x = [n; w] ->
  (w = s0 ->
     exists y, MLP.forward (MLP.init (s0 :: rest) p) x = Ok y
               /\ shape y = [n; List.last rest s0] /\ well_formed y)
  /\ (w <> s0 ->
       MLP.forward (MLP.init (s0 :: rest) p) x = Err RuntimeError).
Proof.
  intros Hne Hx. split.
  - intros ->. cbn [MLP.init].
    destruct (build_forward_ok p rest 1 s0 x n Hne Hx) as (y & Hy & Hs & Hl).
    exists y. split; [exact Hy|]. split; [exact Hs|].
    unfold well_formed. rewrite Hl, Hs. simpl. lia.
  - intros Hw. destruct rest as [|s rest]; [congruence|].
    cbn [MLP.init MLP.build]. simpl. unfold dim2. rewrite Hx.
    destruct (Nat.eqb_spec w s0); [contradiction|reflexivity].
Qed.

Lemma build_layers p rest : forall i prev,
  length (filter (fun l => is_linear l = true) (MLP.build p i prev rest))
  = length rest
  /\ length (MLP.build p i prev rest) = 2 * length rest - 1
  /\ (rest <> [] ->
      is_linear <$> last (MLP.build p i prev rest) = Some true).
Proof.
  induction rest as [|s rest IH]; intros i prev;
    [simpl; repeat split; congruence|].
  cbn [MLP.build]. destruct (IH (S i) s) as (H1 & H2 & H3).
  destruct rest as [|s' rest].
  - cbn [app MLP.build]. rewrite filter_cons_True by reflexivity.
    simpl. auto.
  - cbn [app]. rewrite filter_cons_True by reflexivity.
    rewrite filter_cons_False by discriminate.
    cbn [length] in *. rewrite H1, H2.
    split; [reflexivity|]. split; [lia|]. intros _.
    rewrite !last_cons. destruct (last (MLP.build p (S i) s (s' :: rest)));
      [apply H3; discriminate|].
    specialize (H3 ltac:(discriminate)). discriminate.
Qed.

(** X7.  [MLP(s0, ..., sk)] has [k] linear layers with [k - 1] leaky
    units between them, so its last layer is linear and its outputs are not
    passed through an activation.  Built with fewer than two widths it has
    no layer at all and returns its input. *)
Theorem MLP_init_layers (sizes : list nat) (p : MLP.params) :
  length (filter (fun l => is_linear l = true) (MLP.init sizes p))
  = length sizes - 1
  /\ length (MLP.init sizes p) = 2 * (length sizes - 1) - 1
  /\ (2 <= length sizes ->
      is_linear <$> last (MLP.init sizes p) = Some true)
  /\ (length sizes <= 1 -> forall x, MLP.forward (MLP.init sizes p) x = Ok x).
Proof.
  destruct sizes as [|s0 rest]; [simpl; repeat split; auto; lia|].
  cbn [MLP.init length]. destruct (build_layers p rest 1 s0) as (H1 & H2 & H3).
  replace (S (length rest) - 1) with (length rest) by lia.
  split; [exact H1|]. split; [exact H2|]. split.
  - intros Hl. apply H3. destruct rest; [simpl in Hl; lia|discriminate].
  - intros Hl x. destruct rest; [reflexivity|simpl in Hl; lia].
Qed.

End MLPShape.

(** ** Shapes of the node features *)

Section NodeShapes.
Context {D : Dtype}.

Lemma keeps_shapes_refl (fr : gmap string tensor) : keeps_shapes fr fr.
Proof. intros k c H. eauto. Qed.

Lemma keeps_shapes_trans (fr1 fr2 fr3 : gmap string tensor) :
  keeps_shapes fr1 fr2 -> keeps_shapes fr2 fr3 -> keeps_shapes fr1 fr3.
Proof.
  intros H12 H23 k c Hk.
  destruct (H12 k c Hk) as (c2 & Hk2 & Hs2).
  destruct (H23 k c2 Hk2) as (c3 & Hk3 & Hs3).
  exists c3. split; congruence.
Qed.

Lemma write_field_shapes n ids (fr fr' : gmap string tensor) kv :
  write_field n (Some ids) fr kv = Ok fr' -> keeps_shapes fr fr'.
Proof.
  destruct kv as [k t]. unfold write_field.
  destruct (shape t) as [|m sh]; [discriminate|].
  destruct (m =? length ids); [|discriminate].
  intros H j c Hj. destruct (fr !! k) as [c0|] eqn:Hk.
  - destruct (bool_decide _); [|discriminate]. injection H as <-.
    destruct (decide (j = k)) as [->|Hne].
    + rewrite lookup_insert_eq. replace c with c0 by congruence. eauto.
    + rewrite lookup_insert_ne by congruence. eauto.
  - injection H as <-.
    destruct (decide (j = k)) as [->|Hne]; [congruence|].
    rewrite lookup_insert_ne by congruence. eauto.
Qed.

Lemma write_shapes n ids d : forall (fr fr' : gmap string tensor),
  write n (Some ids) fr d = Ok fr' -> keeps_shapes fr fr'.
Proof.
  induction d as [|kv d IH]; intros fr fr' H; simpl in H.
  - injection H as <-. apply keeps_shapes_refl.
  - destruct (write_field n (Some ids) fr kv) as [fr1|] eqn:E; [|discriminate].
    eapply keeps_shapes_trans; [eapply write_field_shapes; exact E|].
    eapply IH; exact H.
Qed.

Lemma keeps_layout_refl (g : graph) : keeps_layout g g.
Proof. repeat split. apply keeps_shapes_refl. Qed.

Lemma keeps_layout_trans (g1 g2 g3 : graph) :
  keeps_layout g1 g2 -> keeps_layout g2 g3 -> keeps_layout g1 g3.
Proof.
  intros (N1 & E1 & S1) (N2 & E2 & S2).
  repeat split; [congruence..|]. eapply keeps_shapes_trans; eassumption.
Qed.

Lemma set_n_repr_shapes ids d (g g' : graph) :
  set_n_repr (Some ids) d g = Ok (tt, g') ->
  keeps_layout g g'.
Proof.
  intros H. apply set_n_repr_inv in H as (Hn & He & _ & Hw).
  repeat split; [exact Hn|exact He|]. eapply write_shapes; exact Hw.
Qed.

Lemma apply_nodes_shapes f nodes (g g' : graph) :
  apply_nodes f nodes g = Ok (tt, g') ->
  keeps_layout g g'.
Proof.
  unfold apply_nodes. destruct (valid_ids _ _); [|discriminate].
  destruct (f _) as [d|]; [|discriminate]. apply set_n_repr_shapes.
Qed.

Lemma pull_shapes nodes mf rf etype (g g' : graph) :
  pull nodes mf rf etype g = Ok (tt, g') ->
  keeps_layout g g'.
Proof.
  unfold pull. destruct nodes as [|x nodes].
  - intros [= <-]. apply keeps_layout_refl.
  - unfold bind.
    destruct (get_etype etype g) as [[[e el] g1]|] eqn:E; [|discriminate].
    apply get_etype_graph in E as ->.
    destruct (valid_ids _ _); [|discriminate].
    destruct (message_passing _ _ _ _ _ _ _) as [d|]; [|discriminate].
    apply set_n_repr_shapes.
Qed.

Lemma send_and_recv_shapes es mf rf etype (g g' : graph) :
  send_and_recv es mf rf etype g = Ok (tt, g') ->
  keeps_layout g g'.
Proof.
  unfold send_and_recv, bind.
  destruct (get_etype etype g) as [[[e el] g1]|] eqn:E; [|discriminate].
  apply get_etype_graph in E as ->.
  destruct (rmapM (edge_id el) es) as [[|i eids]|]; [| |discriminate].
  - intros [= <-]. apply keeps_layout_refl.
  - destruct (message_passing _ _ _ _ _ _ _) as [d|]; [|discriminate].
    apply set_n_repr_shapes.
Qed.

Lemma apply_edges_shapes f es etype (g g' : graph) :
  apply_edges f es etype g = Ok (tt, g') ->
  keeps_layout g g'.
Proof.
  intros H. apply (apply_edges_keeps _ _ _ _ _ 0) in H as (Hn & He & Hr).
  repeat split; [exact Hn|exact He|]. intros k c Hk.
  destruct (Hr k c Hk) as (c' & Hc' & Hs & _). eauto.
Qed.

Lemma prop_net_shapes self nodes gt (g g' : graph) :
  SignalProp.prop_net self nodes gt g = Ok (tt, g') ->
  keeps_layout g g'.
Proof. apply pull_shapes. Qed.

Lemma prop_cell_shapes self nodes gt (g g' : graph) :
  SignalProp.prop_cell self nodes gt g = Ok (tt, g') ->
  keeps_layout g g'.
Proof.
  unfold SignalProp.prop_cell, bind. intros H.
  destruct (in_edges nodes (Some "cell_out") g) as [[es g0]|] eqn:E0;
    [|discriminate].
  apply in_edges_spec in E0 as [-> _].
  destruct (apply_edges _ (Some es) _ g) as [[[] g1]|] eqn:E1; [|discriminate].
  apply apply_edges_shapes in E1.
  destruct (send_and_recv es (copy_e "efc1" "efc1") _ _ g1) as [[[] g2]|] eqn:E2;
    [|discriminate].
  apply send_and_recv_shapes in E2.
  destruct (send_and_recv es (copy_e "efc2" "efc2") _ _ g2) as [[[] g3]|] eqn:E3;
    [|discriminate].
  apply send_and_recv_shapes in E3.
  apply apply_nodes_shapes in H.
  eauto using keeps_layout_trans.
Qed.

Lemma levels_in_order_shapes self gt lvls : forall i (g g' : graph),
  SignalProp.levels_in_order self gt i lvls g = Ok (tt, g') ->
  keeps_layout g g'.
Proof.
  induction lvls as [|l lvls IH]; intros i g g' H; simpl in H.
  - injection H as <-. apply keeps_layout_refl.
  - unfold bind in H.
    destruct (SignalProp.run_stage self gt (SignalProp.stage_of i) l g)
      as [[[] g1]|] eqn:E; [|discriminate].
    apply keeps_layout_trans with g1; [|eapply IH; exact H].
    destruct (SignalProp.stage_of i);
      [eapply prop_net_shapes|eapply prop_cell_shapes]; exact E.
Qed.

Lemma propagate_shapes self ts gt (g g' : graph) :
  SignalProp.propagate self ts gt g = Ok (tt, g') ->
  keeps_layout g g'.
Proof.
  destruct gt.
  - unfold SignalProp.propagate, bind. intros H.
    destruct (SignalProp.prop_net self (input_nodes ts) true g)
      as [[[] g1]|] eqn:E; [|discriminate].
    apply prop_net_shapes in E. apply prop_cell_shapes in H.
    eauto using keeps_layout_trans.
  - destruct (topo ts) as [|l0 lvls] eqn:Hts.
    + unfold SignalProp.propagate. rewrite Hts. simpl.
      intros [= <-]. apply keeps_layout_refl.
    + rewrite (propagate_levels self ts l0 lvls g Hts).
      apply levels_in_order_shapes.
Qed.

Lemma SignalProp_forward_inv (self : SignalProp.t) ts nf gt (g g' : graph) out :
  SignalProp.forward self ts nf gt g = Ok (out, g') ->
  length (topo ts) mod 2 = 0 /\ g' = g
  /\ exists g2, SignalProp.forward_body self ts nf gt g = Ok (out, g2).
Proof.
  unfold SignalProp.forward.
  destruct (Nat.eqb_spec (length (topo ts) mod 2) 0) as [Hl|]; [|discriminate].
  unfold local_scope.
  destruct (SignalProp.forward_body self ts nf gt g) as [[o g2]|];
    [|discriminate].
  intros [= <- <-]. eauto.
Qed.

Lemma forward_body_layout (self : SignalProp.t) ts nf gt (g g2 : graph)
    new_nf efce :
  SignalProp.forward_body self ts nf gt g = Ok ((new_nf, efce), g2) ->
  exists g1,
    SignalProp.init_level0 self ts nf g = Ok (tt, g1)
    /\ SignalProp.propagate self ts gt g1 = Ok (tt, g2)
    /\ ndata g2 !! "new_nf" = Some new_nf
    /\ edges g2 !! "cell_out" <> None
    /\ eframe g2 "cell_out" !! "efce" = Some efce.
Proof.
  unfold SignalProp.forward_body, bind.
  destruct (SignalProp.init_level0 self ts nf g) as [[[] g1]|e] eqn:E1;
    [|discriminate].
  destruct (SignalProp.propagate self ts gt g1) as [[[] g2']|e] eqn:E2;
    [|discriminate].
  unfold SignalProp.outputs, bind, get_ndata, get_edata, field.
  destruct (ndata g2' !! "new_nf") as [c|] eqn:Hc; [|discriminate].
  destruct (edges g2' !! "cell_out") as [el|] eqn:Hel; [|discriminate].
  destruct (eframe g2' "cell_out" !! "efce") as [ce|] eqn:He; [|discriminate].
  intros [= <- <- <-]. exists g1. rewrite Hel. repeat split; auto.
Qed.

(** X8.  Whenever [SignalProp.forward] returns, in either mode and for any
    parameters, the predictions have one row per node of the graph and
    [out_nf] columns: the stages only ever write rows of the tensor line 181
    creates. *)
Theorem SignalProp_forward_shape (self : SignalProp.t) (ts : schedule)
    (nf : tensor) (groundtruth : bool) (g g' : graph) (new_nf efce : tensor) :
  SignalProp.forward self ts nf groundtruth g = Ok ((new_nf, efce), g') ->
  shape new_nf = [num_nodes g; SignalProp.out_nf self].
Proof.
  intros H. apply SignalProp_forward_inv in H as (_ & _ & g2 & H).
  apply forward_body_layout in H as (g1 & E1 & E2 & Hn & _).
  apply init_level0_spec in E1 as (_ & c & t & Hc & _ & Hs & _).
  apply propagate_shapes in E2 as (_ & _ & S2).
  destruct (S2 _ _ Hc) as (c' & Hc' & Hs'). congruence.
Qed.

End NodeShapes.

(** ** Shapes of the results *)

Section ResultShapes.
Context {D : Dtype}.

Lemma set_ndata_inv k (t : tensor) (g g' : graph) :
  set_ndata k t g = Ok (tt, g') ->
  hd_error (shape t) = Some (num_nodes g)
  /\ num_nodes g' = num_nodes g /\ edges g' = edges g /\ edata g' = edata g
  /\ ndata g' = <[k := t]> (ndata g).
Proof.
  unfold set_ndata, set_n_repr. simpl.
  destruct (shape t) as [|n' sh]; [discriminate|].
  destruct (Nat.eqb_spec n' (num_nodes g)) as [->|]; [|discriminate].
  intros [= <-]. simpl. auto.
Qed.

(** What [update_all] leaves: the reduced column, one row per node and of
    the shape of a message, under the name the reducer gives. *)
Lemma update_all_inv mf rf etype (g g' : graph) :
  update_all mf rf etype g = Ok (tt, g') ->
  exists e el msgs t sh c,
    get_etype etype g = Ok ((e, el), g)
    /\ invoke_message mf (edge_batch g e el (seq 0 (length el))) = Ok msgs
    /\ dict_get msgs (reduce_msg rf) = Ok t
    /\ shape t = length el :: sh
    /\ shape c = num_nodes g :: sh
    /\ ndata g' = <[reduce_out rf := c]> (ndata g)
    /\ num_nodes g' = num_nodes g /\ edges g' = edges g /\ edata g' = edata g.
Proof.
  unfold update_all, bind. intros H.
  destruct (get_etype etype g) as [[[e el] g0]|] eqn:E; [|discriminate].
  pose proof (get_etype_graph _ _ _ _ E) as ->.
  unfold message_passing in H.
  destruct (invoke_message mf _) as [msgs|] eqn:Em; [|discriminate].
  destruct (dict_get msgs _) as [t|] eqn:Et; [|discriminate].
  destruct (shape t) as [|m sh] eqn:Hs; [discriminate|].
  rewrite !length_seq in H.
  destruct (Nat.eqb_spec m (length el)) as [->|]; [|discriminate].
  apply set_ndata_inv in H as (_ & Hn & He & Hd & Hw).
  eexists e, el, msgs, t, sh, _. repeat split; try eassumption. reflexivity.
Qed.

Lemma edge_msg_i_shape in_nf in_ef out_nf h1 h2 p1 p2 p3 (b : EdgeBatch) d :
  NetConv.edge_msg_i (NetConv.init in_nf in_ef out_nf h1 h2 p1 p2 p3) b = Ok d ->
  exists x n, d = [("efi", x)] /\ shape x = [n; out_nf].
Proof.
  unfold NetConv.edge_msg_i, rbind.
  destruct (field (src b) "nf") as [a|]; [|discriminate].
  destruct (field (dst b) "nf") as [a'|]; [|discriminate].
  destruct (field (edge_data b) "ef") as [c|]; [|discriminate].
  destruct (cat1 [a; a'; c]) as [x|]; [|discriminate].
  cbn [NetConv.MLP_msg_o2i NetConv.init MLP.init].
  destruct (MLP.forward _ x) as [y|] eqn:Ey; [|discriminate].
  apply build_forward_shape in Ey as (n & _ & Hy); [|discriminate].
  intros [= <-]. eauto.
Qed.

Lemma NetConv_forward_inv (self : NetConv.t) ts nf (g g' : graph) out :
  NetConv.forward self ts nf g = Ok (out, g') ->
  g' = g /\ exists g1 g2,
    NetConv.aggregate self nf g = Ok (tt, g1)
    /\ apply_nodes (NetConv.node_reduce_o self) (output_nodes ts) g1 = Ok (tt, g2)
    /\ ndata g2 !! "new_nf" = Some out.
Proof.
  unfold NetConv.forward, local_scope, NetConv.forward_body, bind.
  destruct (NetConv.aggregate self nf g) as [[[] g1]|] eqn:E1; [|discriminate].
  destruct (apply_nodes _ _ g1) as [[[] g2]|] eqn:E2; [|discriminate].
  unfold get_ndata, field.
  destruct (ndata g2 !! "new_nf") as [c|] eqn:Hc; [|discriminate].
  intros [= <- <-]. eauto 6.
Qed.

(** A stored edge feature reduced by [update_all]: the column has a row
    per node and the row shape of the feature. *)
Lemma update_all_copy_inv m rf etype (g g' : graph) :
  update_all (copy_e m (reduce_msg rf)) rf etype g = Ok (tt, g') ->
  exists e el t c,
    get_etype etype g = Ok ((e, el), g)
    /\ eframe g e !! m = Some t
    /\ shape c = num_nodes g :: tail (shape t)
    /\ ndata g' = <[reduce_out rf := c]> (ndata g)
    /\ num_nodes g' = num_nodes g /\ edges g' = edges g /\ edata g' = edata g.
Proof.
  intros H. apply update_all_inv in H
    as (e & el & msgs & t & sh & c & Hg & Em & Et & Ht & Hc & W & N & G & F).
  simpl in Em. unfold field in Em. cbn [edge_batch edge_data] in Em.
  rewrite lookup_fmap in Em.
  destruct (eframe g e !! m) as [t0|] eqn:E0; [|discriminate].
  cbn [fmap option_fmap option_map] in Em. injection Em as <-.
  rewrite dict_get_head in Et. injection Et as <-.
  cbn [index_rows shape] in Ht. injection Ht as _ <-.
  exists e, el, t0, c. auto 8.
Qed.

Lemma apply_edges_None_inv f etype (g g' : graph) :
  apply_edges f None etype g = Ok (tt, g') ->
  exists e el d,
    get_etype etype g = Ok ((e, el), g)
    /\ f (edge_batch g e el (seq 0 (length el))) = Ok d
    /\ write (length el) None (eframe g e) d = Ok (eframe g' e)
    /\ num_nodes g' = num_nodes g /\ edges g' = edges g /\ ndata g' = ndata g.
Proof.
  unfold apply_edges, bind. intros H.
  destruct (get_etype etype g) as [[[e el] g0]|] eqn:E; [|discriminate].
  pose proof (get_etype_graph _ _ _ _ E) as ->.
  destruct (f _) as [d|] eqn:Ef; [|discriminate].
  unfold set_e_repr in H.
  destruct (write (length el) None (eframe g e) d) as [fr|] eqn:Ew;
    [|discriminate].
  injection H as <-. exists e, el, d. unfold eframe at 2. cbn [edata].
  rewrite lookup_insert_eq. repeat split; assumption.
Qed.

Lemma get_etype_same etype (g g' : graph) :
  edges g' = edges g ->
  forall p, get_etype etype g = Ok (p, g) -> get_etype etype g' = Ok (p, g').
Proof.
  unfold get_etype. intros ->. destruct etype as [e|].
  - destruct (edges g !! e); [|discriminate]. intros p [= <-]. reflexivity.
  - destruct (map_to_list (edges g)) as [|q [|]]; try discriminate.
    intros p [= <-]. reflexivity.
Qed.

(** The two gated payloads stored on the edges, then summed and maximised
    at the nodes: columns of widths [h1] and [h2], beside [nf]. *)
Lemma gated_aggregates f etype k1 k2 o1 o2 w1 w2 (g g3 : graph) :
  (forall b d, f b = Ok d ->
     exists e1 e2 n, d = [(k1, e1); (k2, e2)]
       /\ shape e1 = [n; w1] /\ shape e2 = [n; w2]) ->
  k1 <> k2 -> o1 <> o2 ->
  (run apply_edges f None etype;
   run update_all (copy_e k1 k1) (fn_sum k1 o1) etype;
   update_all (copy_e k2 k2) (fn_max k2 o2) etype) g = Ok (tt, g3) ->
  num_nodes g3 = num_nodes g /\ edges g3 = edges g
  /\ (forall k, k <> o1 -> k <> o2 -> ndata g3 !! k = ndata g !! k)
  /\ exists c1 c2,
       ndata g3 !! o1 = Some c1 /\ shape c1 = [num_nodes g; w1]
       /\ ndata g3 !! o2 = Some c2 /\ shape c2 = [num_nodes g; w2].
Proof.
  intros Hf Hk Ho. unfold bind.
  destruct (apply_edges f None etype g) as [[[] g1]|] eqn:E1; [|discriminate].
  destruct (update_all (copy_e k1 k1) _ etype g1) as [[[] g2]|] eqn:E2;
    [|discriminate].
  intros E3.
  apply apply_edges_None_inv in E1
    as (e & el & d & Hg & Hd & Hw & N1 & G1 & D1).
  apply Hf in Hd as (e1 & e2 & n & -> & Hs1 & Hs2).
  cbn [write write_field] in Hw. rewrite Hs1, Hs2 in Hw.
  destruct (n =? length el); [|discriminate]. injection Hw as Hw.
  apply (update_all_copy_inv k1 (fn_sum k1 o1)) in E2
    as (e' & el' & t1 & c1 & Hg' & Ht1 & Hc1 & W2 & N2 & G2 & F2).
  apply (update_all_copy_inv k2 (fn_max k2 o2)) in E3
    as (e'' & el'' & t2 & c2 & Hg'' & Ht2 & Hc2 & W3 & N3 & G3 & F3).
  apply (get_etype_same etype g g1 G1) in Hg.
  rewrite Hg in Hg'. injection Hg' as <- <-.
  assert (G21 : edges g2 = edges g1) by exact G2.
  apply (get_etype_same etype g1 g2 G21) in Hg.
  rewrite Hg in Hg''. injection Hg'' as <- <-.
  assert (Hfd : eframe g2 e = eframe g1 e)
    by (unfold eframe; rewrite F2; reflexivity).
  rewrite Hfd in Ht2. rewrite <- Hw in Ht1, Ht2.
  rewrite lookup_insert_ne, lookup_insert_eq in Ht1 by congruence.
  rewrite lookup_insert_eq in Ht2.
  injection Ht1 as <-. injection Ht2 as <-.
  rewrite Hs1 in Hc1. rewrite Hs2 in Hc2. cbn [tail reduce_out] in *.
  split; [congruence|]. split; [congruence|]. split.
  - intros k H1 H2. rewrite W3, lookup_insert_ne by congruence.
    rewrite W2, lookup_insert_ne by congruence. rewrite D1. reflexivity.
  - exists c1, c2. rewrite W3, W2.
    rewrite lookup_insert_ne, !lookup_insert_eq by congruence.
    repeat split; congruence.
Qed.

(** After the aggregation of a [NetConv], [nf] is stored as given, with a
    row per node, beside the aggregates of widths [h1] and [h2]. *)
Lemma aggregate_columns (self : NetConv.t) nf (g g5 : graph) :
  NetConv.aggregate self nf g = Ok (tt, g5) ->
  num_nodes g5 = num_nodes g
  /\ hd_error (shape nf) = Some (num_nodes g)
  /\ ndata g5 !! "nf" = Some nf
  /\ exists c1 c2,
       ndata g5 !! "nfo1" = Some c1
       /\ shape c1 = [num_nodes g; NetConv.h1 self]
       /\ ndata g5 !! "nfo2" = Some c2
       /\ shape c2 = [num_nodes g; NetConv.h2 self].
Proof.
  unfold NetConv.aggregate. intros H. unfold bind at 1 in H.
  destruct (set_ndata "nf" nf g) as [[[] g1]|] eqn:E1; [|discriminate].
  unfold bind at 1 in H.
  destruct (update_all (udf _) _ _ g1) as [[[] g2]|] eqn:E2; [|discriminate].
  apply set_ndata_inv in E1 as (Hnf & N1 & _ & _ & W1).
  apply update_all_inv in E2
    as (_ & _ & _ & _ & _ & c & _ & _ & _ & _ & _ & W2 & N2 & _).
  apply (gated_aggregates _ _ "efo1" "efo2" "nfo1" "nfo2"
           (NetConv.h1 self) (NetConv.h2 self)) in H
    as (N3 & _ & K3 & c1 & c2 & H1 & S1 & H2 & S2);
    [| |discriminate..].
  - split; [congruence|]. split; [exact Hnf|]. split.
    + rewrite K3, W2 by discriminate. simpl.
      rewrite lookup_insert_ne, W1 by discriminate. apply lookup_insert_eq.
    + exists c1, c2. rewrite N2, N1 in S1, S2. auto.
  - intros b d Hd. apply edge_msg_o_shapes in Hd. exact Hd.
Qed.

(** After the aggregation of a [NetConv] built by the constructor,
    [new_nf] has a row per node and [out_nf] columns. *)
Lemma aggregate_new_nf in_nf in_ef out_nf h1 h2 p1 p2 p3 nf (g g5 : graph) :
  NetConv.aggregate (NetConv.init in_nf in_ef out_nf h1 h2 p1 p2 p3) nf g
    = Ok (tt, g5) ->
  exists c, ndata g5 !! "new_nf" = Some c /\ shape c = [num_nodes g; out_nf].
Proof.
  unfold NetConv.aggregate. intros H. unfold bind at 1 in H.
  destruct (set_ndata "nf" nf g) as [[[] g1]|] eqn:E1; [|discriminate].
  unfold bind at 1 in H.
  destruct (update_all (udf _) _ _ g1) as [[[] g2]|] eqn:E2; [|discriminate].
  apply set_ndata_inv in E1 as (_ & N1 & _).
  apply update_all_inv in E2
    as (e & el & msgs & t & sh & c & _ & Em & Et & Ht & Hc & W2 & N2 & _).
  simpl in Em. apply edge_msg_i_shape in Em as (x & n & -> & Hx).
  vm_compute in Et. injection Et as ->. rewrite Hx in Ht.
  injection Ht as _ <-.
  apply (gated_aggregates _ _ "efo1" "efo2" "nfo1" "nfo2"
           (NetConv.h1 (NetConv.init in_nf in_ef out_nf h1 h2 p1 p2 p3))
           (NetConv.h2 (NetConv.init in_nf in_ef out_nf h1 h2 p1 p2 p3))) in H
    as (_ & _ & K3 & _); [| |discriminate..].
  - exists c. split; [|rewrite Hc; congruence].
    rewrite K3, W2 by discriminate. apply lookup_insert_eq.
  - intros b d Hd. apply edge_msg_o_shapes in Hd. exact Hd.
Qed.

(** The width a reduce MLP built for [in_nf + h1 + h2] columns asks of the
    first of the three blocks it is given. *)
Lemma reduce_width p s rest (a b c y : tensor) in_nf h1 h2 n :
  rest <> [] ->
  shape b = [n; h1] -> shape c = [n; h2] ->
  (let? x := cat1 [a; b; c] in
   MLP.forward (MLP.init ((in_nf + h1 + h2) :: s :: rest) p) x) = Ok y ->
  shape a = [n; in_nf] /\ shape y = [n; List.last rest s].
Proof.
  intros Hne Hb Hc. unfold rbind.
  destruct (cat1 [a; b; c]) as [x|] eqn:Ex; [|discriminate].
  intros Hy. cbn [MLP.init] in Hy.
  apply build_forward_shape in Hy as (n' & Hx & Hy); [|discriminate].
  unfold cat1 in Ex. unfold dim2 at 1 in Ex.
  destruct (shape a) as [|na [|wa [|]]] eqn:Ha; try discriminate.
  cbn [forallb] in Ex. unfold dim2 at 1 2 3 in Ex.
  rewrite Ha, Hb, Hc in Ex. rewrite Nat.eqb_refl in Ex. cbn [andb] in Ex.
  destruct (Nat.eqb_spec n na) as [<-|]; [|discriminate].
  injection Ex as <-. cbn [shape] in Hx. unfold dim2 in Hx.
  rewrite Ha, Hb, Hc in Hx. cbn in Hx. injection Hx as <- Hw.
  split; [f_equal; f_equal; lia|].
  rewrite Hy. f_equal. f_equal.
  change (List.last (s :: rest) (in_nf + h1 + h2)) with
    (match rest with [] => s | _ :: _ => List.last rest (in_nf + h1 + h2) end).
  destruct rest; [congruence|]. apply last_default. discriminate.
Qed.

Lemma NetConv_rows in_nf in_ef out_nf h1 h2 p1 p2 p3 ts nf (g g' : graph) out :
  NetConv.forward (NetConv.init in_nf in_ef out_nf h1 h2 p1 p2 p3) ts nf g
    = Ok (out, g') ->
  shape out = [num_nodes g; out_nf] /\ shape nf = [num_nodes g; in_nf].
Proof.
  intros H. apply NetConv_forward_inv in H as (_ & g1 & g2 & E1 & E2 & Ho).
  pose proof (aggregate_new_nf _ _ _ _ _ _ _ _ _ _ _ E1) as (c & Hc & Hs).
  apply aggregate_columns in E1
    as (N1 & Hnf & Hn & c1 & c2 & H1 & S1 & H2 & S2).
  pose proof (apply_nodes_shapes _ _ _ _ E2) as (_ & _ & S).
  destruct (S _ _ Hc) as (c' & Hc' & Hs').
  split; [congruence|].
  unfold apply_nodes in E2. destruct (valid_ids _ _); [|discriminate].
  destruct (NetConv.node_reduce_o _ _) as [d|] eqn:Ed; [|discriminate].
  unfold NetConv.node_reduce_o, field, node_batch in Ed.
  cbn [node_data] in Ed. rewrite !lookup_fmap, Hn, H1, H2 in Ed.
  cbn [fmap option_fmap option_map rbind] in Ed.
  cbn [NetConv.MLP_reduce_o NetConv.init] in Ed.
  set (ids := output_nodes ts) in *.
  destruct (let? x := cat1 [index_rows nf ids; index_rows c1 ids;
                            index_rows c2 ids] in
            MLP.forward (MLP.init [in_nf + h1 + h2; 64; 64; 64; out_nf] p2) x)
    as [y|] eqn:Ey.
  - apply (reduce_width _ _ _ _ _ _ _ _ _ _ (length ids)) in Ey
      as [Ha _]; [|discriminate|cbn [index_rows shape]; rewrite ?S1, ?S2;
                                 reflexivity..].
    cbn [index_rows shape] in Ha. injection Ha as Ha.
    destruct (shape nf) as [|n0 sh0]; [discriminate|].
    simpl in Hnf, Ha. congruence.
  - unfold rbind in Ey, Ed.
    destruct (cat1 _) as [x|]; [|discriminate].
    rewrite Ey in Ed. discriminate.
Qed.

(** The message of a cell arc carries [efce] with [out_cef] columns. *)
Lemma edge_msg_cell_efce (self : SignalProp.t) (b : EdgeBatch) gt d :
  SignalProp.edge_msg_cell self b gt = Ok d ->
  exists e1 e2 cef n,
    d = [("efc1", e1); ("efc2", e2); ("efce", cef)]
    /\ shape cef = [n; SignalProp.out_cef self].
Proof.
  unfold SignalProp.edge_msg_cell, rbind.
  destruct (field (src b) _) as [l|]; [|discriminate].
  destruct (field (src b) "nf") as [sf|]; [|discriminate].
  destruct (field (dst b) "nf") as [df|]; [|discriminate].
  destruct (cat1 [l; sf; df]) as [q0|]; [|discriminate].
  destruct (MLP.forward _ q0) as [q1|]; [|discriminate].
  destruct (reshape q1 _) as [q|]; [|discriminate].
  destruct (field (edge_data b) "ef") as [ef|]; [|discriminate].
  destruct (SignalProp.lut_attention self ef q) as [a|]; [|discriminate].
  destruct (SignalProp.lut_lookup self (len b) ef a) as [r|]; [|discriminate].
  destruct (cat1 [l; sf; df; r]) as [x|] eqn:Ex; [|discriminate].
  destruct (MLP.forward _ x) as [y|] eqn:Ey; [|discriminate].
  apply cat1_rank2 in Ex. apply (MLP_forward_rank2 _ _ _ Ey) in Ex.
  destruct Ex as (n & w & Hy). unfold split1. rewrite Hy.
  destruct (_ =? w); [|discriminate]. cbn [split_from].
  set (k := sigmoid _).
  destruct (mul _ k) as [e1|]; [|discriminate].
  destruct (mul _ k) as [e2|] in |- *; [|discriminate].
  intros [= <-]. eexists e1, e2, _, n. split; reflexivity.
Qed.

End ResultShapes.

(** ** The cell delays *)

Section CellDelays.
Context {D : Dtype}.
Import SignalProp.

Lemma send_and_recv_graph es mf rf etype (g g' : graph) :
  send_and_recv es mf rf etype g = Ok (tt, g') ->
  num_nodes g' = num_nodes g /\ edges g' = edges g /\ edata g' = edata g.
Proof.
  unfold send_and_recv, bind.
  destruct (get_etype etype g) as [[[e el] g1]|] eqn:E; [|discriminate].
  apply get_etype_graph in E as ->.
  destruct (rmapM (edge_id el) es) as [[|i eids]|]; [| |discriminate].
  - intros [= <-]. auto.
  - destruct (message_passing _ _ _ _ _ _ _) as [d|]; [|discriminate].
    intros H. apply set_n_repr_inv in H. tauto.
Qed.

Lemma apply_edges_some_inv f uvs e (g g' : graph) :
  apply_edges f (Some uvs) (Some e) g = Ok (tt, g') ->
  exists el eids d,
    edges g !! e = Some el
    /\ f (edge_batch g e el eids) = Ok d
    /\ write (length el) (Some eids) (eframe g e) d = Ok (eframe g' e)
    /\ num_nodes g' = num_nodes g /\ edges g' = edges g /\ ndata g' = ndata g.
Proof.
  unfold apply_edges, bind, get_etype. intros H.
  destruct (edges g !! e) as [el|]; [|discriminate].
  destruct (rmapM (edge_id el) uvs) as [eids|]; [|discriminate].
  destruct (f _) as [d|] eqn:Ef; [|discriminate].
  unfold set_e_repr in H.
  destruct (write (length el) (Some eids) (eframe g e) d) as [fr|] eqn:Ew;
    [|discriminate].
  injection H as <-. exists el, eids, d. unfold eframe at 2. cbn [edata].
  rewrite lookup_insert_eq. repeat split; assumption.
Qed.

(** A row write leaves the column with a row per item of the frame. *)
Lemma write_field_column n ids (fr fr' : gmap string tensor) k (t : tensor) :
  write_field n (Some ids) fr (k, t) = Ok fr' ->
  exists c, fr' !! k = Some c /\ shape c = n :: tail (shape t).
Proof.
  unfold write_field. destruct (shape t) as [|m sh]; [discriminate|].
  destruct (m =? length ids); [|discriminate].
  destruct (fr !! k) as [c0|].
  - destruct (bool_decide_reflect (shape c0 = n :: sh)) as [Hs|];
      [|discriminate].
    intros [= <-]. rewrite lookup_insert_eq. eexists. split; [reflexivity|].
    exact Hs.
  - intros [= <-]. rewrite lookup_insert_eq. eexists. split; reflexivity.
Qed.

Lemma prop_cell_efce self nodes gt (g g' : graph) :
  prop_cell self nodes gt g = Ok (tt, g') ->
  edges g' = edges g /\ has_efce (out_cef self) g'.
Proof.
  unfold prop_cell, bind. intros H.
  destruct (in_edges nodes (Some "cell_out") g) as [[es g0]|] eqn:E0;
    [|discriminate].
  apply in_edges_spec in E0 as [-> _].
  destruct (apply_edges _ (Some es) _ g) as [[[] g1]|] eqn:E1; [|discriminate].
  apply apply_edges_some_inv in E1
    as (el & eids & d & Hel & Hd & Hw & _ & G1 & _).
  apply edge_msg_cell_efce in Hd as (e1 & e2 & cef & n & -> & Hcef).
  cbn [write] in Hw.
  destruct (write_field _ _ _ ("efc1", e1)) as [fr1|]; [|discriminate].
  destruct (write_field _ _ fr1 ("efc2", e2)) as [fr2|]; [|discriminate].
  destruct (write_field _ _ fr2 ("efce", cef)) as [fr3|] eqn:W3;
    [|discriminate].
  injection Hw as Hw.
  apply write_field_column in W3 as (c & Hc & Hs).
  rewrite Hcef in Hs. simpl in Hs.
  destruct (send_and_recv es (copy_e "efc1" "efc1") _ _ g1) as [[[] g2]|] eqn:E2;
    [|discriminate].
  apply send_and_recv_graph in E2 as (_ & G2 & D2).
  destruct (send_and_recv es (copy_e "efc2" "efc2") _ _ g2) as [[[] g3]|] eqn:E3;
    [|discriminate].
  apply send_and_recv_graph in E3 as (_ & G3 & D3).
  apply apply_nodes_graph in H as (_ & G4 & D4).
  split; [congruence|]. exists el, c. unfold eframe.
  rewrite G4, G3, G2, G1, D4, D3, D2. fold (eframe g1 "cell_out").
  rewrite <- Hw. auto.
Qed.

Lemma prop_net_efce self nodes gt w (g g' : graph) :
  prop_net self nodes gt g = Ok (tt, g') ->
  edges g' = edges g /\ (has_efce w g -> has_efce w g').
Proof.
  intros H. apply pull_graph in H as (_ & G & E). split; [exact G|].
  unfold has_efce, eframe. rewrite G, E. auto.
Qed.

Lemma levels_in_order_efce self gt lvls : forall i (g g' : graph),
  levels_in_order self gt i lvls g = Ok (tt, g') ->
  has_efce (out_cef self) g -> has_efce (out_cef self) g'.
Proof.
  induction lvls as [|l lvls IH]; intros i g g' H P; simpl in H.
  - injection H as <-. exact P.
  - unfold bind in H.
    destruct (run_stage self gt (stage_of i) l g) as [[[] g1]|] eqn:E;
      [|discriminate].
    apply (IH _ _ _ H). destruct (stage_of i); simpl in E.
    + apply (prop_net_efce _ _ _ (out_cef self)) in E as [_ E]. auto.
    + apply prop_cell_efce in E as [_ E]. exact E.
Qed.

Lemma propagate_efce self ts gt (g g' : graph) :
  propagate self ts gt g = Ok (tt, g') ->
  gt = true \/ 2 < length (topo ts) ->
  has_efce (out_cef self) g'.
Proof.
  destruct gt.
  - unfold propagate, bind. intros H _.
    destruct (prop_net self (input_nodes ts) true g) as [[[] g1]|];
      [|discriminate].
    apply prop_cell_efce in H as [_ H]. exact H.
  - intros H [Hgt|Hlen]; [discriminate|].
    destruct (topo ts) as [|l0 [|l1 [|l2 lvls]]] eqn:Hts;
      try (simpl in Hlen; lia).
    rewrite (propagate_levels self ts l0 (l1 :: l2 :: lvls) g Hts) in H.
    cbn [levels_in_order] in H. unfold bind in H.
    destruct (run_stage self false (stage_of 1) l1 g) as [[[] g1]|];
      [|discriminate].
    destruct (run_stage self false (stage_of 2) l2 g1) as [[[] g2]|] eqn:E2;
      [|discriminate].
    change (stage_of 2) with Cell in E2. simpl in E2.
    apply prop_cell_efce in E2 as [_ E2].
    eapply levels_in_order_efce; eassumption.
Qed.

(** X9.  When [SignalProp.forward] returns after a cell stage was run
    (always with [groundtruth=True]; with [groundtruth=False] when there
    are more than two levels), the cell delays have one row per [cell_out]
    edge of the graph and [out_cef] columns, whatever [efce] the graph came
    with. *)
Theorem SignalProp_forward_efce_shape (self : t) (ts : schedule) (nf : tensor)
    (groundtruth : bool) (g g' : graph) (new_nf efce : tensor) :
  forward self ts nf groundtruth g = Ok ((new_nf, efce), g') ->
  groundtruth = true \/ 2 < length (topo ts) ->
  exists el, edges g !! "cell_out" = Some el
    /\ shape efce = [length el; out_cef self].
Proof.
  intros H Hc. apply SignalProp_forward_inv in H as (_ & _ & g2 & H).
  apply forward_body_layout in H as (g1 & E1 & E2 & _ & _ & He).
  apply init_level0_graph in E1 as (_ & G1 & _).
  pose proof (propagate_shapes _ _ _ _ _ E2) as (_ & G2 & _).
  apply (propagate_efce _ _ _ _ _ E2) in Hc as (el & c & Hel & Hc & Hs).
  exists el. split; congruence.
Qed.

End CellDelays.

(** ** NetConv and TimingGCN: the results *)

Section TimingGCNShapes.
Context {D : Dtype}.

(** X10.  On node features that are a vector per node (a rank-2 [nf]), a
    [NetConv] built by the constructor maps features of width [in_nf] to
    features of width [out_nf]: whenever [forward] returns, [nf] has one
    row per node of the graph and [in_nf] columns, the result one row per
    node and [out_nf] columns, and the output nodes are nodes of the
    graph. *)
Theorem NetConv_forward_shape (in_nf in_ef out_nf h1 h2 : nat)
    (p1 p2 p3 : MLP.params) (ts : schedule) (nf : tensor) (g g' : graph)
    (out : tensor) :
  length (shape nf) = 2 ->
  NetConv.forward (NetConv.init in_nf in_ef out_nf h1 h2 p1 p2 p3) ts nf g
    = Ok (out, g') ->
  shape nf = [num_nodes g; in_nf]
  /\ shape out = [num_nodes g; out_nf]
  /\ (forall v, v ∈ output_nodes ts -> v < num_nodes g).
Proof.
  intros _ H. destruct (NetConv_rows _ _ _ _ _ _ _ _ _ _ _ _ _ H) as [Ho Hn].
  split; [exact Hn|]. split; [exact Ho|].
  apply NetConv_forward_inv in H as (_ & g1 & g2 & E1 & E2 & _).
  apply aggregate_columns in E1 as (N1 & _).
  intros v Hv. rewrite <- N1. eapply apply_nodes_valid; eassumption.
Qed.

(** X11.  Whenever [TimingGCN.forward] returns, the graph has a node
    feature [nf] with one row per node and 10 columns, the net delays have
    one row per node and 4 columns, the arrival times and slews one row per
    node and 8 columns, and, when a cell stage was run, the cell delays one
    row per [cell_out] edge and 4 columns. *)
Theorem TimingGCN_forward_shapes (p : nat -> MLP.params) (ts : schedule)
    (groundtruth : bool) (g g' : graph)
    (net_delays cell_delays atslew : tensor) :
  TimingGCN.forward (TimingGCN.init p) ts groundtruth g
    = Ok ((net_delays, cell_delays, atslew), g') ->
  (exists nf, ndata g !! "nf" = Some nf /\ shape nf = [num_nodes g; 10])
  /\ shape net_delays = [num_nodes g; 4]
  /\ shape atslew = [num_nodes g; 8]
  /\ (groundtruth = true \/ 2 < length (topo ts) ->
      exists el, edges g !! "cell_out" = Some el
        /\ shape cell_delays = [length el; 4]).
Proof.
  unfold TimingGCN.forward, bind.
  destruct (get_ndata "nf" g) as [[nf0 g0]|] eqn:E0; [|discriminate].
  assert (Hnf : ndata g !! "nf" = Some nf0).
  { unfold get_ndata, field in E0. destruct (ndata g !! "nf"); [|discriminate].
    injection E0 as <- _. reflexivity. }
  apply restores_get_ndata in E0 as ->.
  cbn [TimingGCN.nc1 TimingGCN.nc2 TimingGCN.nc3 TimingGCN.prop TimingGCN.init].
  destruct (NetConv.forward _ ts nf0 g) as [[x1 g1]|] eqn:E1; [|discriminate].
  pose proof (restores_NetConv _ _ _ _ _ _ E1) as ->.
  apply NetConv_rows in E1 as [_ E1].
  destruct (NetConv.forward _ ts x1 g) as [[x2 g2]|] eqn:E2; [|discriminate].
  pose proof (restores_NetConv _ _ _ _ _ _ E2) as ->.
  destruct (NetConv.forward _ ts x2 g) as [[x3 g3]|] eqn:E3; [|discriminate].
  pose proof (restores_NetConv _ _ _ _ _ _ E3) as ->.
  apply NetConv_rows in E3 as [E3 _].
  unfold lift at 1.
  destruct (slice_cols x3 0 4) as [nd|] eqn:E4; [|discriminate].
  unfold lift at 1.
  destruct (cat1 [nf0; x3]) as [nf1|]; [|discriminate].
  destruct (SignalProp.forward _ ts nf1 groundtruth g) as [[[a c] g4]|] eqn:E5;
    [|discriminate].
  intros [= <- <- <- _].
  unfold slice_cols, dim2 in E4. rewrite E3 in E4. injection E4 as <-.
  split; [eauto|]. split; [reflexivity|].
  apply SignalProp_forward_inv in E5 as (_ & _ & gb & E5).
  apply forward_body_layout in E5 as (ga & Ea & Eb & Hn & _ & He).
  split.
  - apply init_level0_spec in Ea as (_ & c0 & t & Hc & _ & Hs & _).
    apply propagate_shapes in Eb as (_ & _ & S2).
    destruct (S2 _ _ Hc) as (c' & Hc' & Hs'). simpl in Hs. congruence.
  - intros Hc.
    apply init_level0_graph in Ea as (_ & G1 & _).
    pose proof (propagate_shapes _ _ _ _ _ Eb) as (_ & G2 & _).
    apply (propagate_efce _ _ _ _ _ Eb) in Hc as (el & c0 & Hel & Hc & Hs).
    simpl in Hs. exists el. split; congruence.
Qed.

End TimingGCNShapes.

(** ** AllConv and DeepGCNII: the results *)

Section AllConvShapes.
Context {D : Dtype}.

Lemma edge_udf_shapes (self : AllConv.t) (b : EdgeBatch) d :
  AllConv.edge_udf self b = Ok d ->
  exists e1 e2 n,
    d = [("ef1", e1); ("ef2", e2)]
    /\ shape e1 = [n; AllConv.h1 self] /\ shape e2 = [n; AllConv.h2 self].
Proof.
  unfold AllConv.edge_udf, rbind.
  destruct (field (src b) "nf") as [a|]; [|discriminate].
  destruct (field (dst b) "nf") as [a'|]; [|discriminate].
  destruct (field (edge_data b) "ef") as [c|]; [|discriminate].
  destruct (cat1 [a; a'; c]) as [x|] eqn:Ex; [|discriminate].
  destruct (MLP.forward _ x) as [y|] eqn:Ey; [|discriminate].
  apply cat1_rank2 in Ex. apply (MLP_forward_rank2 _ _ _ Ey) in Ex.
  destruct Ex as (n & w & Hy). unfold split1. rewrite Hy.
  destruct (_ =? w); [|discriminate]. cbn [split_from].
  set (k := sigmoid _).
  destruct (mul _ k) as [e1|] eqn:E1; [|discriminate].
  destruct (mul _ k) as [e2|] eqn:E2 in |- *; [|discriminate].
  intros [= <-]. exists e1, e2, n. split; [reflexivity|].
  split; eapply mul_gate_shape; try eassumption; reflexivity.
Qed.

Lemma AllConv_rows in_nf out_nf in_ef h1 h2 p nf (g g' : graph) out :
  AllConv.forward (AllConv.init in_nf out_nf in_ef h1 h2 p) nf g
    = Ok (out, g') ->
  shape nf = [num_nodes g; in_nf] /\ shape out = [num_nodes g; out_nf].
Proof.
  unfold AllConv.forward, local_scope. intros H.
  match type of H with
  | match ?m g with _ => _ end = _ => destruct (m g) as [[o g5]|] eqn:E
  end; [|discriminate].
  injection H as <- _. unfold bind at 1 in E.
  destruct (set_ndata "nf" nf g) as [[[] g1]|] eqn:E1; [|discriminate].
  apply set_ndata_inv in E1 as (Hnf & N1 & _ & _ & W1).
  rewrite <- !bind_assoc in E. rewrite bind_assoc in E.
  unfold bind at 1 in E.
  match type of E with
  | match ?m g1 with _ => _ end = _ => destruct (m g1) as [[[] g4]|] eqn:E4
  end; [|discriminate].
  rewrite bind_assoc in E4.
  apply (gated_aggregates _ _ "ef1" "ef2" "nf1" "nf2" h1 h2) in E4
    as (N4 & _ & K4 & c1 & c2 & H1 & S1 & H2 & S2);
    [|intros b d Hd; apply edge_udf_shapes in Hd; exact Hd|discriminate..].
  unfold bind, get_ndata, field in E.
  rewrite K4, W1, lookup_insert_eq, H1, H2 in E by discriminate.
  unfold lift in E. cbn [AllConv.MLP_reduce AllConv.init] in E.
  destruct (let? x := cat1 [nf; c1; c2] in
            MLP.forward (MLP.init [in_nf + h1 + h2; 32; 32; 32; out_nf] (snd p)) x)
    as [y|] eqn:Ey.
  - pose proof Ey as Ey'. rewrite N1 in S1, S2.
    apply (reduce_width _ _ _ _ _ _ _ _ _ _ (num_nodes g)) in Ey';
      [|discriminate|assumption..].
    unfold rbind in Ey.
    destruct (cat1 [nf; c1; c2]) as [x|]; [|discriminate].
    rewrite Ey in E. injection E as <- _. exact Ey'.
  - unfold rbind in Ey. destruct (cat1 [nf; c1; c2]) as [x|]; [|discriminate].
    rewrite Ey in E. discriminate.
Qed.

(** X12.  On node features that are a vector per node (a rank-2 [nf]), an
    [AllConv] built by the constructor maps features of width [in_nf] to
    features of width [out_nf], one row per node, on a graph with a single
    edge type: whenever [forward] returns, the input and the result have
    these shapes and the graph is as before. *)
Theorem AllConv_forward_shape (in_nf out_nf in_ef h1 h2 : nat)
    (p : MLP.params * MLP.params) (nf : tensor) (g g' : graph) (out : tensor) :
  length (shape nf) = 2 ->
  AllConv.forward (AllConv.init in_nf out_nf in_ef h1 h2 p) nf g
    = Ok (out, g') ->
  shape nf = [num_nodes g; in_nf]
  /\ shape out = [num_nodes g; out_nf]
  /\ (exists e el, map_to_list (edges g) = [(e, el)])
  /\ g' = g.
Proof.
  intros _ H. destruct (AllConv_rows _ _ _ _ _ _ _ _ _ _ H) as [Hn Ho].
  split; [exact Hn|]. split; [exact Ho|].
  split; [|exact (restores_AllConv _ _ _ _ _ H)].
  unfold AllConv.forward, local_scope in H. unfold bind at 1 in H.
  destruct (set_ndata "nf" nf g) as [[[] g1]|] eqn:E1; [|discriminate].
  apply set_ndata_inv in E1 as (_ & _ & G1 & _).
  unfold bind at 1 in H. unfold apply_edges at 1 in H. unfold bind at 1 in H.
  unfold get_etype at 1 in H. rewrite G1 in H.
  destruct (map_to_list (edges g)) as [|[e el] [|]]; try discriminate.
  eauto.
Qed.

Lemma loop_rows (p : nat -> MLP.params * MLP.params) (g : graph) ks :
  forall (x y : tensor) g',
  DeepGCNII.loop (map (fun i => AllConv.init 26 16 12 10 10 (p i)) ks) x g
    = Ok (y, g') ->
  shape x = [num_nodes g; 16] -> shape y = [num_nodes g; 16].
Proof.
  induction ks as [|i ks IH]; intros x y g' H Hx; simpl in H.
  - injection H as <- _. exact Hx.
  - unfold bind at 1 in H.
    destruct (DeepGCNII.residual _ x g) as [[x' g1]|] eqn:E; [|discriminate].
    assert (Hg : g1 = g /\ shape x' = [num_nodes g; 16]).
    { unfold DeepGCNII.residual, bind in E.
      destruct (get_ndata "nf" g) as [[nf g0]|] eqn:E0; [|discriminate].
      apply restores_get_ndata in E0 as ->. unfold lift at 1 in E.
      destruct (cat1 [x; nf]) as [c|]; [|discriminate].
      destruct (AllConv.forward _ c g) as [[y0 g2]|] eqn:Ea; [|discriminate].
      pose proof (restores_AllConv _ _ _ _ _ Ea) as ->.
      apply AllConv_rows in Ea as [_ Hy0].
      unfold lift, add, binop, broadcast_shapes in E. rewrite Hy0, Hx in E.
      simpl in E. rewrite !bdim_refl in E. simpl in E.
      injection E as <- <-. auto. }
    destruct Hg as [-> Hx']. eapply IH; eassumption.
Qed.

(** X13.  [DeepGCNII.forward], for any number of layers and any output
    width, returns, whenever it returns, one row per node of the graph and
    [out_nf] columns, and it returns only on a graph whose node feature
    [nf] has one row per node and 10 columns. *)
Theorem DeepGCNII_forward_shape (N : Z) (out_nf : nat)
    (p0 : MLP.params * MLP.params) (p : nat -> MLP.params * MLP.params)
    (pn : MLP.params * MLP.params) (g g' : graph) (out : tensor) :
  DeepGCNII.forward (DeepGCNII.init N out_nf p0 p pn) g = Ok (out, g') ->
  (exists nf, ndata g !! "nf" = Some nf /\ shape nf = [num_nodes g; 10])
  /\ shape out = [num_nodes g; out_nf].
Proof.
  unfold DeepGCNII.forward, bind.
  cbn [DeepGCNII.layer0 DeepGCNII.layers DeepGCNII.layern DeepGCNII.init].
  destruct (get_ndata "nf" g) as [[nf g0]|] eqn:E0; [|discriminate].
  assert (Hnf : ndata g !! "nf" = Some nf).
  { unfold get_ndata, field in E0. destruct (ndata g !! "nf"); [|discriminate].
    injection E0 as <- _. reflexivity. }
  apply restores_get_ndata in E0 as ->.
  destruct (AllConv.forward _ nf g) as [[x g1]|] eqn:E1; [|discriminate].
  pose proof (restores_AllConv _ _ _ _ _ E1) as ->.
  apply AllConv_rows in E1 as [Hn Hx].
  destruct (DeepGCNII.loop _ x g) as [[y g2]|] eqn:E2; [|discriminate].
  pose proof (restores_loop _ _ _ _ _ E2) as ->.
  intros H. apply AllConv_rows in H as [_ Ho]. eauto.
Qed.

End AllConvShapes.

(** ** When the lookup returns *)

Section LookupReturns.
Context {D : Dtype}.
Import SignalProp.

Lemma reshape_infer_ok (t : tensor) ds :
  numel ds <> 0 -> numel (shape t) mod numel ds = 0 ->
  reshape t ((-1)%Z :: map Z.of_nat ds)
  = Ok (Tensor (numel (shape t) / numel ds :: ds) (data t)).
Proof.
  intros H0 Hm. unfold reshape.
  rewrite filter_cons_True by reflexivity.
  rewrite filter_cons_False by discriminate.
  rewrite filter_neg_of_nat, filter_nonneg_of_nat, to_nat_of_nat.
  cbn [length].
  assert (Hf : forallb (fun d => (-1 <=? d)%Z) ((-1)%Z :: map Z.of_nat ds) = true).
  { apply forallb_forall. intros x [<-|Hx]; [reflexivity|].
    apply in_map_iff in Hx as (n & <- & _). apply Z.leb_le. lia. }
  rewrite Hf.
  destruct (Nat.eqb_spec (numel ds) 0); [contradiction|].
  rewrite Hm. cbn [andb negb Nat.eqb map]. f_equal. f_equal. f_equal.
  generalize (numel (shape t) / numel ds). intros q.
  clear. induction ds as [|d ds IH]; [reflexivity|].
  cbn [map]. rewrite IH. destruct (Z.ltb_spec (Z.of_nat d) 0); [lia|].
  rewrite Nat2Z.id. reflexivity.
Qed.

Lemma reshape_exact_ok (t : tensor) ds :
  numel ds = numel (shape t) ->
  reshape t (map Z.of_nat ds) = Ok (Tensor ds (data t)).
Proof.
  intros H. unfold reshape.
  rewrite filter_neg_of_nat, filter_nonneg_of_nat, to_nat_of_nat.
  cbn [length]. rewrite H, Nat.eqb_refl. reflexivity.
Qed.

Lemma bdim_cases a b c :
  bdim a b = Ok c -> (a = b /\ c = a) \/ (a = 1 /\ c = b) \/ (b = 1 /\ c = a).
Proof.
  unfold bdim. destruct (Nat.eqb_spec a b); [intros [= <-]; auto|].
  destruct (Nat.eqb_spec a 1); [intros [= <-]; auto|].
  destruct (Nat.eqb_spec b 1); [intros [= <-]; auto|discriminate].
Qed.

Lemma matmul_ok (a b : tensor) ba bb bs n m p :
  shape a = ba ++ [n; m] -> shape b = bb ++ [m; p] ->
  broadcast_shapes ba bb = Ok bs ->
  exists c, matmul a b = Ok c /\ shape c = bs ++ [n; p].
Proof.
  intros Ha Hb Hbs. unfold matmul.
  rewrite Ha, Hb, !split_last2_app, Nat.eqb_refl, Hbs.
  eexists. split; reflexivity.
Qed.

(** The shapes along lines 141-151, for an attention of [Q] rows. *)
Lemma lut_lookup_inv (self : t) (E W Q : nat) (ef a r : tensor) :
  lut_lookup self E ef a = Ok r ->
  shape ef = [E; W] ->
  in_cell_num_luts self * (1 + 2 * in_cell_lut_sz self)
    + in_cell_num_luts self * in_cell_lut_sz self ^ 2 <= W ->
  shape a = [Q; in_cell_lut_sz self * 2] ->
  in_cell_lut_sz self <> 0 /\ Q mod 4 = 0
  /\ (exists B, bdim (E * in_cell_num_luts self) (Q / 4) = Ok B
        /\ B * 4 = E * (in_cell_num_luts self * lut_dup self))
  /\ shape r = [E; in_cell_num_luts self * lut_dup self].
Proof.
  set (s := in_cell_lut_sz self). set (L := in_cell_num_luts self).
  set (dup := lut_dup self). set (axis_len := L * (1 + 2 * s)).
  intros H Hef HW Ha.
  unfold lut_lookup in H. fold s L dup axis_len in H.
  change [-1; 2; Z.of_nat s]%Z with ((-1)%Z :: map Z.of_nat [2; s]) in H.
  destruct (reshape a _) as [a1|] eqn:E1; [|discriminate].
  apply reshape_infer in E1 as (Hs0 & _ & ->).
  assert (Hs : s <> 0) by (cbn [numel foldr] in Hs0; lia).
  assert (HQ : numel (shape a) / numel [2; s] = Q).
  { rewrite Ha. cbn [numel foldr]. rewrite !Nat.mul_1_r.
    replace (Q * (s * 2)) with (Q * (2 * s)) by lia.
    apply Nat.div_mul. lia. }
  cbn [rbind] in H. rewrite HQ, split_xy in H. cbn [rbind] in H.
  change [-1; Z.of_nat s; 1]%Z with ((-1)%Z :: map Z.of_nat [s; 1]) in H.
  change [-1; 1; Z.of_nat s]%Z with ((-1)%Z :: map Z.of_nat [1; s]) in H.
  destruct (reshape _ (_ :: map Z.of_nat [s; 1])) as [ax|] eqn:Ex; [|discriminate].
  apply reshape_infer in Ex as (_ & _ & ->).
  destruct (reshape _ (_ :: map Z.of_nat [1; s])) as [ay|] eqn:Ey; [|discriminate].
  apply reshape_infer in Ey as (_ & _ & ->).
  cbn [rbind shape data] in H.
  assert (HQx : numel [Q; 1; s] / numel [s; 1] = Q).
  { cbn [numel foldr]. rewrite !Nat.mul_1_r, Nat.mul_1_l.
    apply Nat.div_mul. exact Hs. }
  assert (HQy : numel [Q; 1; s] / numel [1; s] = Q).
  { cbn [numel foldr]. rewrite !Nat.mul_1_r, !Nat.mul_1_l.
    apply Nat.div_mul. exact Hs. }
  rewrite HQx, HQy in H.
  set (dx := flat_map (fun q => take s (row_of (2 * s) (data a) q)) (seq 0 Q)) in H.
  set (dy := flat_map (fun q => take s (drop s (row_of (2 * s) (data a) q)))
               (seq 0 Q)) in H.
  destruct (matmul _ _) as [A|] eqn:EA; [|discriminate].
  apply (matmul_spec (Tensor [Q; s; 1] dx) (Tensor [Q; 1; s] dy) A
           [Q] [Q] s 1 s eq_refl eq_refl) in EA as (bs & Hbs & HsA & _).
  unfold broadcast_shapes in Hbs. cbn [rev app broadcast_rev] in Hbs.
  rewrite bdim_refl in Hbs. cbn [rev app] in Hbs. injection Hbs as <-.
  cbn [rbind] in H.
  unfold slice_cols, dim2 in H. rewrite Hef in H.
  replace (axis_len `min` W) with axis_len in H by lia.
  replace (((axis_len + L * s ^ 2) `min` W) `max` axis_len)
    with (axis_len + L * s ^ 2) in H by lia.
  replace (axis_len + L * s ^ 2 - axis_len) with (L * s ^ 2) in H by lia.
  cbn [rbind] in H.
  set (dt := flat_map (fun i => take (L * s ^ 2) (drop axis_len (row ef i)))
               (seq 0 E)) in H.
  replace (Z.of_nat s ^ 2)%Z with (Z.of_nat (s ^ 2)) in H
    by (rewrite Nat2Z.inj_pow; reflexivity).
  change [-1; 1; 1; Z.of_nat (s ^ 2)]%Z
    with ((-1)%Z :: map Z.of_nat [1; 1; s ^ 2]) in H.
  change [-1; 4; Z.of_nat (s ^ 2); 1]%Z
    with ((-1)%Z :: map Z.of_nat [4; s ^ 2; 1]) in H.
  change [Z.of_nat E; Z.of_nat (L * dup)]
    with (map Z.of_nat [E; L * dup]) in H.
  destruct (reshape _ (_ :: map Z.of_nat [1; 1; s ^ 2])) as [T|] eqn:ET;
    [|discriminate].
  apply reshape_infer in ET as (_ & _ & ->).
  destruct (reshape A _) as [A4|] eqn:EA4; [|discriminate].
  apply reshape_infer in EA4 as (_ & Hmod & ->).
  cbn [rbind shape data] in H. rewrite HsA in H, Hmod.
  destruct (matmul _ _) as [R|] eqn:ER; [|discriminate].
  cbn [rbind] in H. apply reshape_exact in H as (Hnum & ->).
  assert (HB1 : numel [E; L * s ^ 2] / numel [1; 1; s ^ 2] = E * L).
  { cbn [numel foldr]. rewrite !Nat.mul_1_r, !Nat.mul_1_l.
    rewrite Nat.mul_assoc. apply Nat.div_mul. apply Nat.pow_nonzero. exact Hs. }
  rewrite HB1 in ER.
  assert (Hs2 : s ^ 2 = s * s) by (simpl; lia).
  assert (Hs2' : s * s <> 0) by nia.
  assert (HQ4 : Q mod 4 = 0).
  { cbn [app numel foldr] in Hmod. rewrite !Nat.mul_1_r, Hs2 in Hmod.
    rewrite Nat.Div0.mul_mod_distr_r in Hmod. nia. }
  assert (HB2 : numel ([Q] ++ [s; s]) / numel [4; s ^ 2; 1] = Q / 4).
  { cbn [app numel foldr]. rewrite !Nat.mul_1_r, Hs2.
    apply Nat.Div0.div_mul_cancel_r. exact Hs2'. }
  rewrite HB2 in ER.
  apply (matmul_spec (Tensor [E * L; 1; 1; s ^ 2] dt)
           (Tensor [Q / 4; 4; s ^ 2; 1] (data A)) R
           [E * L; 1] [Q / 4; 4] 1 (s ^ 2) 1 eq_refl eq_refl) in ER
    as (bs & Hbs & HsR & _).
  unfold broadcast_shapes in Hbs. cbn [rev app broadcast_rev] in Hbs.
  change (bdim 1 4) with (@Ok nat 4) in Hbs.
  destruct (bdim (E * L) (Q / 4)) as [B|] eqn:EB; [|discriminate].
  cbn [rev app] in Hbs. injection Hbs as <-.
  rewrite HsR in Hnum. cbn [app numel foldr] in Hnum.
  split; [exact Hs|]. split; [exact HQ4|]. split; [|reflexivity].
  exists B. split; [reflexivity|lia].
Qed.

(** X14.  Line 148 groups the mask matrices by the constant 4: for edge
    features and an attention of the shapes [edge_msg_cell] gives them,
    the lookup returns only when [lut_dup] is 4, as soon as there are two
    tables to look in (two edges, or two tables per edge). *)
Theorem lut_lookup_needs_lut_dup_4 (self : t) (E W : nat) (ef a r : tensor) :
  lut_lookup self E ef a = Ok r ->
  shape ef = [E; W] ->
  in_cell_num_luts self * (1 + 2 * in_cell_lut_sz self)
    + in_cell_num_luts self * in_cell_lut_sz self ^ 2 <= W ->
  shape a = [E * in_cell_num_luts self * lut_dup self; in_cell_lut_sz self * 2] ->
  2 <= E * in_cell_num_luts self ->
  lut_dup self = 4.
Proof.
  intros H Hef HW Ha H2.
  destruct (lut_lookup_inv _ _ _ _ _ _ _ H Hef HW Ha)
    as (_ & HQ4 & (B & HB & HB4) & _).
  rewrite Nat.mul_assoc in HB4.
  set (T := E * in_cell_num_luts self) in *.
  set (Q := T * lut_dup self) in *.
  assert (HQ : Q = 4 * (Q / 4)) by (pose proof (Nat.div_mod_eq Q 4); lia).
  apply bdim_cases in HB as [[HT _]|[[HT _]|[HG HBT]]].
  - assert (H4 : T * 4 = T * lut_dup self) by (fold Q; lia).
    apply Nat.mul_cancel_l in H4; lia.
  - lia.
  - subst B. lia.
Qed.

(** X15.  With the default [lut_dup = 4], a positive table size, edge
    features wide enough for the axis and table blocks and an attention
    with a row per query, the lookup returns, with one row per edge and
    [4 * in_cell_num_luts] columns. *)
Theorem lut_lookup_returns (self : t) (E W : nat) (ef a : tensor) :
  lut_dup self = 4 ->
  in_cell_lut_sz self <> 0 ->
  shape ef = [E; W] ->
  in_cell_num_luts self * (1 + 2 * in_cell_lut_sz self)
    + in_cell_num_luts self * in_cell_lut_sz self ^ 2 <= W ->
  shape a = [E * in_cell_num_luts self * 4; in_cell_lut_sz self * 2] ->
  exists r, lut_lookup self E ef a = Ok r
    /\ shape r = [E; in_cell_num_luts self * 4].
Proof.
  set (s := in_cell_lut_sz self). set (L := in_cell_num_luts self).
  set (axis_len := L * (1 + 2 * s)).
  intros Hdup Hs Hef HW Ha.
  unfold lut_lookup. rewrite Hdup. fold s L axis_len.
  set (Q := E * L * 4) in *.
  assert (Hs2 : s ^ 2 = s * s) by (simpl; lia).
  assert (Hs2' : s * s <> 0) by nia.
  change [-1; 2; Z.of_nat s]%Z with ((-1)%Z :: map Z.of_nat [2; s]).
  rewrite reshape_infer_ok; cycle 1.
  { cbn [numel foldr]. lia. }
  { rewrite Ha. cbn [numel foldr]. rewrite !Nat.mul_1_r.
    replace (Q * (s * 2)) with (Q * (2 * s)) by lia.
    apply Nat.Div0.mod_mul. }
  assert (HQ : numel (shape a) / numel [2; s] = Q).
  { rewrite Ha. cbn [numel foldr]. rewrite !Nat.mul_1_r.
    replace (Q * (s * 2)) with (Q * (2 * s)) by lia.
    apply Nat.div_mul. lia. }
  cbn [rbind]. rewrite HQ, split_xy. cbn [rbind].
  change [-1; Z.of_nat s; 1]%Z with ((-1)%Z :: map Z.of_nat [s; 1]).
  change [-1; 1; Z.of_nat s]%Z with ((-1)%Z :: map Z.of_nat [1; s]).
  assert (HQx : numel [Q; 1; s] / numel [s; 1] = Q).
  { cbn [numel foldr]. rewrite !Nat.mul_1_r, Nat.mul_1_l.
    apply Nat.div_mul. exact Hs. }
  assert (HQy : numel [Q; 1; s] / numel [1; s] = Q).
  { cbn [numel foldr]. rewrite !Nat.mul_1_r, !Nat.mul_1_l.
    apply Nat.div_mul. exact Hs. }
  rewrite (reshape_infer_ok _ [s; 1]); cycle 1.
  { cbn [numel foldr]. lia. }
  { cbn [shape numel foldr]. rewrite !Nat.mul_1_r, Nat.mul_1_l.
    apply Nat.Div0.mod_mul. }
  rewrite (reshape_infer_ok _ [1; s]); cycle 1.
  { cbn [numel foldr]. lia. }
  { cbn [shape numel foldr]. rewrite !Nat.mul_1_r, !Nat.mul_1_l.
    apply Nat.Div0.mod_mul. }
  cbn [rbind shape data]. rewrite HQx, HQy.
  set (dx := flat_map (fun q => take s (row_of (2 * s) (data a) q)) (seq 0 Q)).
  set (dy := flat_map (fun q => take s (drop s (row_of (2 * s) (data a) q)))
               (seq 0 Q)).
  destruct (matmul_ok (Tensor [Q; s; 1] dx) (Tensor [Q; 1; s] dy)
              [Q] [Q] [Q] s 1 s eq_refl eq_refl) as (A & -> & HsA).
  { unfold broadcast_shapes. cbn [rev app broadcast_rev].
    rewrite bdim_refl. reflexivity. }
  cbn [rbind app] in *.
  unfold slice_cols, dim2. rewrite Hef.
  replace (axis_len `min` W) with axis_len by lia.
  replace (((axis_len + L * s ^ 2) `min` W) `max` axis_len)
    with (axis_len + L * s ^ 2) by lia.
  replace (axis_len + L * s ^ 2 - axis_len) with (L * s ^ 2) by lia.
  cbn [rbind].
  replace (Z.of_nat s ^ 2)%Z with (Z.of_nat (s ^ 2))
    by (rewrite Nat2Z.inj_pow; reflexivity).
  change [-1; 1; 1; Z.of_nat (s ^ 2)]%Z
    with ((-1)%Z :: map Z.of_nat [1; 1; s ^ 2]).
  change [-1; 4; Z.of_nat (s ^ 2); 1]%Z
    with ((-1)%Z :: map Z.of_nat [4; s ^ 2; 1]).
  change [Z.of_nat E; Z.of_nat (L * 4)] with (map Z.of_nat [E; L * 4]).
  assert (HB1 : numel [E; L * s ^ 2] / numel [1; 1; s ^ 2] = E * L).
  { cbn [numel foldr]. rewrite !Nat.mul_1_r, !Nat.mul_1_l.
    rewrite Nat.mul_assoc. apply Nat.div_mul. apply Nat.pow_nonzero. exact Hs. }
  rewrite (reshape_infer_ok _ [1; 1; s ^ 2]); cycle 1.
  { cbn [numel foldr]. rewrite Hs2. lia. }
  { cbn [shape numel foldr]. rewrite !Nat.mul_1_r, !Nat.mul_1_l.
    rewrite Nat.mul_assoc. apply Nat.Div0.mod_mul. }
  cbn [rbind shape]. rewrite HB1.
  assert (HB2 : numel (shape A) / numel [4; s ^ 2; 1] = E * L).
  { rewrite HsA. cbn [numel foldr]. rewrite !Nat.mul_1_r, Hs2. unfold Q.
    replace (E * L * 4 * (s * s)) with (E * L * (4 * (s * s))) by lia.
    apply Nat.div_mul. lia. }
  rewrite (reshape_infer_ok A [4; s ^ 2; 1]); cycle 1.
  { cbn [numel foldr]. rewrite Hs2. lia. }
  { rewrite HsA. cbn [numel foldr]. rewrite !Nat.mul_1_r, Hs2. unfold Q.
    replace (E * L * 4 * (s * s)) with (E * L * (4 * (s * s))) by lia.
    apply Nat.Div0.mod_mul. }
  cbn [rbind shape data]. rewrite HB2.
  set (dt := flat_map (fun i => take (L * s ^ 2) (drop axis_len (row ef i)))
               (seq 0 E)).
  destruct (matmul_ok (Tensor [E * L; 1; 1; s ^ 2] dt)
              (Tensor [E * L; 4; s ^ 2; 1] (data A))
              [E * L; 1] [E * L; 4] [E * L; 4] 1 (s ^ 2) 1 eq_refl eq_refl)
    as (R & -> & HsR).
  { unfold broadcast_shapes. cbn [rev app broadcast_rev].
    rewrite bdim_refl. change (bdim 1 4) with (@Ok nat 4). reflexivity. }
  cbn [rbind]. rewrite reshape_exact_ok.
  - eexists. split; reflexivity.
  - rewrite HsR. cbn [app numel foldr]. lia.
Qed.

End LookupReturns.

(** ** NetConv at a pin that no net drives *)

Section Undriven.
Context {D : Dtype}.

(** The reduction at a node that none of the sending edges enters is the
    zero row, whatever the message function. *)
Lemma message_passing_no_message (g : graph) e el eids vs mf rf d i v :
  message_passing g e el eids vs mf rf = Ok d ->
  (forall j, j ∈ eids -> snd (nth j el (0, 0)) <> v) ->
  vs !! i = Some v ->
  exists c,
    d = [(reduce_out rf, c)] /\ hd_error (shape c) = Some (length vs)
    /\ row c i = replicate (width c) r0.
Proof.
  unfold message_passing. intros H Hiso Hi.
  destruct (invoke_message mf _) as [msgs|]; [|discriminate].
  destruct (dict_get msgs _) as [t|]; [|discriminate].
  destruct (shape t) as [|m sh] eqn:Hs; [discriminate|].
  destruct (m =? length eids); [|discriminate].
  injection H as <-. eexists. split; [reflexivity|]. split; [reflexivity|].
  unfold row at 1. unfold width. cbn [shape data tail].
  rewrite (row_of_flat_map _ (numel sh) vs i v); [| |exact Hi].
  - rewrite filter_none; [destruct rf; reflexivity|]. intros j Hj Hv.
    apply elem_of_seq in Hj as [_ Hj]. simpl in Hj.
    apply (Hiso (nth j eids 0)); [|exact Hv].
    apply list_elem_of_In, nth_In. exact Hj.
  - intros y. apply length_reduce_rows, Forall_forall.
    intros r Hr. apply list_elem_of_In, in_map_iff in Hr as (j & <- & _).
    rewrite length_row. unfold width. rewrite Hs. reflexivity.
Qed.

Lemma aggregate_undriven (self : NetConv.t) nf (g g5 : graph) el v :
  NetConv.aggregate self nf g = Ok (tt, g5) ->
  edges g !! "net_out" = Some el ->
  (forall uv, uv ∈ el -> snd uv <> v) ->
  v < num_nodes g ->
  num_nodes g5 = num_nodes g
  /\ exists c, ndata g5 !! "new_nf" = Some c
       /\ row c v = replicate (width c) r0.
Proof.
  unfold NetConv.aggregate. intros H Hel Hiso Hv. unfold bind at 1 in H.
  destruct (set_ndata "nf" nf g) as [[[] g1]|] eqn:E1; [|discriminate].
  unfold bind at 1 in H.
  destruct (update_all (udf _) _ _ g1) as [[[] g2]|] eqn:E2; [|discriminate].
  apply set_ndata_inv in E1 as (_ & N1 & G1 & _).
  unfold update_all, bind, get_etype in E2. rewrite G1, Hel in E2.
  destruct (message_passing g1 _ el _ _ _ _) as [d|] eqn:Em; [|discriminate].
  apply (message_passing_no_message _ _ _ _ _ _ _ _ v v) in Em
    as (c & -> & Hc & Hr).
  - apply set_n_repr_inv in E2 as (N2 & _ & _ & W2).
    cbn [write write_field reduce_out] in W2.
    destruct (shape c) as [|n' sh']; [discriminate|].
    destruct (n' =? num_nodes g1); [|discriminate]. injection W2 as W2.
    apply (gated_aggregates _ _ "efo1" "efo2" "nfo1" "nfo2"
             (NetConv.h1 self) (NetConv.h2 self)) in H
      as (N3 & _ & K3 & _); [| |discriminate..].
    + split; [congruence|]. exists c. split; [|exact Hr].
      rewrite K3, <- W2 by discriminate. apply lookup_insert_eq.
    + intros b d Hd. apply edge_msg_o_shapes in Hd. exact Hd.
  - intros j Hj. apply elem_of_seq in Hj as [_ Hj]. simpl in Hj.
    apply Hiso, list_elem_of_In, nth_In. exact Hj.
  - apply lookup_seq_lt. rewrite N1. exact Hv.
Qed.

(** X16.  [NetConv.forward] gives the zero vector to every pin that no
    [net_out] edge enters and that is not one of the output nodes (a
    primary input, in the data of the model): the sum over its incoming
    edges is empty and [node_reduce_o] is not applied to it. *)
Theorem NetConv_undriven_row_zero (self : NetConv.t) (ts : schedule)
    (nf : tensor) (g g' : graph) (out : tensor) (el : list (nat * nat))
    (v : nat) :
  NetConv.forward self ts nf g = Ok (out, g') ->
  edges g !! "net_out" = Some el ->
  (forall uv, uv ∈ el -> snd uv <> v) ->
  v < num_nodes g ->
  v ∉ output_nodes ts ->
  row out v = replicate (width out) r0.
Proof.
  intros H Hel Hiso Hv Hout.
  apply NetConv_forward_inv in H as (_ & g1 & g2 & E1 & E2 & Ho).
  apply (aggregate_undriven _ _ _ _ el v) in E1 as (N1 & c & Hc & Hr);
    try assumption.
  apply (apply_nodes_keeps _ _ _ _ v) in E2 as (_ & _ & K);
    [|congruence|exact Hout].
  destruct (K _ _ Hc) as (c' & Hc' & Hs & Hr').
  rewrite Ho in Hc'. injection Hc' as <-.
  rewrite Hr', Hr. unfold width. rewrite Hs. reflexivity.
Qed.

End Undriven.

(** ** SignalProp: what a stage reads *)

Section Reads.
Context {D : Dtype}.
Import SignalProp.

Lemma row_of_beyond w (l : list elt) i :
  length l <= i * w -> row_of w l i = replicate w r0.
Proof.
  intros H. unfold row_of. rewrite drop_ge by exact H. simpl.
  rewrite take_replicate. f_equal. lia.
Qed.

Lemma length_scatter (c : tensor) ids (t : tensor) n sh :
  shape c = n :: sh -> width t = numel sh ->
  length (data (scatter_rows c ids t)) = n * numel sh.
Proof.
  intros Hc Ht. unfold scatter_rows. cbn [data]. rewrite Hc. cbn [hd].
  apply length_flat_map_seq. intros y.
  destruct (last_index ids y 0); rewrite length_row; [exact Ht|].
  unfold width. rewrite Hc. reflexivity.
Qed.

Lemma row_scatter_lt (c : tensor) ids (t : tensor) n sh v :
  shape c = n :: sh -> width t = numel sh -> v < n ->
  row (scatter_rows c ids t) v
  = match last_index ids v 0 with Some j => row t j | None => row c v end.
Proof.
  intros Hc Ht Hv. unfold row at 1. rewrite width_scatter.
  unfold scatter_rows. simpl. rewrite Hc. simpl.
  assert (Hw : width c = numel sh) by (unfold width; rewrite Hc; reflexivity).
  apply (row_of_flat_map
           (fun i => match last_index ids i 0 with
                     | Some j => row t j
                     | None => row c i
                     end) (width c) (seq 0 n) v v).
  - intros y. destruct (last_index ids y 0); rewrite length_row; congruence.
  - apply lookup_seq_lt. exact Hv.
Qed.

Lemma row_scatter_ge (c : tensor) ids (t : tensor) n sh v :
  shape c = n :: sh -> width t = numel sh -> n <= v ->
  row (scatter_rows c ids t) v = replicate (numel sh) r0.
Proof.
  intros Hc Ht Hv. unfold row. rewrite width_scatter.
  assert (Hw : width c = numel sh) by (unfold width; rewrite Hc; reflexivity).
  rewrite Hw. apply row_of_beyond.
  rewrite (length_scatter c ids t n sh Hc Ht). nia.
Qed.

Lemma same_rows_weaken (S S' : nat -> Prop) (c1 c2 : tensor) :
  (forall v, S' v -> S v) -> same_rows S c1 c2 -> same_rows S' c1 c2.
Proof. intros H [Hs Hr]. split; [exact Hs|]. intros v Hv. apply Hr, H, Hv. Qed.

(** Writing the same rows into two tensors with the same rows [S] makes
    them agree on the written rows as well. *)
Lemma scatter_same_rows (S : nat -> Prop) (c1 c2 : tensor) ids (t : tensor) n sh :
  shape c1 = n :: sh -> width t = numel sh ->
  same_rows S c1 c2 ->
  same_rows (fun v => S v \/ v ∈ ids)
    (scatter_rows c1 ids t) (scatter_rows c2 ids t).
Proof.
  intros Hc1 Ht [Hs Hr].
  assert (Hc2 : shape c2 = n :: sh) by congruence.
  split; [exact Hs|]. intros v Hv.
  destruct (le_lt_dec n v) as [Hge|Hlt].
  - rewrite (row_scatter_ge c1 ids t n sh v Hc1 Ht Hge).
    rewrite (row_scatter_ge c2 ids t n sh v Hc2 Ht Hge). reflexivity.
  - rewrite (row_scatter_lt c1 ids t n sh v Hc1 Ht Hlt).
    rewrite (row_scatter_lt c2 ids t n sh v Hc2 Ht Hlt).
    destruct (last_index ids v 0) as [j|] eqn:E; [reflexivity|].
    destruct Hv as [Hv|Hv]; [exact (Hr v Hv)|].
    destruct (last_index_elem ids v Hv) as (j & Hj & _). congruence.
Qed.

(** Reading rows [S] of two tensors with the same rows [S]. *)
Lemma index_same_rows (S : nat -> Prop) (c1 c2 : tensor) ids :
  same_rows S c1 c2 -> Forall S ids -> index_rows c1 ids = index_rows c2 ids.
Proof.
  intros [Hs Hr] Hids. unfold index_rows. rewrite Hs. f_equal.
  induction Hids as [|v ids Hv Hids IH]; [reflexivity|].
  simpl. rewrite IH, (Hr v Hv). reflexivity.
Qed.

Lemma same_but_lookup (S : nat -> Prop) (fr1 fr2 : gmap string tensor) k :
  same_but_new_nf S fr1 fr2 -> k <> "new_nf" -> fr1 !! k = fr2 !! k.
Proof.
  intros [H _] Hk. apply (f_equal (fun m => m !! k)) in H.
  rewrite !lookup_delete_ne in H by congruence. exact H.
Qed.

Lemma same_but_weaken (S S' : nat -> Prop) (g1 g2 : graph) :
  (forall v, S' v -> S v) ->
  same_but_predictions S g1 g2 -> same_but_predictions S' g1 g2.
Proof.
  intros H (Hn & He & Hd & Hdel & c1 & c2 & H1 & H2 & Hr).
  repeat split; try assumption. exists c1, c2.
  repeat split; try assumption; eapply same_rows_weaken; eauto.
Qed.

(** A row write to [new_nf], the same in both frames. *)
Lemma write_new_nf_same (S : nat -> Prop) n ids (t : tensor)
    (fr1 fr2 : gmap string tensor) :
  same_but_new_nf S fr1 fr2 ->
  match write_field n (Some ids) fr1 ("new_nf", t),
        write_field n (Some ids) fr2 ("new_nf", t) with
  | Ok fr1', Ok fr2' => same_but_new_nf (fun v => S v \/ v ∈ ids) fr1' fr2'
  | Err e1, Err e2 => e1 = e2
  | _, _ => False
  end.
Proof.
  intros (Hdel & c1 & c2 & H1 & H2 & Hr). unfold write_field.
  destruct (shape t) as [|m sh] eqn:Ht; [reflexivity|].
  destruct (m =? length ids); [|reflexivity].
  rewrite H1, H2. pose proof Hr as [Hs _]. rewrite <- Hs.
  destruct (bool_decide_reflect (shape c1 = n :: sh)) as [Hc|]; [|reflexivity].
  split.
  - rewrite !delete_insert_eq. exact Hdel.
  - eexists _, _. rewrite !lookup_insert_eq.
    split; [reflexivity|]. split; [reflexivity|].
    apply (scatter_same_rows S c1 c2 ids t n sh Hc); [|exact Hr].
    unfold width. rewrite Ht. reflexivity.
Qed.

(** A write to another feature, the same in both frames. *)
Lemma write_other_same (S : nat -> Prop) n ids k (t : tensor)
    (fr1 fr2 : gmap string tensor) :
  k <> "new_nf" ->
  same_but_new_nf S fr1 fr2 ->
  match write_field n ids fr1 (k, t), write_field n ids fr2 (k, t) with
  | Ok fr1', Ok fr2' => same_but_new_nf S fr1' fr2'
  | Err e1, Err e2 => e1 = e2
  | _, _ => False
  end.
Proof.
  intros Hk Hfr. pose proof (same_but_lookup S fr1 fr2 k Hfr Hk) as Hl.
  destruct Hfr as (Hdel & c1 & c2 & H1 & H2 & Hr).
  assert (Hins : forall x : tensor,
            same_but_new_nf S (<[k := x]> fr1) (<[k := x]> fr2)).
  { intros x. split; [apply delete_insert_other; exact Hdel|].
    exists c1, c2. rewrite !lookup_insert_ne by congruence. auto. }
  unfold write_field. destruct ids as [l|].
  - destruct (shape t) as [|m sh]; [reflexivity|].
    destruct (m =? length l); [|reflexivity].
    rewrite <- Hl. destruct (fr1 !! k) as [c|]; [|apply Hins].
    destruct (bool_decide _); [apply Hins|reflexivity].
  - destruct (shape t) as [|n' sh]; [reflexivity|].
    destruct (n' =? n); [apply Hins|reflexivity].
Qed.

Lemma set_new_nf_same (S : nat -> Prop) ids (t : tensor) (g1 g2 : graph) :
  same_but_predictions S g1 g2 ->
  same_outcome (same_but_predictions (fun v => S v \/ v ∈ ids))
    (set_n_repr (Some ids) [("new_nf", t)] g1)
    (set_n_repr (Some ids) [("new_nf", t)] g2).
Proof.
  intros (Hn & He & Hd & Hfr). unfold set_n_repr. cbn [write]. rewrite <- Hn.
  pose proof (write_new_nf_same S (num_nodes g1) ids t _ _ Hfr) as H.
  destruct (write_field _ _ (ndata g1) _) as [fr1|e1];
    destruct (write_field _ _ (ndata g2) _) as [fr2|e2]; try contradiction.
  - simpl. rewrite He, Hd. repeat split; try reflexivity; apply H.
  - exact H.
Qed.

Lemma set_other_same (S : nat -> Prop) ids k (t : tensor) (g1 g2 : graph) :
  k <> "new_nf" ->
  same_but_predictions S g1 g2 ->
  same_outcome (same_but_predictions S)
    (set_n_repr ids [(k, t)] g1) (set_n_repr ids [(k, t)] g2).
Proof.
  intros Hk (Hn & He & Hd & Hfr). unfold set_n_repr. cbn [write]. rewrite <- Hn.
  pose proof (write_other_same S (num_nodes g1) ids k t _ _ Hk Hfr) as H.
  destruct (write_field _ _ (ndata g1) _) as [fr1|e1];
    destruct (write_field _ _ (ndata g2) _) as [fr2|e2]; try contradiction.
  - simpl. rewrite He, Hd. repeat split; try reflexivity; apply H.
  - exact H.
Qed.

Lemma same_outcome_bind {A B} (R1 R2 : graph -> graph -> Prop)
    (m : M A) (k : A -> M B) (g1 g2 : graph) :
  same_outcome R1 (m g1) (m g2) ->
  (forall a g1' g2', R1 g1' g2' -> same_outcome R2 (k a g1') (k a g2')) ->
  same_outcome R2 (bind m k g1) (bind m k g2).
Proof.
  unfold bind. intros H Hk.
  destruct (m g1) as [[a1 g1']|e1]; destruct (m g2) as [[a2 g2']|e2];
    simpl in H; try contradiction.
  - destruct H as [<- H]. apply Hk, H.
  - exact H.
Qed.

(** What the batches of the two graphs show a user-defined function. *)
Lemma node_batch_same (S : nat -> Prop) (g1 g2 : graph) ids k :
  same_but_predictions S g1 g2 -> k <> "new_nf" ->
  field (node_data (node_batch g1 ids)) k
  = field (node_data (node_batch g2 ids)) k.
Proof.
  intros (_ & _ & _ & Hfr) Hk. unfold field, node_batch. cbn [node_data].
  rewrite !lookup_fmap, (same_but_lookup S _ _ k Hfr Hk). reflexivity.
Qed.

Lemma edge_batch_same (S : nat -> Prop) (g1 g2 : graph) e el eids :
  same_but_predictions S g1 g2 ->
  edge_data (edge_batch g1 e el eids) = edge_data (edge_batch g2 e el eids)
  /\ len (edge_batch g1 e el eids) = len (edge_batch g2 e el eids)
  /\ (forall k, k <> "new_nf" ->
        field (src (edge_batch g1 e el eids)) k
        = field (src (edge_batch g2 e el eids)) k
        /\ field (dst (edge_batch g1 e el eids)) k
           = field (dst (edge_batch g2 e el eids)) k)
  /\ (Forall (fun i => S (fst (nth i el (0, 0)))) eids ->
      field (src (edge_batch g1 e el eids)) "new_nf"
      = field (src (edge_batch g2 e el eids)) "new_nf").
Proof.
  intros (_ & _ & Hd & Hfr). unfold edge_batch, field, eframe.
  cbn [edge_data len src dst]. rewrite Hd.
  split; [reflexivity|]. split; [reflexivity|]. split.
  - intros k Hk. rewrite !lookup_fmap, (same_but_lookup S _ _ k Hfr Hk).
    split; reflexivity.
  - intros HS. destruct Hfr as (_ & c1 & c2 & H1 & H2 & Hr).
    rewrite !lookup_fmap, H1, H2. cbn [fmap option_fmap option_map].
    f_equal. apply (index_same_rows S); [exact Hr|].
    rewrite map_map. apply Forall_forall. intros u Hu.
    apply list_elem_of_In, in_map_iff in Hu as (i & <- & Hi).
    rewrite Forall_forall in HS. apply HS, list_elem_of_In, Hi.
Qed.

(** The fields the two message functions read. *)
Lemma edge_msg_net_reads self (b1 b2 : EdgeBatch) :
  field (src b1) "new_nf" = field (src b2) "new_nf" ->
  field (src b1) "nf" = field (src b2) "nf" ->
  field (dst b1) "nf" = field (dst b2) "nf" ->
  edge_msg_net self b1 false = edge_msg_net self b2 false.
Proof.
  unfold edge_msg_net, last_nf_key. intros -> -> ->. reflexivity.
Qed.

Lemma edge_msg_cell_reads self (b1 b2 : EdgeBatch) :
  field (src b1) "new_nf" = field (src b2) "new_nf" ->
  field (src b1) "nf" = field (src b2) "nf" ->
  field (dst b1) "nf" = field (dst b2) "nf" ->
  field (edge_data b1) "ef" = field (edge_data b2) "ef" ->
  len b1 = len b2 ->
  edge_msg_cell self b1 false = edge_msg_cell self b2 false.
Proof.
  unfold edge_msg_cell, last_nf_key. intros -> -> -> -> ->. reflexivity.
Qed.

Lemma message_passing_ext (g1 g2 : graph) e el eids vs mf rf :
  invoke_message mf (edge_batch g1 e el eids)
  = invoke_message mf (edge_batch g2 e el eids) ->
  message_passing g1 e el eids vs mf rf = message_passing g2 e el eids vs mf rf.
Proof. unfold message_passing. intros ->. reflexivity. Qed.

Lemma message_passing_single (g : graph) e el eids vs mf rf d :
  message_passing g e el eids vs mf rf = Ok d ->
  exists c, d = [(reduce_out rf, c)].
Proof.
  unfold message_passing.
  destruct (invoke_message mf _) as [msgs|]; [|discriminate].
  destruct (dict_get msgs _) as [t|]; [|discriminate].
  destruct (shape t) as [|m sh]; [discriminate|].
  destruct (m =? length eids); [|discriminate].
  intros [= <-]. eauto.
Qed.

Lemma in_edge_ids_spec (el : list (nat * nat)) nodes i :
  i ∈ in_edge_ids el nodes ->
  (nth i el (0, 0) ∈ el) /\ (snd (nth i el (0, 0)) ∈ nodes).
Proof.
  unfold in_edge_ids. intros Hi.
  apply list_elem_of_In, in_flat_map in Hi as (x & Hx & Hi).
  apply list_elem_of_In, list_elem_of_filter in Hi as [-> Hi].
  apply elem_of_seq in Hi as [_ Hi]. simpl in Hi.
  split; [apply list_elem_of_In, nth_In; exact Hi|].
  apply list_elem_of_In, Hx.
Qed.

Lemma edge_id_elem (el : list (nat * nat)) uv i :
  edge_id el uv = Ok i -> uv ∈ el /\ nth i el (0, 0) = uv.
Proof.
  intros H. split; [|apply edge_id_Ok; exact H].
  unfold edge_id in H.
  destruct (list_find (fun p => p = uv) el) as [[j p]|] eqn:E; [|discriminate].
  apply list_find_Some in E as (Hj & -> & _).
  apply list_elem_of_lookup. eauto.
Qed.

(** The net stage reads the predictions at the drive pins of the nets
    that enter its nodes, before it writes a row: two graphs that agree
    there, and on everything but the predictions, come out the same at
    the nodes of the stage as well. *)
Lemma prop_net_same self (S : nat -> Prop) nodes (g1 g2 : graph) :
  same_but_predictions S g1 g2 ->
  fed_by S g1 "net_out" nodes ->
  same_outcome (same_but_predictions (fun v => S v \/ v ∈ nodes))
    (prop_net self nodes false g1) (prop_net self nodes false g2).
Proof.
  intros Hrel Hfed. pose proof Hrel as (Hn & He & Hd & Hfr).
  unfold prop_net, pull. destruct nodes as [|x nodes'] eqn:Hnodes.
  - simpl. split; [reflexivity|].
    apply (same_but_weaken S); [|exact Hrel].
    intros v [Hv|Hv]; [exact Hv|]. apply elem_of_nil in Hv. destruct Hv.
  - rewrite <- Hnodes in *. clear Hnodes x nodes'.
    unfold bind, get_etype. rewrite <- He.
    destruct (edges g1 !! "net_out") as [el|] eqn:Hel; [|reflexivity].
    rewrite <- Hn. destruct (valid_ids (num_nodes g1) nodes); [|reflexivity].
    rewrite <- (message_passing_ext g1 g2).
    + destruct (message_passing g1 _ _ _ _ _ _) as [d|err] eqn:E;
        [|reflexivity].
      apply message_passing_single in E as (c & ->).
      apply set_new_nf_same. exact Hrel.
    + cbn [invoke_message].
      destruct (edge_batch_same S g1 g2 "net_out" el (in_edge_ids el nodes) Hrel)
        as (_ & _ & Hk & Hnew).
      apply edge_msg_net_reads.
      * apply Hnew. apply Forall_forall. intros i Hi.
        apply in_edge_ids_spec in Hi as [Hin Hv].
        destruct (nth i el (0, 0)) as [u v] eqn:Euv. simpl in *.
        exact (Hfed el u v Hel Hin Hv).
      * apply Hk. discriminate.
      * apply Hk. discriminate.
Qed.

Lemma apply_edges_cell_same self (S : nat -> Prop) nodes el (g1 g2 : graph) :
  same_but_predictions S g1 g2 ->
  fed_by S g1 "cell_out" nodes ->
  edges g1 !! "cell_out" = Some el ->
  same_outcome (same_but_predictions S)
    (apply_edges (fun edges => edge_msg_cell self edges false)
       (Some (map (fun i => nth i el (0, 0)) (in_edge_ids el nodes)))
       (Some "cell_out") g1)
    (apply_edges (fun edges => edge_msg_cell self edges false)
       (Some (map (fun i => nth i el (0, 0)) (in_edge_ids el nodes)))
       (Some "cell_out") g2).
Proof.
  intros Hrel Hfed Hel. pose proof Hrel as (Hn & He & Hd & Hfr).
  unfold apply_edges, bind, get_etype. rewrite <- He, Hel.
  destruct (rmapM (edge_id el) _) as [eids|err] eqn:Eids; [|reflexivity].
  destruct (edge_batch_same S g1 g2 "cell_out" el eids Hrel)
    as (Hdata & Hlen & Hk & Hnew).
  rewrite <- (edge_msg_cell_reads self (edge_batch g1 "cell_out" el eids)
                (edge_batch g2 "cell_out" el eids)).
  - destruct (edge_msg_cell self _ false) as [d|err]; [|reflexivity].
    unfold set_e_repr, eframe. rewrite <- Hd.
    destruct (write _ _ _ d) as [fr|err]; [|reflexivity].
    split; [reflexivity|].
    unfold same_but_predictions. cbn [num_nodes edges edata ndata].
    rewrite Hd. auto.
  - apply Hnew. apply Forall_forall. intros i Hi.
    destruct (rmapM_Ok _ _ _ Eids i Hi) as (uv & Huv & Hid).
    apply edge_id_elem in Hid as [Hin Hnth]. rewrite Hnth.
    apply list_elem_of_In, in_map_iff in Huv as (i' & Hi' & Hin').
    apply list_elem_of_In, in_edge_ids_spec in Hin' as [_ Hv].
    rewrite Hi' in Hv. destruct uv as [u v]. simpl in *.
    exact (Hfed el u v Hel Hin Hv).
  - apply Hk. discriminate.
  - apply Hk. discriminate.
  - rewrite Hdata. reflexivity.
  - exact Hlen.
Qed.

Lemma send_and_recv_copy_same (S : nat -> Prop) es m msg out etype
    (g1 g2 : graph) rf :
  rf = fn_sum msg out \/ rf = fn_max msg out ->
  out <> "new_nf" ->
  same_but_predictions S g1 g2 ->
  same_outcome (same_but_predictions S)
    (send_and_recv es (copy_e m msg) rf etype g1)
    (send_and_recv es (copy_e m msg) rf etype g2).
Proof.
  intros Hrf Hout Hrel. pose proof Hrel as (Hn & He & Hd & Hfr).
  unfold send_and_recv, bind.
  destruct (get_etype etype g1) as [[[e el] g0]|err] eqn:E1.
  - pose proof (get_etype_graph _ _ _ _ E1) as ->.
    rewrite (get_etype_same etype g1 g2 (eq_sym He) _ E1).
    destruct (rmapM (edge_id el) es) as [[|i eids]|err]; [| |reflexivity].
    + split; [reflexivity|exact Hrel].
    + rewrite <- (message_passing_ext g1 g2).
      * destruct (message_passing g1 _ _ _ _ _ _) as [d|err] eqn:E;
          [|reflexivity].
        apply message_passing_single in E as (c & ->).
        apply set_other_same; [|exact Hrel].
        destruct Hrf as [->| ->]; exact Hout.
      * cbn [invoke_message].
        destruct (edge_batch_same S g1 g2 e el (i :: eids) Hrel) as (-> & _).
        reflexivity.
  - unfold get_etype in *. rewrite <- He.
    destruct etype as [e|].
    + destruct (edges g1 !! e); [discriminate|].
      injection E1 as <-. reflexivity.
    + destruct (map_to_list (edges g1)) as [|q [|]]; try discriminate;
        injection E1 as <-; reflexivity.
Qed.

Lemma node_reduce_o_single self (b : NodeBatch) d :
  node_reduce_o self b = Ok d -> exists x, d = [("new_nf", x)].
Proof.
  unfold node_reduce_o, rbind.
  destruct (field (node_data b) "nf"); [|discriminate].
  destruct (field (node_data b) "nfc1"); [|discriminate].
  destruct (field (node_data b) "nfc2"); [|discriminate].
  destruct (cat1 _); [|discriminate].
  destruct (MLP.forward _ _); [|discriminate].
  intros [= <-]. eauto.
Qed.

Lemma apply_nodes_reduce_same self (S : nat -> Prop) nodes (g1 g2 : graph) :
  same_but_predictions S g1 g2 ->
  same_outcome (same_but_predictions (fun v => S v \/ v ∈ nodes))
    (apply_nodes (node_reduce_o self) nodes g1)
    (apply_nodes (node_reduce_o self) nodes g2).
Proof.
  intros Hrel. pose proof Hrel as (Hn & He & Hd & Hfr).
  unfold apply_nodes. rewrite <- Hn.
  destruct (valid_ids (num_nodes g1) nodes); [|reflexivity].
  assert (Heq : node_reduce_o self (node_batch g1 nodes)
                = node_reduce_o self (node_batch g2 nodes)).
  { unfold node_reduce_o.
    rewrite (node_batch_same S g1 g2 nodes "nf" Hrel) by discriminate.
    rewrite (node_batch_same S g1 g2 nodes "nfc1" Hrel) by discriminate.
    rewrite (node_batch_same S g1 g2 nodes "nfc2" Hrel) by discriminate.
    reflexivity. }
  rewrite <- Heq.
  destruct (node_reduce_o self (node_batch g1 nodes)) as [d|err] eqn:E;
    [|reflexivity].
  apply node_reduce_o_single in E as (x & ->).
  apply set_new_nf_same. exact Hrel.
Qed.

Lemma in_edges_unfold nodes e (g : graph) :
  in_edges nodes (Some e) g
  = match edges g !! e with
    | Some el =>
        if valid_ids (num_nodes g) nodes
        then Ok (map (fun i => nth i el (0, 0)) (in_edge_ids el nodes), g)
        else Err DGLError
    | None => Err DGLError
    end.
Proof.
  unfold in_edges, bind, get_etype. destruct (edges g !! e); reflexivity.
Qed.

Lemma bind_unfold {A B} (m : M A) (k : A -> M B) (g : graph) :
  bind m k g = match m g with Ok (a, g') => k a g' | Err e => Err e end.
Proof. reflexivity. Qed.

(** The cell stage, likewise, reads the predictions at the input pins of
    the cell arcs that enter its nodes. *)
Lemma prop_cell_same self (S : nat -> Prop) nodes (g1 g2 : graph) :
  same_but_predictions S g1 g2 ->
  fed_by S g1 "cell_out" nodes ->
  same_outcome (same_but_predictions (fun v => S v \/ v ∈ nodes))
    (prop_cell self nodes false g1) (prop_cell self nodes false g2).
Proof.
  intros Hrel Hfed. pose proof Hrel as (Hn & He & Hd & Hfr).
  unfold prop_cell. rewrite !(bind_unfold (in_edges _ _)), !in_edges_unfold.
  rewrite <- He.
  destruct (edges g1 !! "cell_out") as [el|] eqn:Hel; [|reflexivity].
  rewrite <- Hn. destruct (valid_ids (num_nodes g1) nodes); [|reflexivity].
  set (es := map (fun i => nth i el (0, 0)) (in_edge_ids el nodes)).
  apply (same_outcome_bind (same_but_predictions S)).
  { apply apply_edges_cell_same; assumption. }
  intros _ ga gb Hab.
  apply (same_outcome_bind (same_but_predictions S)).
  { apply (send_and_recv_copy_same S es "efc1" "efc1" "nfc1");
      [auto|discriminate|exact Hab]. }
  intros _ gc gd Hcd.
  apply (same_outcome_bind (same_but_predictions S)).
  { apply (send_and_recv_copy_same S es "efc2" "efc2" "nfc2");
      [auto|discriminate|exact Hcd]. }
  intros _ ge gf Hef.
  apply apply_nodes_reduce_same. exact Hef.
Qed.

Lemma run_stage_same self (S : nat -> Prop) k nodes (g1 g2 : graph) :
  same_but_predictions S g1 g2 ->
  fed_by S g1 (stage_etype k) nodes ->
  same_outcome (same_but_predictions (fun v => S v \/ v ∈ nodes))
    (run_stage self false k nodes g1) (run_stage self false k nodes g2).
Proof.
  destruct k; simpl; [apply prop_net_same|apply prop_cell_same].
Qed.

(** A stage that returns has applied its message function to a batch of
    edges that enter its nodes, a batch of the graph as the stage found
    it. *)
Lemma run_stage_messages self k l (g g' : graph) :
  run_stage self false k l g = Ok (tt, g') ->
  l <> [] ->
  exists el eids d,
    edges g !! stage_etype k = Some el
    /\ Forall (fun i => snd (nth i el (0, 0)) ∈ l) eids
    /\ stage_message self k (edge_batch g (stage_etype k) el eids) = Ok d.
Proof.
  intros H Hl. destruct k; cbn [run_stage stage_etype stage_message] in *.
  - unfold prop_net, pull in H. destruct l as [|x l']; [congruence|].
    unfold bind, get_etype in H.
    destruct (edges g !! "net_out") as [el|]; [|discriminate].
    destruct (valid_ids _ _); [|discriminate].
    unfold message_passing in H. cbn [invoke_message] in H.
    destruct (edge_msg_net self _ false) as [d|] eqn:Ed; [|discriminate].
    exists el, (in_edge_ids el (x :: l')), d.
    split; [reflexivity|]. split; [|exact Ed].
    apply Forall_forall. intros i Hi. apply in_edge_ids_spec in Hi. tauto.
  - unfold prop_cell in H. rewrite bind_unfold, in_edges_unfold in H.
    destruct (edges g !! "cell_out") as [el|] eqn:Hel; [|discriminate].
    destruct (valid_ids _ _); [|discriminate].
    rewrite bind_unfold in H. unfold apply_edges at 1 in H.
    unfold bind, get_etype in H. rewrite Hel in H.
    destruct (rmapM (edge_id el) _) as [eids|] eqn:Eids; [|discriminate].
    destruct (edge_msg_cell self _ false) as [d|] eqn:Ed; [|discriminate].
    exists el, eids, d. split; [reflexivity|]. split; [|exact Ed].
    apply Forall_forall. intros i Hi.
    destruct (rmapM_Ok _ _ _ Eids i Hi) as (uv & Huv & Hid).
    apply edge_id_elem in Hid as [_ ->].
    apply list_elem_of_In, in_map_iff in Huv as (i' & <- & Hin').
    apply list_elem_of_In, in_edge_ids_spec in Hin'. tauto.
Qed.

End Reads.

Section LevelByLevel.
Context {D : Dtype}.
Import SignalProp.

(** C1.  With [groundtruth=False], [forward] runs the levels of [topo] one
    at a time in index order, starting at level 1: for every split
    [topo = pre ++ l :: post] with [pre] not empty, the level [l], of index
    [length pre], is run after every level of [pre] but the first (level 0
    is run by no stage), by the net stage when its index is odd and by the
    cell stage when it is even, on the graph those earlier levels have left,
    and before every level of [post].  The stage of [l] writes the rows of
    the nodes of [l] only.  And it reads the predictions of the earlier
    levels only: where the edges of its type that enter [l] leave nodes of
    [pre], two graphs that agree but for the predictions of the nodes
    outside [pre] give the same outcome, the same error or the same
    predictions for the nodes of [pre] and of [l].  Its messages are read
    off the graph as it is before the stage writes a row: a stage that
    returns has applied its message function to a batch of edges that enter
    [l], taken from the graph as the stage found it. *)
Theorem forward_levels_in_order (self : t) (ts : schedule) (nf : tensor)
    (pre : list (list nat)) (l : list nat) (post : list (list nat)) :
  topo ts = pre ++ l :: post ->
  pre <> [] ->
  length (topo ts) mod 2 = 0 ->
  (forall g,
     forward self ts nf false g
     = local_scope (
         run init_level0 self ts nf;
         run levels_in_order self false 1 (tail pre);
         run run_stage self false (stage_of (length pre)) l;
         run levels_in_order self false (S (length pre)) post;
         outputs) g)
  /\ (forall g g' v,
        run_stage self false (stage_of (length pre)) l g = Ok (tt, g') ->
        v < num_nodes g -> v ∉ l -> keeps_node v g g')
  /\ (forall g1 g2,
        fed_by (fun u => u ∈ concat pre) g1
          (stage_etype (stage_of (length pre))) l ->
        same_but_predictions (fun v => v ∈ concat pre) g1 g2 ->
        same_outcome
          (same_but_predictions (fun v => v ∈ concat pre \/ v ∈ l))
          (run_stage self false (stage_of (length pre)) l g1)
          (run_stage self false (stage_of (length pre)) l g2))
  /\ (forall g g',
        run_stage self false (stage_of (length pre)) l g = Ok (tt, g') ->
        l <> [] ->
        exists el eids d,
          edges g !! stage_etype (stage_of (length pre)) = Some el
          /\ Forall (fun i => snd (nth i el (0, 0)) ∈ l) eids
          /\ stage_message self (stage_of (length pre))
               (edge_batch g (stage_etype (stage_of (length pre))) el eids)
             = Ok d).
Proof.
  intros Hts Hpre Heven. split; [|split; [|split]].
  - intros g. unfold forward. rewrite Heven. simpl.
    apply local_scope_ext. unfold forward_body.
    apply bind_ext. intros _ g1.
    destruct pre as [|l0 pre]; [congruence|]. cbn [tail length].
    rewrite (bind_ext_l _ _ _ g1
               (propagate_levels self ts l0 (pre ++ l :: post) g1 Hts)).
    rewrite (bind_ext_l _ _ _ g1
               (levels_in_order_app self false pre 1 (l :: post) g1)).
    rewrite bind_assoc. apply bind_ext. intros _ g2.
    cbn [levels_in_order]. rewrite bind_assoc. reflexivity.
  - intros g g' v. apply run_stage_keeps.
  - intros g1 g2 Hfed Hrel. apply run_stage_same; assumption.
  - intros g g'. apply run_stage_messages.
Qed.

End LevelByLevel.

(** ** The model on the small circuit *)

Import Example.

(** C4.  The reshape of the mask matrices at line 148 groups them by
    four, whatever [lut_dup] is.  With [lut_dup = 2], one table and one cell
    arc, the two mask matrices cannot be grouped by four: the lookup raises
    a shape error, and so does the forward pass, where a model with
    [lut_dup = 4] on the same circuit returns four lookup results per arc. *)
Theorem lut_lookup_fails_when_lut_dup_is_2 :
  SignalProp.lut_dup (sp 2) = 2
  /\ SignalProp.lut_lookup (sp 2) 1 ef0 att2 = Err RuntimeError
  /\ value (SignalProp.forward (sp 2) ts0 nf0 false g0) = Err RuntimeError
  /\ shape <$> match SignalProp.lut_lookup (sp 4) 1 ef0 att0 with
               | Ok r => Some r
               | Err _ => None
               end = Some [1; 4].
Proof. repeat split; vm_compute; reflexivity. Qed.

(** Inside the scope the pass does write: without [local_scope] the body
    of [NetConv.forward] leaves [new_nf], [nfo1] and [nfo2] on the nodes
    and [efo1], [efo2] on the [net_in] edges, none of which the circuit
    has. *)
Lemma forward_body_writes_features :
  match NetConv.forward_body nc0 ts0 nf0 g0 with
  | Ok (_, g') =>
      negb (has_field (ndata g0) "new_nf")
      && has_field (ndata g') "new_nf"
      && has_field (ndata g') "nfo1" && has_field (ndata g') "nfo2"
      && negb (has_field (eframe g0 "net_in") "efo1")
      && has_field (eframe g' "net_in") "efo1"
      && has_field (eframe g' "net_in") "efo2"
  | Err _ => false
  end = true.
Proof. vm_compute. reflexivity. Qed.

(** ** The properties on the small circuit *)

Lemma forward_levels_in_order_witness :
  topo ts0 = [[0]; [1]] ++ [2] :: [[3]]
  /\ length (topo ts0) mod 2 = 0
  /\ (forall nf g,
        SignalProp.forward (sp 4) ts0 nf false g
        = local_scope (
            run SignalProp.init_level0 (sp 4) ts0 nf;
            run SignalProp.levels_in_order (sp 4) false 1 [[1]];
            run SignalProp.prop_cell (sp 4) [2] false;
            run SignalProp.levels_in_order (sp 4) false 3 [[3]];
            SignalProp.outputs)%dgl g)
  /\ fed_by (fun u => u ∈ [0; 1]) g0_level1 "cell_out" [2]
  /\ same_but_predictions (fun v => v ∈ [0; 1]) g0_level1 g0_level1'
  /\ value (SignalProp.prop_cell (sp 4) [2] false g0_level1) = Ok tt
  /\ same_outcome
       (same_but_predictions (fun v => v ∈ [0; 1] \/ v ∈ [2]))
       (SignalProp.prop_cell (sp 4) [2] false g0_level1)
       (SignalProp.prop_cell (sp 4) [2] false g0_level1').
Proof.
  split; [reflexivity|]. split; [reflexivity|].
  assert (Hfed : fed_by (fun u => u ∈ [0; 1]) g0_level1 "cell_out" [2]).
  { intros el u v Hel Hin _.
    assert (Hc : edges g0_level1 !! "cell_out" = Some [(1, 2)])
      by (vm_compute; reflexivity).
    rewrite Hc in Hel. injection Hel as <-.
    apply list_elem_of_In in Hin. destruct Hin as [[= <- <-]|[]].
    apply (bool_decide_unpack _). vm_compute. exact I. }
  assert (Hrel : same_but_predictions (fun v => v ∈ [0; 1])
                   g0_level1 g0_level1').
  { split; [reflexivity|]. split; [reflexivity|]. split; [reflexivity|].
    split.
    - unfold g0_level1, g0_level1'. cbn [ndata].
      rewrite !delete_insert_eq. reflexivity.
    - eexists _, _. split; [apply lookup_insert_eq|].
      split; [apply lookup_insert_eq|]. split; [reflexivity|].
      intros v Hv. apply list_elem_of_In in Hv.
      destruct Hv as [<-|[<-|[]]]; reflexivity. }
  pose proof (fun nf =>
    forward_levels_in_order (sp 4) ts0 nf [[0]; [1]] [2] [[3]]
      eq_refl ltac:(discriminate) eq_refl) as H.
  split; [intros nf g; exact (proj1 (H nf) g)|].
  split; [exact Hfed|]. split; [exact Hrel|].
  split; [vm_compute; reflexivity|].
  exact (proj1 (proj2 (proj2 (H nf0))) g0_level1 g0_level1' Hfed Hrel).
Defined.

Lemma forward_odd_topo_fails_witness :
  length (topo ts_odd) mod 2 = 1
  /\ SignalProp.forward (sp 4) ts_odd nf0 false g0
     = Err (AssertionError
              "The number of logic levels must be even (net, cell, net)").
Proof.
  split; [reflexivity|].
  apply (forward_odd_topo_fails (sp 4) ts_odd nf0 false g0). reflexivity.
Defined.

Lemma forward_groundtruth_ignores_new_nf_witness :
  delete "new_nf" (ndata g0) = delete "new_nf" (ndata g0_stale)
  /\ value (SignalProp.forward (sp 4) ts0 nf0 true g0)
     = value (SignalProp.forward (sp 4) ts0 nf0 true g0_stale)
  /\ ndata g0_stale !! "new_nf" = Some (T [5; 1] [9; 9; 9; 9; 9]%Z).
Proof.
  assert (H : delete "new_nf" (ndata g0) = delete "new_nf" (ndata g0_stale)).
  { unfold g0_stale. cbn [ndata]. symmetry. apply delete_insert_eq. }
  split; [exact H|]. split; [|apply lookup_insert_eq].
  apply (forward_groundtruth_ignores_new_nf (sp 4) ts0 nf0 g0 g0_stale
           eq_refl eq_refl eq_refl H).
Defined.

Lemma pi_prediction_on_schedule_witness :
  exists new_nf efce g' t,
    SignalProp.forward (sp 4) ts0 nf0 false g0 = Ok ((new_nf, efce), g')
    /\ ndata g0 !! "n_atslew" = Some t
    /\ pi_scheduled ts0
    /\ (0 ∈ pi_nodes ts0)
    /\ row new_nf 0 = row t 0
    /\ row t 0 = [10%Z].
Proof.
  eexists _, _, _, _.
  assert (H1 : SignalProp.forward (sp 4) ts0 nf0 false g0
               = Ok ((T [5; 1] [10; 11; 5; 6; 0]%Z, T [1; 1] [261]%Z), g0))
    by (apply SignalProp_forward_value; vm_compute; reflexivity).
  assert (H2 : ndata g0 !! "n_atslew" = Some (T [5; 1] [10; 20; 30; 40; 50]%Z))
    by (vm_compute; reflexivity).
  assert (H3 : pi_scheduled ts0).
  { split; [apply (bool_decide_unpack _); vm_compute; exact I|]. split.
    - intros v Hv. exact Hv.
    - intros v Hv. apply list_elem_of_In in Hv. destruct Hv as [<-|[]].
      split; apply (bool_decide_unpack _); vm_compute; exact I. }
  assert (H4 : 0 ∈ pi_nodes ts0)
    by (apply (bool_decide_unpack _); vm_compute; exact I).
  split; [exact H1|]. split; [exact H2|]. split; [exact H3|]. split; [exact H4|].
  split; [|reflexivity].
  exact (proj2 (pi_prediction_on_schedule (sp 4) ts0 nf0 false g0 g0 _ _ _ 0
                  H1 H2 H3 H4)).
Defined.

(** The schedule has to be one of the data model.  On [ts_pi_again], which
    lists the primary input [0] again in level 1, the net stage of level 1
    pulls for node [0], which no [net_out] edge enters, and puts the empty
    sum where the copied ground truth [10] was. *)
Lemma pi_prediction_overwritten :
  exists new_nf efce g' t,
    SignalProp.forward (sp 4) ts_pi_again nf0 false g0
    = Ok ((new_nf, efce), g')
    /\ ndata g0 !! "n_atslew" = Some t
    /\ (0 ∈ pi_nodes ts_pi_again)
    /\ ~ pi_scheduled ts_pi_again
    /\ row new_nf 0 = [0%Z]
    /\ row t 0 = [10%Z].
Proof.
  exists (T [5; 1] [0; 11; 5; 6; 0]%Z), (T [1; 1] [261]%Z), g0,
         (T [5; 1] [10; 20; 30; 40; 50]%Z).
  split; [apply SignalProp_forward_value; vm_compute; reflexivity|].
  split; [vm_compute; reflexivity|].
  split; [apply (bool_decide_unpack _); vm_compute; exact I|].
  split; [|split; reflexivity].
  intros (Hnd & _). revert Hnd.
  apply (bool_decide_unpack _). vm_compute. exact I.
Qed.

Lemma unreached_prediction_is_zero_witness :
  exists new_nf efce g',
    SignalProp.forward (sp 4) ts0 nf0 true g0 = Ok ((new_nf, efce), g')
    /\ 4 < num_nodes g0
    /\ (4 ∉ pi_nodes ts0)
    /\ (4 ∉ SignalProp.frontier ts0 true)
    /\ row new_nf 4 = [0%Z].
Proof.
  eexists _, _, _.
  assert (H1 : SignalProp.forward (sp 4) ts0 nf0 true g0
               = Ok ((T [5; 1] [10; 11; 5; 31; 0]%Z, T [1; 1] [405]%Z), g0))
    by (apply SignalProp_forward_value; vm_compute; reflexivity).
  assert (H2 : 4 < num_nodes g0) by (simpl; lia).
  assert (H3 : 4 ∉ pi_nodes ts0)
    by (apply (bool_decide_unpack _); vm_compute; exact I).
  assert (H4 : 4 ∉ SignalProp.frontier ts0 true)
    by (apply (bool_decide_unpack _); vm_compute; exact I).
  split; [exact H1|]. split; [exact H2|]. split; [exact H3|]. split; [exact H4|].
  exact (unreached_prediction_is_zero (sp 4) ts0 nf0 true g0 g0 _ _ 4
           H1 H2 H3 H4).
Defined.

Lemma forward_restores_graph_witness :
  exists out1 g1 out2 g2,
    NetConv.forward nc0 ts0 nf0 g0 = Ok (out1, g1)
    /\ SignalProp.forward (sp 4) ts0 nf0 false g0 = Ok (out2, g2)
    /\ g1 = g0 /\ g2 = g0.
Proof.
  eexists _, _, _, _.
  assert (H1 : NetConv.forward nc0 ts0 nf0 g0
               = Ok (T [5; 1] [4; 2; 6; 4; 8]%Z, g0))
    by (apply NetConv_forward_value; vm_compute; reflexivity).
  assert (H2 : SignalProp.forward (sp 4) ts0 nf0 false g0
               = Ok ((T [5; 1] [10; 11; 5; 6; 0]%Z, T [1; 1] [261]%Z), g0))
    by (apply SignalProp_forward_value; vm_compute; reflexivity).
  split; [exact H1|]. split; [exact H2|].
  split.
  - exact (proj1 (forward_restores_graph nc0 (sp 4) ts0 nf0 nf0 false g0
                    _ (T [5; 1] [10; 11; 5; 6; 0]%Z, T [1; 1] [261]%Z) g0 g0) H1).
  - exact (proj2 (forward_restores_graph nc0 (sp 4) ts0 nf0 nf0 false g0
                    (T [5; 1] [4; 2; 6; 4; 8]%Z) _ g0 g0) H2).
Defined.

Lemma isolated_drive_aggregates_witness :
  exists g1,
    NetConv.aggregate nc0 nf0 g0 = Ok (tt, g1)
    /\ edges g0 !! "net_in" = Some [(1, 0); (3, 2)]
    /\ 4 < num_nodes g0
    /\ exists c1 c2,
         ndata g1 !! "nfo1" = Some c1 /\ ndata g1 !! "nfo2" = Some c2
         /\ row c1 4 = [0%Z] /\ row c2 4 = [0%Z].
Proof.
  assert (H0 : is_ok (NetConv.aggregate nc0 nf0 g0) = true)
    by (vm_compute; reflexivity).
  destruct (is_ok_inv _ H0) as ([] & g1 & H1).
  exists g1.
  assert (H2 : edges g0 !! "net_in" = Some [(1, 0); (3, 2)])
    by (vm_compute; reflexivity).
  assert (H3 : forall uv : nat * nat, uv ∈ [(1, 0); (3, 2)] -> snd uv <> 4).
  { intros uv Huv. apply list_elem_of_In in Huv.
    destruct Huv as [<-|[<-|[]]]; simpl; lia. }
  assert (H4 : 4 < num_nodes g0) by (simpl; lia).
  split; [exact H1|]. split; [exact H2|]. split; [exact H4|].
  destruct (isolated_drive_aggregates nc0 nf0 g0 g1 _ 4 H1 H2 H3 H4)
    as (c1 & c2 & Hc1 & Hc2 & Hr1 & Hr2 & _).
  exists c1, c2. auto.
Defined.

Lemma deep_gcnii_layers_witness :
  (2 <= 3)%Z
  /\ length (DeepGCNII.layers (DeepGCNII.init 3 8 pconv (fun _ => pconv) pconv))
     = 1.
Proof.
  assert (H : (2 <= 3)%Z) by lia. split; [exact H|].
  pose proof (proj1 (deep_gcnii_layers 3 8 pconv pconv (fun _ => pconv) g0 H))
    as Hlen.
  apply Nat2Z.inj. exact Hlen.
Defined.

Lemma lut_lookup_one_hot_witness :
  exists r : @tensor Fdtype,
    SignalProp.lut_lookup spF 1 ef_fin attF = Ok r
    /\ row attF 1 = @onehot Fdtype 2 1 ++ @onehot Fdtype 2 0
    /\ nth 1 (row r 0) PrimFloat.zero = fnat 7.
Proof.
  eexists.
  assert (H1 : SignalProp.lut_lookup spF 1 ef_fin attF
               = Ok (@Tensor Fdtype [1; 4] [fnat 6; fnat 7; fnat 5; fnat 8]))
    by (vm_compute; reflexivity).
  assert (H2 : row attF 1 = @onehot Fdtype 2 1 ++ @onehot Fdtype 2 0)
    by (vm_compute; reflexivity).
  assert (H3 : forall k, k < 2 ^ 2 ->
            @finite Fdtype Fdtype_laws
              (nth (1 * (1 + 2 * 2) + 0 * 2 ^ 2 + k) (row ef_fin 0)
                 PrimFloat.zero)).
  { intros k Hk. simpl in Hk.
    destruct k as [|[|[|[|k]]]]; [| | | |lia]; vm_compute; auto. }
  split; [exact H1|]. split; [exact H2|].
  exact (@lut_lookup_one_hot Fdtype Fdtype_laws spF 1 9 ef_fin attF _
           0 0 1 1 0 H1 eq_refl ltac:(simpl; lia) eq_refl
           ltac:(lia) ltac:(simpl; lia) ltac:(simpl; lia)
           ltac:(simpl; lia) ltac:(simpl; lia) H2 H3).
Defined.

(** C3, as stated, fails in floating point on a table with an infinite
    entry: with the table [[5, inf; 7, 8]] and the attention one-hot at
    [(1, 0)], the entry asked for is [7], and the lookup returns not-a-number,
    the sum of [5 * 0], [inf * 0], [7 * 1] and [8 * 0]. *)
Lemma lut_lookup_infinite_entry :
  exists r : @tensor Fdtype,
    SignalProp.lut_lookup spF 1 ef_inf attF = Ok r
    /\ row attF 1 = @onehot Fdtype 2 1 ++ @onehot Fdtype 2 0
    /\ nth (1 * (1 + 2 * 2) + 0 * 2 ^ 2 + 1 * 2 + 0) (row ef_inf 0)
         PrimFloat.zero = fnat 7
    /\ nth (0 * 4 + 1) (row r 0) PrimFloat.zero = PrimFloat.nan
    /\ PrimFloat.eqb (nth (0 * 4 + 1) (row r 0) PrimFloat.zero) (fnat 7) = false.
Proof.
  eexists. split; [vm_compute; reflexivity|].
  repeat split; vm_compute; reflexivity.
Qed.

(** ** The further properties on concrete circuits *)

Lemma tg_runs : is_ok (TimingGCN.forward tg ts0 false g_timing) = true.
Proof. vm_compute. reflexivity. Qed.

Lemma deep_runs : is_ok (DeepGCNII.forward (deep 3) g_chain) = true.
Proof. vm_compute. reflexivity. Qed.

Lemma TimingGCN_restores_graph_witness :
  exists out g',
    TimingGCN.forward tg ts0 false g_timing = Ok (out, g') /\ g' = g_timing.
Proof.
  destruct (is_ok_inv _ tg_runs) as (out & g' & H).
  exists out, g'. split; [exact H|].
  exact (TimingGCN_restores_graph tg ts0 false g_timing g' out H).
Defined.

Lemma DeepGCNII_restores_graph_witness :
  exists out g',
    DeepGCNII.forward (deep 3) g_chain = Ok (out, g') /\ g' = g_chain.
Proof.
  destruct (is_ok_inv _ deep_runs) as (out & g' & H).
  exists out, g'. split; [exact H|].
  exact (DeepGCNII_restores_graph (deep 3) g_chain g' out H).
Defined.

Lemma forward_needs_n_atslew_witness :
  ndata g0_bare !! "n_atslew" = None
  /\ is_ok (SignalProp.forward (sp 4) ts0 nf0 false g0_bare) = false
  /\ SignalProp.forward (sp 4) ts0 nf0 false g0_bare
     = Err (KeyError "n_atslew").
Proof.
  assert (H : ndata g0_bare !! "n_atslew" = None) by (vm_compute; reflexivity).
  destruct (forward_needs_n_atslew (sp 4) ts0 nf0 false g0_bare H) as [H1 H2].
  split; [exact H|]. split; [exact H1|].
  apply H2; reflexivity.
Defined.

Lemma forward_without_cell_stage_raises_witness :
  length (topo ts_two) <= 2
  /\ eframe g0 "cell_out" !! "efce" = None
  /\ is_ok (SignalProp.forward (sp 4) ts_two nf0 false g0) = false.
Proof.
  assert (H1 : length (topo ts_two) <= 2) by (simpl; lia).
  assert (H2 : eframe g0 "cell_out" !! "efce" = None)
    by (vm_compute; reflexivity).
  split; [exact H1|]. split; [exact H2|].
  exact (forward_without_cell_stage_raises (sp 4) ts_two nf0 g0 H1 H2).
Defined.

Lemma deep_gcnii_no_intermediate_witness :
  (2 <= 2)%Z /\ DeepGCNII.layers (deep 2) = [].
Proof.
  assert (H : (2 <= 2)%Z) by lia. split; [exact H|].
  exact (proj1 (deep_gcnii_no_intermediate 2 8 pconv pconv (fun _ => pconv)
                  g_chain H)).
Defined.

Lemma MLP_forward_shape_witness :
  [3; 1] <> []
  /\ shape x0 = [3; 2]
  /\ (exists y, MLP.forward mlp0 x0 = Ok y /\ shape y = [3; 1])
  /\ MLP.forward (MLP.init [4; 3; 1] (pconst 2 (fun _ => 1%Z))) x0
     = Err RuntimeError.
Proof.
  assert (H : [3; 1] <> ([] : list nat)) by discriminate.
  split; [exact H|]. split; [reflexivity|]. split.
  - destruct (proj1 (MLP_forward_shape 2 [3; 1] (pconst 2 (fun _ => 1%Z)) x0
                       3 2 H eq_refl) eq_refl) as (y & Hy & Hs & _).
    exists y. split; [exact Hy|exact Hs].
  - apply (proj2 (MLP_forward_shape 4 [3; 1] (pconst 2 (fun _ => 1%Z)) x0
                    3 2 H eq_refl)). lia.
Defined.

Lemma MLP_init_layers_witness :
  length mlp0 = 3 /\ is_linear <$> last mlp0 = Some true.
Proof.
  destruct (MLP_init_layers [2; 3; 1] (pconst 2 (fun _ => 1%Z)))
    as (_ & H2 & H3 & _).
  split; [exact H2|]. apply H3. simpl. lia.
Defined.

Lemma SignalProp_forward_shape_witness :
  exists new_nf efce g',
    SignalProp.forward (sp 4) ts0 nf0 false g0 = Ok ((new_nf, efce), g')
    /\ shape new_nf = [5; 1].
Proof.
  eexists _, _, _.
  assert (H1 : SignalProp.forward (sp 4) ts0 nf0 false g0
               = Ok ((T [5; 1] [10; 11; 5; 6; 0]%Z, T [1; 1] [261]%Z), g0))
    by (apply SignalProp_forward_value; vm_compute; reflexivity).
  split; [exact H1|].
  exact (SignalProp_forward_shape (sp 4) ts0 nf0 false g0 g0 _ _ H1).
Defined.

Lemma SignalProp_forward_efce_shape_witness :
  exists new_nf efce g',
    SignalProp.forward (sp 4) ts0 nf0 false g0 = Ok ((new_nf, efce), g')
    /\ 2 < length (topo ts0)
    /\ exists el, edges g0 !! "cell_out" = Some el
         /\ shape efce = [length el; 1].
Proof.
  eexists _, _, _.
  assert (H1 : SignalProp.forward (sp 4) ts0 nf0 false g0
               = Ok ((T [5; 1] [10; 11; 5; 6; 0]%Z, T [1; 1] [261]%Z), g0))
    by (apply SignalProp_forward_value; vm_compute; reflexivity).
  assert (H2 : 2 < length (topo ts0)) by (simpl; lia).
  split; [exact H1|]. split; [exact H2|].
  exact (SignalProp_forward_efce_shape (sp 4) ts0 nf0 false g0 g0 _ _ H1
           (or_intror H2)).
Defined.

Lemma NetConv_forward_shape_witness :
  exists out g',
    NetConv.forward nc0 ts0 nf0 g0 = Ok (out, g')
    /\ shape nf0 = [5; 1] /\ shape out = [5; 1].
Proof.
  eexists _, _.
  assert (H1 : NetConv.forward nc0 ts0 nf0 g0
               = Ok (T [5; 1] [4; 2; 6; 4; 8]%Z, g0))
    by (apply NetConv_forward_value; vm_compute; reflexivity).
  split; [exact H1|].
  destruct (NetConv_forward_shape 1 1 1 1 1 _ _ _ ts0 nf0 g0 g0 _ eq_refl H1)
    as (Hn & Ho & _).
  split; [exact Hn|exact Ho].
Defined.

Lemma TimingGCN_forward_shapes_witness :
  exists net_delays cell_delays atslew g',
    TimingGCN.forward tg ts0 false g_timing
    = Ok ((net_delays, cell_delays, atslew), g')
    /\ shape net_delays = [5; 4] /\ shape atslew = [5; 8]
    /\ shape cell_delays = [1; 4].
Proof.
  destruct (is_ok_inv _ tg_runs) as ([[nd cd] at0] & g' & H).
  exists nd, cd, at0, g'. split; [exact H|].
  destruct (TimingGCN_forward_shapes _ ts0 false g_timing g' nd cd at0 H)
    as (_ & Hnd & Hat & Hcd).
  split; [exact Hnd|]. split; [exact Hat|].
  assert (H2 : 2 < length (topo ts0)) by (simpl; lia).
  destruct (Hcd (or_intror H2)) as (el & Hel & Hs).
  assert (Hel' : edges g_timing !! "cell_out" = Some [(1, 2)])
    by (vm_compute; reflexivity).
  rewrite Hel' in Hel. injection Hel as <-. exact Hs.
Defined.

Lemma AllConv_forward_shape_witness :
  exists out g',
    AllConv.forward (AllConv.init 10 16 12 10 10 pconv) (ramp [3; 10]) g_chain
    = Ok (out, g')
    /\ shape out = [3; 16] /\ g' = g_chain.
Proof.
  assert (H0 : is_ok (AllConv.forward (AllConv.init 10 16 12 10 10 pconv)
                        (ramp [3; 10]) g_chain) = true)
    by (vm_compute; reflexivity).
  destruct (is_ok_inv _ H0) as (out & g' & H).
  exists out, g'. split; [exact H|].
  destruct (AllConv_forward_shape 10 16 12 10 10 pconv (ramp [3; 10])
              g_chain g' out eq_refl H) as (_ & Ho & _ & Hg).
  split; [exact Ho|exact Hg].
Defined.

Lemma DeepGCNII_forward_shape_witness :
  exists out g',
    DeepGCNII.forward (deep 3) g_chain = Ok (out, g')
    /\ shape out = [3; 8].
Proof.
  destruct (is_ok_inv _ deep_runs) as (out & g' & H).
  exists out, g'. split; [exact H|].
  exact (proj2 (DeepGCNII_forward_shape 3 8 pconv (fun _ => pconv) pconv
                  g_chain g' out H)).
Defined.

Lemma lut_lookup_needs_lut_dup_4_witness :
  exists r,
    SignalProp.lut_lookup (sp 4) 2 ef2 att8 = Ok r
    /\ shape ef2 = [2; 9] /\ shape att8 = [8; 4]
    /\ SignalProp.lut_dup (sp 4) = 4.
Proof.
  eexists.
  assert (H1 : SignalProp.lut_lookup (sp 4) 2 ef2 att8
               = Ok (T [2; 4] [6; 7; 5; 8; 2; 3; 1; 4]%Z))
    by (vm_compute; reflexivity).
  split; [exact H1|]. split; [reflexivity|]. split; [reflexivity|].
  exact (lut_lookup_needs_lut_dup_4 (sp 4) 2 9 ef2 att8 _ H1 eq_refl
           ltac:(simpl; lia) eq_refl ltac:(simpl; lia)).
Defined.

Lemma lut_lookup_returns_witness :
  shape ef0 = [1; 9] /\ shape att0 = [4; 4]
  /\ exists r, SignalProp.lut_lookup (sp 4) 1 ef0 att0 = Ok r
       /\ shape r = [1; 4].
Proof.
  split; [reflexivity|]. split; [reflexivity|].
  exact (lut_lookup_returns (sp 4) 1 9 ef0 att0 eq_refl
           ltac:(simpl; lia) eq_refl ltac:(simpl; lia) eq_refl).
Defined.

Lemma NetConv_undriven_row_zero_witness :
  exists out g',
    NetConv.forward nc0 ts_cells nf0 g0 = Ok (out, g')
    /\ edges g0 !! "net_out" = Some [(0, 1); (2, 3)]
    /\ (0 ∉ output_nodes ts_cells)
    /\ row out 0 = [0%Z].
Proof.
  eexists _, _.
  assert (H1 : NetConv.forward nc0 ts_cells nf0 g0
               = Ok (T [5; 1] [0; 2; 6; 4; 8]%Z, g0))
    by (apply NetConv_forward_value; vm_compute; reflexivity).
  assert (H2 : edges g0 !! "net_out" = Some [(0, 1); (2, 3)])
    by (vm_compute; reflexivity).
  assert (H3 : forall uv : nat * nat, uv ∈ [(0, 1); (2, 3)] -> snd uv <> 0).
  { intros uv Huv. apply list_elem_of_In in Huv.
    destruct Huv as [<-|[<-|[]]]; simpl; lia. }
  assert (H4 : 0 < num_nodes g0) by (simpl; lia).
  assert (H5 : 0 ∉ output_nodes ts_cells)
    by (apply (bool_decide_unpack _); vm_compute; exact I).
  split; [exact H1|]. split; [exact H2|]. split; [exact H5|].
  exact (NetConv_undriven_row_zero nc0 ts_cells nf0 g0 g0 _ _ 0
           H1 H2 H3 H4 H5).
Defined.

